(** * The gloom memory engine: MemoryStore, EpisodicMemory, SemanticMemory

    A shallow embedding of [src/memory/memory_store.cpp],
    [src/memory/episodic.cpp] and [src/memory/semantic.cpp], and of
    [solana::toolkit::State] ([state.cpp], [state.hpp]), which the sources
    carry at the end of [semantic.cpp].

    Conventions of the embedding.
    - [std::unordered_map<std::string, V>] is a [gmap string V]; the
      iteration order of the C++ container is unspecified, the model
      iterates in the order of [map_to_list].
    - [std::chrono::system_clock::time_point] is a tick count in [Z]; every
      operation that reads the clock takes the reading as its argument
      [now] (one reading per call).
    - [size_t] counters are [N] with the wrap-around at [2^64] written out;
      sizes and capacities of containers are [nat].
    - [double] values are real numbers: the scoring formulas are the
      formulas of the source over [R], with [std::log1p x = ln (1 + x)].
      Rounding, infinities and NaN are left out; what the [search]
      functions return is therefore stated as which entries and how many,
      not as the order that their scores give them.
      The one place where a [double] is converted back to an integer, the
      pruning quota, is written out in integer arithmetic and compared
      with the binary64 computation on primitive floats.
    - [std::sort comp] is a merge sort driven by the same comparator; the
      theorems below use only that its result is a sorted permutation.
    - every operation returns the new store next to its result; the
      [std::shared_mutex] of a store is not modelled, calls run one after
      the other. *)

From Corelib Require Import PrimFloat.
From Stdlib Require Import Reals Lra Lia ZArith.
From stdpp Require Import gmap strings list fin_maps sorting pretty.

Set Default Proof Using "Type*".

(** ** Clock, counters and doubles *)

Definition time_point := Z.

(** [system_clock] ticks in nanoseconds. *)
Definition ticks_per_hour : Z := 3600 * 1000000000.

(** [duration_cast<hours>(now - t).count()]: truncation toward zero. *)
Definition hours_between (now t : time_point) : Z := Z.quot (now - t) ticks_per_hour.

Definition size_t_modulus : N := 2 ^ 64.

(** [x++] on a [size_t]. *)
Definition incr_size_t (x : N) : N := ((x + 1) mod size_t_modulus)%N.

(** [std::log1p] on the arguments the stores give it in normal running,
    hour counts and access counts, which are not negative.  For [x <= -1],
    an hour count taken at a clock reading an hour or more before the
    stored time, [std::log1p] is infinite or a NaN while [ln (1 + x)] is
    [0]: the definition does not stand for the code there. *)
Definition log1p (x : R) : R := ln (1 + x).

(** ** [std::sort] *)

(** [std::sort first last comp]: [comp a b] says that [a] goes before [b].
    In the result no element goes before one of its predecessors. *)
Definition std_sort {A} (comp : A → A → Prop)
    `{!∀ a b, Decision (comp a b)} (l : list A) : list A :=
  merge_sort (λ a b, ¬ comp b a) l.

Global Instance Rlt_decision (x y : R) : Decision (x < y)%R := Rlt_dec x y.
Global Instance Rgt_decision (x y : R) : Decision (x > y)%R := Rgt_dec x y.
Global Instance Rge_decision (x y : R) : Decision (x >= y)%R := Rge_dec x y.

(** ** The pruning quota

    [size_t to_remove = size - (capacity * 0.9);] subtracts a [double]
    from a [size_t] and converts the [double] difference back to [size_t],
    which truncates toward zero.  The difference is [(10*size - 9*capacity)/10];
    every caller has [size >= capacity], so it is never negative there,
    and the definition stands for the code in that case: where
    [10*size < 9*capacity] the [double] is negative, its conversion to
    [size_t] is out of range, and the [0] that [Z.to_nat] gives is not
    what the code does. *)
Definition prune_quota (size capacity : nat) : nat :=
  Z.to_nat (Z.quot (10 * Z.of_nat size - 9 * Z.of_nat capacity) 10).

(** The same difference in binary64 arithmetic, before the conversion;
    [0x1.ccccccccccccdp-1] is the [double] that the literal [0.9] denotes. *)
Definition quota_double (size capacity : float) : float :=
  PrimFloat.sub size (PrimFloat.mul capacity 0x1.ccccccccccccdp-1%float).

(** The conversion of a [size_t] to [double]; exact below [2^53]. *)
Fixpoint size_t_to_double (n : nat) : float :=
  match n with
  | O => 0%float
  | S n => PrimFloat.add (size_t_to_double n) 1%float
  end.

(** [q] is the non-negative [double] [d] without its fraction. *)
Definition truncates_to (d : float) (q : nat) : bool :=
  PrimFloat.leb (size_t_to_double q) d &&
  PrimFloat.ltb d (size_t_to_double (S q)).

(** The integer formula gives what the binary64 computation gives. *)
Definition quota_agrees (size capacity : nat) : bool :=
  truncates_to (quota_double (size_t_to_double size) (size_t_to_double capacity))
               (prune_quota size capacity).

(** [s.find(sub) != std::string::npos] *)
Definition contains (s sub : string) : bool :=
  match String.index 0 sub s with Some _ => true | None => false end.

(** ** Records of the memory store *)

Module Memory.

(** Modelled from the spec: the header [gloom/memory/memory_store.hpp] that
    declares [Memory], [Query] and [MemoryUpdate] is not part of the sources.
    The fields are those of the spec's Record, under the names the code
    uses ([id], [content], [timestamp], [last_accessed], [last_modified],
    [access_count], [importance], [tags], [metadata]). *)
Record t := mk {
  id : string;
  content : string;
  embedding : option (list R);
  timestamp : time_point;
  last_accessed : time_point;
  last_modified : time_point;
  access_count : N;
  importance : R;
  tags : gset string;
  metadata : gmap string string
}.

(** [mem.timestamp = created; mem.last_accessed = accessed;] *)
Definition set_stamps (m : t) (created accessed : time_point) : t :=
  mk (id m) (content m) (embedding m) created accessed (last_modified m)
     (access_count m) (importance m) (tags m) (metadata m).

(** [it->second.last_accessed = now; it->second.access_count++;] *)
Definition touch (now : time_point) (m : t) : t :=
  mk (id m) (content m) (embedding m) (timestamp m) now (last_modified m)
     (incr_size_t (access_count m)) (importance m) (tags m) (metadata m).

End Memory.

Module Query.

(** Modelled from the spec: [Query] has an optional content substring, a
    collection of tags and an optional start and end time; the code reads
    them as [query.content], [query.tags], [query.start_time] and
    [query.end_time]. *)
Record t := mk {
  content : string;
  tags : list string;
  start_time : option time_point;
  end_time : option time_point
}.

End Query.

Module MemoryUpdate.

(** Modelled from the spec: [MemoryUpdate] holds three optional fields, read
    as [update.content], [update.tags] and [update.metadata]. *)
Record t := mk {
  content : option string;
  tags : option (gset string);
  metadata : option (gmap string string)
}.

End MemoryUpdate.

(** ** Pruning a keyed collection

    The three stores prune their map with the same loop: score every entry,
    sort the [(id, score)] pairs by ascending score, erase the ids of the
    first [to_remove] pairs. *)
Definition scored {V} (score : V → R) (m : gmap string V) : list (string * R) :=
  std_sort (λ a b : string * R, (a.2 < b.2)%R)
           ((λ kv : string * V, (kv.1, score kv.2)) <$> map_to_list m).

Definition erase_all {V} (m : gmap string V) (l : list (string * R))
    : gmap string V :=
  foldl (λ acc p, delete p.1 acc) m l.

Definition erase_lowest {V} (score : V → R) (to_remove : nat)
    (m : gmap string V) : gmap string V :=
  erase_all m (take to_remove (scored score m)).

(** [if (limit > 0 && results.size() > limit) results.resize(limit);] *)
Definition limit_results {A} (limit : nat) (results : list A) : list A :=
  if decide (0 < limit ∧ limit < length results) then take limit results
  else results.

(** ** MemoryStore *)

Module MemoryStore.

Record Impl := mkImpl {
  memories : gmap string Memory.t;
  capacity : nat
}.

(** [MemoryStore::MemoryStore(size_t capacity)] *)
Definition new (capacity : nat) : Impl := mkImpl ∅ capacity.

(** The code reads the clock inside [calculate_relevance], so once for
    every comparison that [std::sort] makes; [now] stands for all these
    readings.  The value is the real number that the formula denotes: the
    code rounds every step to binary64, where scores that are close, or an
    access count above [2^53] and its neighbour, give the same [double]. *)
Definition calculate_relevance (now : time_point) (memory : Memory.t) : R :=
  let age := IZR (hours_between now (Memory.timestamp memory)) in
  let recency_score := (1 / (1 + log1p age))%R in
  let access_score := log1p (IZR (Z.of_N (Memory.access_count memory))) in
  let importance_score := Memory.importance memory in
  (recency_score * 0.4 + access_score * 0.3 + importance_score * 0.3)%R.

Definition calculate_retention_score (memory : Memory.t) (now : time_point) : R :=
  let age := IZR (hours_between now (Memory.timestamp memory)) in
  let last_access := IZR (hours_between now (Memory.last_accessed memory)) in
  let age_score := (1 / (1 + log1p age))%R in
  let access_recency_score := (1 / (1 + log1p last_access))%R in
  let access_frequency_score := log1p (IZR (Z.of_N (Memory.access_count memory))) in
  let importance_score := Memory.importance memory in
  (age_score * 0.2 + access_recency_score * 0.3 +
   access_frequency_score * 0.2 + importance_score * 0.3)%R.

Definition matches_query (memory : Memory.t) (query : Query.t) : bool :=
  if negb (String.eqb (Query.content query) "") &&
     negb (contains (Memory.content memory) (Query.content query)) then false
  else if negb (bool_decide (Query.tags query = [])) &&
          negb (existsb (λ tag, bool_decide (tag ∈ Memory.tags memory))
                        (Query.tags query))
  then false
  else if match Query.start_time query with
          | Some t => (Memory.timestamp memory <? t)%Z
          | None => false end then false
  else if match Query.end_time query with
          | Some t => (Memory.timestamp memory >? t)%Z
          | None => false end then false
  else true.

Definition prune (s : Impl) (now : time_point) : Impl :=
  if decide (size (memories s) < capacity s) then s
  else
    let to_remove := prune_quota (size (memories s)) (capacity s) in
    mkImpl (erase_lowest (λ memory, calculate_retention_score memory now)
                         to_remove (memories s))
           (capacity s).

Definition store (s : Impl) (memory : Memory.t) (now : time_point) : bool * Impl :=
  let s := if decide (capacity s ≤ size (memories s)) then prune s now else s in
  let mem := Memory.set_stamps memory now now in
  (true, mkImpl (<[Memory.id mem := mem]> (memories s)) (capacity s)).

Definition retrieve (s : Impl) (id : string) (now : time_point)
    : option Memory.t * Impl :=
  match memories s !! id with
  | Some m =>
      let m' := Memory.touch now m in
      (Some m', mkImpl (<[id := m']> (memories s)) (capacity s))
  | None => (None, s)
  end.

(** The loop [for (const auto& result : results)] that updates the access
    metrics of the stored entries. *)
Definition update_access_metrics (now : time_point)
    (m : gmap string Memory.t) (results : list Memory.t) : gmap string Memory.t :=
  foldl (λ acc result, alter (Memory.touch now) (Memory.id result) acc) m results.

Definition search (s : Impl) (query : Query.t) (limit : nat) (now : time_point)
    : list Memory.t * Impl :=
  let results :=
    filter (λ memory, matches_query memory query = true)
           (snd <$> map_to_list (memories s)) in
  let results :=
    std_sort (λ a b, (calculate_relevance now a > calculate_relevance now b)%R)
             results in
  let results := limit_results limit results in
  (results, mkImpl (update_access_metrics now (memories s) results) (capacity s)).

Definition update (s : Impl) (id : string) (update : MemoryUpdate.t)
    (now : time_point) : bool * Impl :=
  match memories s !! id with
  | None => (false, s)
  | Some m =>
      let m' :=
        Memory.mk (Memory.id m)
          (default (Memory.content m) (MemoryUpdate.content update))
          (Memory.embedding m) (Memory.timestamp m) (Memory.last_accessed m) now
          (Memory.access_count m) (Memory.importance m)
          (default (Memory.tags m) (MemoryUpdate.tags update))
          (default (Memory.metadata m) (MemoryUpdate.metadata update)) in
      (true, mkImpl (<[id := m']> (memories s)) (capacity s))
  end.

Definition remove (s : Impl) (id : string) : bool * Impl :=
  (bool_decide (is_Some (memories s !! id)),
   mkImpl (delete id (memories s)) (capacity s)).

Definition clear (s : Impl) : Impl := mkImpl ∅ (capacity s).

Definition size (s : Impl) : nat := base.size (memories s).

(** [store] files every Record under its own id ([memories[mem.id] = mem]),
    and no operation changes an id: each key is the id of its entry. *)
Definition keyed_by_id (s : Impl) : Prop :=
  map_Forall (λ k m, Memory.id m = k) (memories s).

Global Instance keyed_by_id_dec (s : Impl) : Decision (keyed_by_id s) :=
  @map_Forall_dec string (gmap string) _ _ _ _ _ _ _ _ _ Memory.t
    (λ k m, Memory.id m = k) (λ k m, decide (Memory.id m = k)) (memories s).

End MemoryStore.

(** ** EpisodicMemory *)

Module EpisodeQuery.

(** Modelled from the spec: [EpisodeQuery] is declared in the header
    [gloom/memory/episodic.hpp], which is not part of the sources; the code
    reads [query.start_time], [query.end_time], [query.context] and
    [query.content]. *)
Record t := mk {
  start_time : option time_point;
  end_time : option time_point;
  context : gmap string string;
  content : string
}.

End EpisodeQuery.

Module EpisodicMemory.

Record Episode := mkEpisode {
  id : string;
  timestamp : time_point;
  memories : list Memory.t;
  context : gmap string string;
  importance : R;
  access_count : N;
  last_accessed : time_point
}.

(** The constructor [Episode(const std::string& episode_id)]. *)
Definition new_episode (episode_id : string) (now : time_point) : Episode :=
  mkEpisode episode_id now [] ∅ 0%R 0%N now.

Definition set_context (e : Episode) (c : gmap string string) : Episode :=
  mkEpisode (id e) (timestamp e) (memories e) c (importance e)
            (access_count e) (last_accessed e).

Definition set_memories (e : Episode) (ms : list Memory.t) : Episode :=
  mkEpisode (id e) (timestamp e) ms (context e) (importance e)
            (access_count e) (last_accessed e).

Definition set_importance (e : Episode) (x : R) : Episode :=
  mkEpisode (id e) (timestamp e) (memories e) (context e) x
            (access_count e) (last_accessed e).

(** [episode.last_accessed = now; episode.access_count++;] *)
Definition touch (now : time_point) (e : Episode) : Episode :=
  mkEpisode (id e) (timestamp e) (memories e) (context e) (importance e)
            (incr_size_t (access_count e)) now.

(** [counter] is the function-local [static std::atomic<uint64_t>] of
    [generate_id]; the model threads it with the store. *)
Record Impl := mkImpl {
  episodes : gmap string Episode;
  capacity : nat;
  max_memories_per_episode : nat;
  counter : N
}.

Definition new (max_episodes max_memories_per_episode : nat) : Impl :=
  mkImpl ∅ max_episodes max_memories_per_episode 0.

Definition with_episodes (s : Impl) (eps : gmap string Episode) : Impl :=
  mkImpl eps (capacity s) (max_memories_per_episode s) (counter s).

(** [return "ep_" + std::to_string(++counter);] *)
Definition generate_id (counter : N) : string * N :=
  let counter := incr_size_t counter in
  ("ep_" +:+ pretty counter, counter).

Definition calculate_memory_importance (memory : Memory.t) : R :=
  (Memory.importance memory *
   (1 + log1p (IZR (Z.of_N (Memory.access_count memory)))))%R.

Definition calculate_relevance (episode : Episode) (query : EpisodeQuery.t)
    (now : time_point) : R :=
  let age := IZR (hours_between now (timestamp episode)) in
  let recency_score := (1 / (1 + log1p age))%R in
  let access_score := log1p (IZR (Z.of_N (access_count episode))) in
  let importance_score := importance episode in
  (recency_score * 0.3 + access_score * 0.3 + importance_score * 0.4)%R.

Definition calculate_retention_score (episode : Episode) (now : time_point) : R :=
  let age := IZR (hours_between now (timestamp episode)) in
  let last_access := IZR (hours_between now (last_accessed episode)) in
  let age_score := (1 / (1 + log1p age))%R in
  let access_recency_score := (1 / (1 + log1p last_access))%R in
  let access_frequency_score := log1p (IZR (Z.of_N (access_count episode))) in
  let importance_score := importance episode in
  (age_score * 0.2 + access_recency_score * 0.3 +
   access_frequency_score * 0.2 + importance_score * 0.3)%R.

Definition matches_query (episode : Episode) (query : EpisodeQuery.t) : bool :=
  if match EpisodeQuery.start_time query with
     | Some t => (timestamp episode <? t)%Z | None => false end then false
  else if match EpisodeQuery.end_time query with
          | Some t => (timestamp episode >? t)%Z | None => false end then false
  else if negb (forallb
                  (λ kv : string * string,
                     bool_decide (context episode !! kv.1 = Some kv.2))
                  (map_to_list (EpisodeQuery.context query))) then false
  else if negb (String.eqb (EpisodeQuery.content query) "") &&
          negb (existsb
                  (λ memory,
                     contains (Memory.content memory) (EpisodeQuery.content query))
                  (memories episode)) then false
  else true.

Definition prune_episodes (s : Impl) (now : time_point) : Impl :=
  let to_remove := prune_quota (size (episodes s)) (capacity s) in
  with_episodes s
    (erase_lowest (λ episode, calculate_retention_score episode now)
                  to_remove (episodes s)).

Definition prune_memories (s : Impl) (episode : Episode) : Episode :=
  let memories := memories episode in
  let scores := imap (λ i memory, (i, calculate_memory_importance memory)) memories in
  let scores := std_sort (λ a b : nat * R, (a.2 < b.2)%R) scores in
  let to_remove := prune_quota (length memories) (max_memories_per_episode s) in
  let indices_to_remove : gset nat := list_to_set (fst <$> take to_remove scores) in
  let retained_memories :=
    snd <$> filter (λ im : nat * Memory.t, im.1 ∉ indices_to_remove)
                   (imap pair memories) in
  set_memories episode retained_memories.

Definition update_episode_importance (episode : Episode) : Episode :=
  let total_importance :=
    foldl (λ total memory, (total + calculate_memory_importance memory)%R)
          0%R (memories episode) in
  set_importance episode
    (total_importance /
     (if decide (memories episode = []) then 1
      else INR (length (memories episode))))%R.

Definition create_episode (s : Impl) (context : gmap string string)
    (now : time_point) : string * Impl :=
  let s := if decide (capacity s ≤ size (episodes s))
           then prune_episodes s now else s in
  let '(id, counter) := generate_id (counter s) in
  (* [emplace] keeps an entry that already has this key *)
  let episode := default (new_episode id now) (episodes s !! id) in
  let episode := set_context episode context in
  (id, mkImpl (<[id := episode]> (episodes s)) (capacity s)
              (max_memories_per_episode s) counter).

Definition add_memory (s : Impl) (episode_id : string) (memory : Memory.t)
    : bool * Impl :=
  match episodes s !! episode_id with
  | None => (false, s)
  | Some episode =>
      let episode :=
        if decide (max_memories_per_episode s ≤ length (memories episode))
        then prune_memories s episode else episode in
      let episode := set_memories episode (memories episode ++ [memory]) in
      let episode := update_episode_importance episode in
      (true, with_episodes s (<[episode_id := episode]> (episodes s)))
  end.

Definition recall_episode (s : Impl) (episode_id : string) (now : time_point)
    : option (list Memory.t) * Impl :=
  match episodes s !! episode_id with
  | None => (None, s)
  | Some episode =>
      let episode := touch now episode in
      (Some (memories episode),
       with_episodes s (<[episode_id := episode]> (episodes s)))
  end.

(** The comparator of [search] looks the episode of a result up again with
    [pimpl->episodes.at(a.first)]; every result id is a key of the map. *)
Definition relevance_at (s : Impl) (query : EpisodeQuery.t) (now : time_point)
    (episode_id : string) : R :=
  match episodes s !! episode_id with
  | Some episode => calculate_relevance episode query now
  | None => 0%R
  end.

Definition search (s : Impl) (query : EpisodeQuery.t) (limit : nat)
    (now : time_point) : list (string * list Memory.t) * Impl :=
  let results :=
    (λ kv : string * Episode, (kv.1, memories kv.2)) <$>
    filter (λ kv : string * Episode, matches_query kv.2 query = true)
           (map_to_list (episodes s)) in
  let results :=
    std_sort (λ a b : string * list Memory.t,
                (relevance_at s query now a.1 > relevance_at s query now b.1)%R)
             results in
  let results := limit_results limit results in
  (results, s).

(** [create_episode] files every episode under the id that [generate_id]
    returned, ["ep_"] followed by a counter value that has been passed. *)
Definition ids_issued (s : Impl) : Prop :=
  ∀ k, is_Some (episodes s !! k) →
       ∃ n, (n ≤ counter s)%N ∧ k = "ep_" +:+ pretty n.


End EpisodicMemory.

(** ** SemanticMemory *)

Module SemanticNode.

(** Modelled from the spec: [SemanticNode] is declared in the header
    [gloom/memory/semantic.hpp], which is not part of the sources;
    [convert_to_semantic_node] assigns [id], [concept], [attributes] and
    [importance]. *)
Record t := mk {
  id : string;
  concept : string;
  attributes : gmap string string;
  importance : R
}.

End SemanticNode.

Module SemanticQuery.

(** Modelled from the spec: [SemanticQuery] is declared in the same header;
    the code reads [query.concept] and [query.attributes]. *)
Record t := mk {
  concept : string;
  attributes : gmap string string
}.

End SemanticQuery.

Module SemanticMemory.

Record Node := mkNode {
  id : string;
  concept : string;
  attributes : gmap string string;
  relationships : list (string * R);
  importance : R;
  access_count : N;
  created : time_point;
  last_accessed : time_point
}.

(** The constructor [Node(const std::string& node_id, const std::string& node_concept)]. *)
Definition new_node (node_id node_concept : string) (now : time_point) : Node :=
  mkNode node_id node_concept ∅ [] 0%R 0%N now now.

Definition set_attributes (n : Node) (a : gmap string string) : Node :=
  mkNode (id n) (concept n) a (relationships n) (importance n)
         (access_count n) (created n) (last_accessed n).

Definition set_relationships (n : Node) (rels : list (string * R)) : Node :=
  mkNode (id n) (concept n) (attributes n) rels (importance n)
         (access_count n) (created n) (last_accessed n).

Definition set_importance (n : Node) (x : R) : Node :=
  mkNode (id n) (concept n) (attributes n) (relationships n) x
         (access_count n) (created n) (last_accessed n).

(** [node.last_accessed = now; node.access_count++;] *)
Definition touch (now : time_point) (n : Node) : Node :=
  mkNode (id n) (concept n) (attributes n) (relationships n) (importance n)
         (incr_size_t (access_count n)) (created n) now.

(** [counter] is the function-local [static std::atomic<uint64_t>] of
    [generate_id]; the model threads it with the store. *)
Record Impl := mkImpl {
  nodes : gmap string Node;
  capacity : nat;
  counter : N
}.

Definition new (capacity : nat) : Impl := mkImpl ∅ capacity 0.

Definition with_nodes (s : Impl) (ns : gmap string Node) : Impl :=
  mkImpl ns (capacity s) (counter s).

(** [return "sem_" + std::to_string(++counter);] *)
Definition generate_id (counter : N) : string * N :=
  let counter := incr_size_t counter in
  ("sem_" +:+ pretty counter, counter).

Definition convert_to_semantic_node (node : Node) : SemanticNode.t :=
  SemanticNode.mk (id node) (concept node) (attributes node) (importance node).

Definition calculate_retention_score (node : Node) (now : time_point) : R :=
  let age := IZR (hours_between now (created node)) in
  let last_access := IZR (hours_between now (last_accessed node)) in
  let age_score := (1 / (1 + log1p age))%R in
  let access_recency_score := (1 / (1 + log1p last_access))%R in
  let access_frequency_score := log1p (IZR (Z.of_N (access_count node))) in
  let importance_score := importance node in
  let connectivity_score := log1p (INR (length (relationships node))) in
  (age_score * 0.15 + access_recency_score * 0.25 +
   access_frequency_score * 0.2 + importance_score * 0.25 +
   connectivity_score * 0.15)%R.

Definition prune_nodes (s : Impl) (now : time_point) : Impl :=
  let to_remove := prune_quota (size (nodes s)) (capacity s) in
  with_nodes s
    (erase_lowest (λ node, calculate_retention_score node now)
                  to_remove (nodes s)).

Definition create_node (s : Impl) (concept : string)
    (attributes : gmap string string) (now : time_point) : string * Impl :=
  let s := if decide (capacity s ≤ size (nodes s))
           then prune_nodes s now else s in
  let '(id, counter) := generate_id (counter s) in
  (* [emplace] keeps an entry that already has this key *)
  let node := default (new_node id concept now) (nodes s !! id) in
  let node := set_attributes node attributes in
  (id, mkImpl (<[id := node]> (nodes s)) (capacity s) counter).

(** [std::find_if] for the first edge to [to_id], then [rel_it->second = strength];
    [None] when there is no such edge. *)
Fixpoint overwrite_strength (to_id : string) (strength : R)
    (relationships : list (string * R)) : option (list (string * R)) :=
  match relationships with
  | [] => None
  | rel :: rest =>
      if decide (rel.1 = to_id) then Some ((rel.1, strength) :: rest)
      else cons rel <$> overwrite_strength to_id strength rest
  end.

Definition add_relationship (s : Impl) (from_id to_id : string) (strength : R)
    : bool * Impl :=
  match nodes s !! from_id, nodes s !! to_id with
  | Some from, Some _ =>
      let relationships :=
        match overwrite_strength to_id strength (relationships from) with
        | Some rels => rels
        | None => relationships from ++ [(to_id, strength)]
        end in
      (true, with_nodes s (<[from_id := set_relationships from relationships]> (nodes s)))
  | _, _ => (false, s)
  end.

Definition get_node (s : Impl) (id : string) (now : time_point)
    : option SemanticNode.t * Impl :=
  match nodes s !! id with
  | None => (None, s)
  | Some node =>
      let node := touch now node in
      (Some (convert_to_semantic_node node), with_nodes s (<[id := node]> (nodes s)))
  end.

Definition matches_query (node : Node) (query : SemanticQuery.t) : bool :=
  if negb (String.eqb (SemanticQuery.concept query) "") &&
     negb (String.eqb (concept node) (SemanticQuery.concept query)) then false
  else if negb (forallb
                  (λ kv : string * string,
                     bool_decide (attributes node !! kv.1 = Some kv.2))
                  (map_to_list (SemanticQuery.attributes query))) then false
  else true.

Definition calculate_relevance (node : Node) (query : SemanticQuery.t)
    (now : time_point) : R :=
  let age := IZR (hours_between now (created node)) in
  let recency_score := (1 / (1 + log1p age))%R in
  let access_score := log1p (IZR (Z.of_N (access_count node))) in
  let importance_score := importance node in
  let relationship_score := log1p (INR (length (relationships node))) in
  (recency_score * 0.2 + access_score * 0.2 +
   importance_score * 0.4 + relationship_score * 0.2)%R.

(** The comparator of [search] looks the node of a result up again with
    [pimpl->nodes.at(a.id)]; every result id is a key of the map. *)
Definition relevance_at (s : Impl) (query : SemanticQuery.t) (now : time_point)
    (node_id : string) : R :=
  match nodes s !! node_id with
  | Some node => calculate_relevance node query now
  | None => 0%R
  end.

Definition search (s : Impl) (query : SemanticQuery.t) (limit : nat)
    (now : time_point) : list SemanticNode.t * Impl :=
  let results :=
    convert_to_semantic_node <$>
    filter (λ node, matches_query node query = true)
           (snd <$> map_to_list (nodes s)) in
  let results :=
    std_sort (λ a b : SemanticNode.t,
                (relevance_at s query now (SemanticNode.id a)
                 > relevance_at s query now (SemanticNode.id b))%R)
             results in
  let results := limit_results limit results in
  (results,
   with_nodes s
     (foldl (λ acc result, alter (touch now) (SemanticNode.id result) acc)
            (nodes s) results)).

(** The lambda [find_strength] of [get_related_nodes]. *)
Definition find_strength (relationships : list (string * R)) (rel_id : string) : R :=
  match list_find (λ r : string * R, r.1 = rel_id) relationships with
  | Some (_, rel) => rel.2
  | None => 0%R
  end.

Definition get_related_nodes (s : Impl) (id : string) (min_strength : R)
    (limit : nat) : list SemanticNode.t :=
  match nodes s !! id with
  | None => []
  | Some node =>
      let related :=
        omap (λ rel : string * R,
                if decide (rel.2 >= min_strength)%R
                then convert_to_semantic_node <$> nodes s !! rel.1
                else None)
             (relationships node) in
      let related :=
        std_sort (λ a b : SemanticNode.t,
                    (find_strength (relationships node) (SemanticNode.id a)
                     > find_strength (relationships node) (SemanticNode.id b))%R)
                 related in
      limit_results limit related
  end.

(** [std::clamp(importance, 0.0, 1.0)]: the lower bound when
    [importance < 0], the upper bound when [1 < importance], else the value
    itself.  A NaN, which [R] does not have, compares false with both
    bounds and is returned as it is. *)
Definition clamp01 (x : R) : R :=
  if decide (x < 0)%R then 0%R else if decide (1 < x)%R then 1%R else x.

Definition update_node_importance (s : Impl) (id : string) (importance : R) : Impl :=
  with_nodes s (alter (λ node, set_importance node (clamp01 importance)) id (nodes s)).

(** [create_node] files every node under the id that [generate_id]
    returned, ["sem_"] followed by a counter value that has been passed. *)
Definition ids_issued (s : Impl) : Prop :=
  ∀ k, is_Some (nodes s !! k) →
       ∃ n, (n ≤ counter s)%N ∧ k = "sem_" +:+ pretty n.

(** [add_relationship] overwrites the edge to a target that has one: a node
    has at most one edge to each target. *)
Definition single_edges (s : Impl) : Prop :=
  map_Forall (λ _ node, NoDup (relationships node).*1) (nodes s).

(** Each key is the id of its node. *)
Definition keyed_by_id (s : Impl) : Prop :=
  map_Forall (λ k node, id node = k) (nodes s).

(** The relationships of the source node after [add_relationship]: the
    first edge to [to_id] overwritten, or a new edge at the end. *)
Definition edges_after (to_id : string) (strength : R)
    (relationships : list (string * R)) : list (string * R) :=
  match overwrite_strength to_id strength relationships with
  | Some rels => rels
  | None => relationships ++ [(to_id, strength)]
  end.

(** What the public operations establish and keep. *)
Definition well_formed (s : Impl) : Prop :=
  keyed_by_id s ∧ single_edges s ∧ ids_issued s.


End SemanticMemory.

(** ** The aggregate importance in the spec's words

    The mean of the per-record importance scores, 0 for no Record. *)
Definition arithmetic_mean (scores : list R) : R :=
  match scores with
  | [] => 0%R
  | _ => (foldr Rplus 0 scores / INR (length scores))%R
  end.

(** * The toolkit state

    [solana::toolkit::State] of [state.hpp] and [state.cpp].  The four
    [std::mutex] members are not modelled, calls run one after the other;
    the two calls that lock a mutex they already hold are marked below.
    Logging is left out. *)

(** [std::variant<std::string, int64_t, double, bool>], the values of a
    transaction's [data] and of the cache.  [int64_t] is the range of [Z]
    that the type holds. *)
Inductive Value :=
  | VString (s : string)
  | VInt64 (z : Z)
  | VDouble (r : R)
  | VBool (b : bool).

(** The template argument [T] of [cache_set] and [cache_get]. *)
Inductive ValueType := TString | TInt64 | TDouble | TBool.

Global Instance ValueType_eq_dec : EqDecision ValueType.
Proof. solve_decision. Defined.

Definition type_of (v : Value) : ValueType :=
  match v with
  | VString _ => TString
  | VInt64 _ => TInt64
  | VDouble _ => TDouble
  | VBool _ => TBool
  end.

Global Instance Zgt_decision (x y : Z) : Decision (x > y)%Z := Z_gt_dec x y.

Module Connection.

Record t := mk {
  id : string;
  endpoint : string;
  last_active : time_point;
  is_active : bool;
  metadata : gmap string string
}.

End Connection.

Module Transaction.

Record t := mk {
  signature : string;
  status : string;
  timestamp : time_point;
  slot : N;
  error : option string;
  data : gmap string Value
}.

(** [it->second.status = status; it->second.timestamp = now;] *)
Definition set_status (tx : t) (new_status : string) (now : time_point) : t :=
  mk (signature tx) new_status now (slot tx) (error tx) (data tx).

End Transaction.

Module CacheEntry.

(** [CacheEntry<T>]; the alternative that the cache's variant holds is the
    type of [value]. *)
Record t := mk {
  value : Value;
  expiry : time_point;
  is_valid : bool
}.

End CacheEntry.

Module State.

Inductive Status := INITIALIZING | READY | PROCESSING | ERROR | SHUTDOWN.

Record t := mk {
  status_ : Status;
  initialized_ : bool;
  last_updated_ : time_point;
  connections_ : gmap string Connection.t;
  transactions_ : gmap string Transaction.t;
  cache_ : gmap string CacheEntry.t
}.

(** 10000 and 1000 *)
Definition MAX_TRANSACTIONS : nat := 100 * 100.
Definition MAX_CACHE_SIZE : nat := 10 * 100.
(** [std::chrono::minutes(5)] and [std::chrono::hours(24)] in clock ticks. *)
Definition CONNECTION_TIMEOUT : Z := 5 * 60 * 1000000000.
Definition TRANSACTION_TTL : Z := 24 * ticks_per_hour.

(** What a call gives that can throw. *)
Inductive outcome (A : Type) :=
  | Returns (a : A)
  | Throws_bad_variant_access.
Global Arguments Returns {A} a.
Global Arguments Throws_bad_variant_access {A}.

(** [State::State()] *)
Definition new (now : time_point) : t := mk INITIALIZING false now ∅ ∅ ∅.

Definition initialize (s : t) (now : time_point) : bool * t :=
  if initialized_ s then (true, s)
  else (true, mk READY true now ∅ ∅ ∅).

Definition is_initialized (s : t) : bool := initialized_ s.

Definition get_status (s : t) : Status := status_ s.

Definition set_status (s : t) (status : Status) (now : time_point) : t :=
  mk status (initialized_ s) now (connections_ s) (transactions_ s) (cache_ s).

Definition get_status_string (s : t) : string :=
  match status_ s with
  | INITIALIZING => "INITIALIZING"
  | READY => "READY"
  | PROCESSING => "PROCESSING"
  | ERROR => "ERROR"
  | SHUTDOWN => "SHUTDOWN"
  end.

Definition with_connections (s : t) (cs : gmap string Connection.t) : t :=
  mk (status_ s) (initialized_ s) (last_updated_ s) cs (transactions_ s) (cache_ s).

Definition with_transactions (s : t) (txs : gmap string Transaction.t) : t :=
  mk (status_ s) (initialized_ s) (last_updated_ s) (connections_ s) txs (cache_ s).

Definition with_cache (s : t) (c : gmap string CacheEntry.t) : t :=
  mk (status_ s) (initialized_ s) (last_updated_ s) (connections_ s)
     (transactions_ s) c.

(** [next_id] is the function-local [static uint64_t] of [add_connection],
    which starts at 1 and is shared by all [State] objects; the model
    passes it in and returns it next to the state.
    [std::string id = "conn_" + std::to_string(next_id++);] *)
Definition add_connection (s : t) (next_id : N) (endpoint : string)
    (now : time_point) : string * t * N :=
  let id := "conn_" +:+ pretty next_id in
  let conn := Connection.mk id endpoint now true ∅ in
  (id, with_connections s (<[id := conn]> (connections_ s)), incr_size_t next_id).

Definition remove_connection (s : t) (id : string) : bool * t :=
  match connections_ s !! id with
  | None => (false, s)
  | Some _ => (true, with_connections s (delete id (connections_ s)))
  end.

Definition update_connection_activity (s : t) (id : string) (now : time_point) : t :=
  with_connections s
    (alter (λ conn, Connection.mk (Connection.id conn) (Connection.endpoint conn)
                                  now true (Connection.metadata conn))
           id (connections_ s)).

Definition get_active_connections (s : t) : list Connection.t :=
  filter (λ conn, Connection.is_active conn = true)
         (snd <$> map_to_list (connections_ s)).

Definition validate_transaction (transaction : Transaction.t) : bool :=
  negb (String.eqb (Transaction.signature transaction) "") &&
  negb (String.eqb (Transaction.status transaction) "") &&
  (0 <? Transaction.slot transaction)%N.

Definition cleanup_old_transactions (s : t) (now : time_point) : t :=
  with_transactions s
    (filter (λ kv : string * Transaction.t,
               (now - Transaction.timestamp kv.2 >? TRANSACTION_TTL)%Z = false)
            (transactions_ s)).

(** A transaction that fails the validation is dropped.  With
    [MAX_TRANSACTIONS] stored the call goes on to [cleanup_old_transactions],
    which locks [transactions_mutex_] again while [track_transaction] holds
    it; a [std::mutex] is not recursive, the call has no result then
    ([None]). *)
Definition track_transaction (s : t) (transaction : Transaction.t) : option t :=
  if negb (validate_transaction transaction) then Some s
  else if decide (MAX_TRANSACTIONS ≤ size (transactions_ s)) then None
  else Some (with_transactions s
               (<[Transaction.signature transaction := transaction]>
                  (transactions_ s))).

Definition get_transaction (s : t) (signature : string) : option Transaction.t :=
  transactions_ s !! signature.

Definition update_transaction_status (s : t) (signature status : string)
    (now : time_point) : t :=
  with_transactions s
    (alter (λ tx, Transaction.set_status tx status now) signature (transactions_ s)).

(** The loop of [get_recent_transactions]:
    [recent.push_back(tx); if (recent.size() >= limit) break;] *)
Fixpoint collect_recent (limit : nat) (recent txs : list Transaction.t)
    : list Transaction.t :=
  match txs with
  | [] => recent
  | tx :: txs =>
      let recent := recent ++ [tx] in
      if decide (limit ≤ length recent) then recent
      else collect_recent limit recent txs
  end.

Definition get_recent_transactions (s : t) (limit : nat) : list Transaction.t :=
  std_sort (λ a b, (Transaction.timestamp a > Transaction.timestamp b)%Z)
           (collect_recent limit [] (snd <$> map_to_list (transactions_ s))).

(** [!entry.is_valid || entry.expiry < now] *)
Definition expired (now : time_point) (entry : CacheEntry.t) : bool :=
  negb (CacheEntry.is_valid entry) || (CacheEntry.expiry entry <? now)%Z.

Definition cleanup_expired_cache (s : t) (now : time_point) : t :=
  with_cache s
    (filter (λ kv : string * CacheEntry.t, expired now kv.2 = false) (cache_ s)).

Definition cleanup_stale_connections (s : t) (now : time_point) : t :=
  with_connections s
    (filter (λ kv : string * Connection.t,
               (now - Connection.last_active kv.2 >? CONNECTION_TIMEOUT)%Z = false)
            (connections_ s)).

(** [ttl] counts seconds, a tick is a nanosecond.  The clock counts its
    ticks in a signed 64-bit integer, and [now + ttl] converts [ttl] to
    nanoseconds in that type: the expiry below is the one of the code
    where [ttl * 1000000000] and the sum lie between [-2^63] and [2^63],
    and beyond that the code overflows.  With [MAX_CACHE_SIZE]
    entries the call goes on to [cleanup_expired_cache], which locks
    [cache_mutex_] again while [cache_set] holds it; the call has no result
    then ([None]). *)
Definition cache_set (s : t) (key : string) (value : Value) (ttl : Z)
    (now : time_point) : option t :=
  let expiry := (now + ttl * 1000000000)%Z in
  let entry := CacheEntry.mk value expiry true in
  if decide (MAX_CACHE_SIZE ≤ size (cache_ s)) then None
  else Some (with_cache s (<[key := entry]> (cache_ s))).

(** [std::get<CacheEntry<T>>] throws when the entry holds a value of another
    type. *)
Definition cache_get (s : t) (T : ValueType) (key : string) (now : time_point)
    : outcome (option Value) :=
  match cache_ s !! key with
  | None => Returns None
  | Some entry =>
      if decide (type_of (CacheEntry.value entry) = T) then
        if negb (CacheEntry.is_valid entry) || (now >? CacheEntry.expiry entry)%Z
        then Returns None
        else Returns (Some (CacheEntry.value entry))
      else Throws_bad_variant_access
  end.

Definition cache_remove (s : t) (key : string) : t :=
  with_cache s (delete key (cache_ s)).

Definition cache_clear (s : t) : t := with_cache s ∅.

Definition update (s other : t) (now : time_point) : bool * t :=
  (true, mk (status_ other) (initialized_ s) now (connections_ other)
            (transactions_ other) (cache_ s)).

Definition clear (s : t) : t := mk SHUTDOWN false (last_updated_ s) ∅ ∅ ∅.

Definition get_connection_count (s : t) : nat := size (connections_ s).
Definition get_transaction_count (s : t) : nat := size (transactions_ s).
Definition get_cache_size (s : t) : nat := size (cache_ s).

(** [add_connection] files every connection under the id it made from a
    value of [next_id] that has been passed. *)
Definition ids_issued (s : t) (next_id : N) : Prop :=
  ∀ k, is_Some (connections_ s !! k) →
       ∃ n, (n < next_id)%N ∧ k = "conn_" +:+ pretty n.

End State.


(** * Concrete stores and records *)

Module Examples.

(** A Record with the given id, importance and creation time. *)
Definition record (id : string) (importance : R) (created : time_point) : Memory.t :=
  Memory.mk id "note" None created created created 0 importance ∅ ∅.

(** A Record created at tick 100 and a query for the ticks from 0 to 100. *)
Definition boundary_record : Memory.t := record "m1" 0.5%R 100%Z.
Definition boundary_query : Query.t := Query.mk "" [] (Some 0%Z) (Some 100%Z).

(** [MemoryStore(5)] after five [store] calls with distinct ids and
    increasing importance, and the Record of a sixth call. *)
Definition five_records : list Memory.t :=
  [record "m1" 0.1%R 0%Z; record "m2" 0.2%R 0%Z; record "m3" 0.3%R 0%Z;
   record "m4" 0.4%R 0%Z; record "m5" 0.5%R 0%Z].

Definition store_all (s : MemoryStore.Impl) (records : list Memory.t)
    (now : time_point) : MemoryStore.Impl :=
  foldl (λ s r, (MemoryStore.store s r now).2) s records.

Definition full_store : MemoryStore.Impl :=
  store_all (MemoryStore.new 5) five_records 1%Z.

Definition sixth_record : Memory.t := record "m6" 1%R 0%Z.

(** The scenario of the spec: [MemoryStore(10)] after ten [store] calls with
    the importances 0.0 to 0.9, and the Record of an eleventh call. *)
Definition ten_records : list Memory.t :=
  [record "r0" 0%R 0%Z; record "r1" 0.1%R 0%Z; record "r2" 0.2%R 0%Z;
   record "r3" 0.3%R 0%Z; record "r4" 0.4%R 0%Z; record "r5" 0.5%R 0%Z;
   record "r6" 0.6%R 0%Z; record "r7" 0.7%R 0%Z; record "r8" 0.8%R 0%Z;
   record "r9" 0.9%R 0%Z].

Definition ten_store : MemoryStore.Impl :=
  store_all (MemoryStore.new 10) ten_records 1%Z.

Definition eleventh_record : Memory.t := record "r10" 1%R 0%Z.

(** [MemoryStore(10)] with the Records ["a"] and ["b"], stored at the same
    tick with the same importance, after one [retrieve("a")]. *)
Definition ranked_store : MemoryStore.Impl :=
  let s := store_all (MemoryStore.new 10)
                     [record "a" 0.5%R 0%Z; record "b" 0.5%R 0%Z] 0%Z in
  (MemoryStore.retrieve s "a" 0%Z).2.

Definition any_query : Query.t := Query.mk "" [] None None.

Definition ranked_a : Memory.t :=
  Memory.mk "a" "note" None 0%Z 0%Z 0%Z 1 0.5%R ∅ ∅.

(** [SemanticMemory(100)] after [create_node("animal", {})] twice; the ids
    are ["sem_1"] and ["sem_2"]. *)
Definition two_nodes : SemanticMemory.Impl :=
  let s := (SemanticMemory.create_node (SemanticMemory.new 100) "animal" ∅ 0%Z).2 in
  (SemanticMemory.create_node s "animal" ∅ 0%Z).2.

(** The same store after [add_relationship("sem_1", "sem_2", 0.7)]. *)
Definition linked_nodes : SemanticMemory.Impl :=
  (SemanticMemory.add_relationship two_nodes "sem_1" "sem_2" 0.7%R).2.

Definition relationships_of (s : SemanticMemory.Impl) (id : string)
    : option (list (string * R)) :=
  SemanticMemory.relationships <$> SemanticMemory.nodes s !! id.

(** [EpisodicMemory(100, 50)] after [create_episode({"loc": "lab"})]; the id
    is ["ep_1"]. *)
Definition lab : EpisodicMemory.Impl :=
  (EpisodicMemory.create_episode (EpisodicMemory.new 100 50)
     {["loc" := "lab"]} 0%Z).2.

(** [SemanticMemory(5)] after five [create_node] calls. *)
Definition create_nodes (s : SemanticMemory.Impl) (n : nat) : SemanticMemory.Impl :=
  Nat.iter n (λ s, (SemanticMemory.create_node s "animal" ∅ 0%Z).2) s.

Definition full_graph : SemanticMemory.Impl :=
  create_nodes (SemanticMemory.new 5) 5.

(** [EpisodicMemory(5, 5)] after five [create_episode] calls, and after five
    [add_memory] calls on its first episode. *)
Definition create_episodes (s : EpisodicMemory.Impl) (n : nat) : EpisodicMemory.Impl :=
  Nat.iter n (λ s, (EpisodicMemory.create_episode s ∅ 0%Z).2) s.

Definition full_episodes : EpisodicMemory.Impl :=
  create_episodes (EpisodicMemory.new 5 5) 5.

Definition full_episode : EpisodicMemory.Impl :=
  foldl (λ s r, (EpisodicMemory.add_memory s "ep_1" r).2)
        full_episodes five_records.

Definition memories_of (s : EpisodicMemory.Impl) (id : string)
    : option (list Memory.t) :=
  EpisodicMemory.memories <$> EpisodicMemory.episodes s !! id.

(** A transaction that [validate_transaction] accepts. *)
Definition transfer : Transaction.t :=
  Transaction.mk "5VERv8" "confirmed" 5%Z 42%N None ∅.


End Examples.

(** * Properties *)

(** ** [std_sort] returns a sorted permutation *)

Section std_sort_facts.
Context {A : Type}.

Lemma std_sort_Permutation (comp : A → A → Prop)
    `{!∀ a b, Decision (comp a b)} (l : list A) :
  std_sort comp l ≡ₚ l.
Proof. apply merge_sort_Permutation. Qed.

Lemma StronglySorted_weaken (P Q : A → A → Prop) (l : list A) :
  (∀ a b, P a b → Q a b) → StronglySorted P l → StronglySorted Q l.
Proof.
  intros HPQ. induction 1 as [|a l _ IH Hall]; constructor; [done|].
  eapply Forall_impl; [exact Hall | auto].
Qed.

Variable key : A → R.

Lemma std_sort_ascending (l : list A) :
  StronglySorted (λ a b, (key a <= key b)%R)
                 (std_sort (λ a b, (key a < key b)%R) l).
Proof.
  apply (StronglySorted_weaken (λ a b, ¬ (key b < key a)%R)).
  { intros a b. apply Rnot_lt_le. }
  apply StronglySorted_merge_sort.
  - intros a b c Hab Hbc Hca. apply Rnot_lt_le in Hab, Hbc. lra.
  - intros a b. destruct (Rlt_le_dec (key b) (key a)) as [H|H].
    + right. lra.
    + left. lra.
Qed.

Lemma std_sort_descending (l : list A) :
  StronglySorted (λ a b, (key b <= key a)%R)
                 (std_sort (λ a b, (key a > key b)%R) l).
Proof.
  apply (StronglySorted_weaken (λ a b, ¬ (key b > key a)%R)).
  { intros a b H. apply Rnot_gt_le in H. exact H. }
  apply StronglySorted_merge_sort.
  - intros a b c Hab Hbc Hca. apply Rnot_gt_le in Hab, Hbc. lra.
  - intros a b. destruct (Rlt_le_dec (key a) (key b)) as [H|H].
    + right. lra.
    + left. lra.
Qed.
End std_sort_facts.

(** In a strongly sorted list the element at the smaller index is related to
    the one at the larger index. *)
Lemma StronglySorted_lookup {A} (P : A → A → Prop) (l : list A) i j a b :
  StronglySorted P l → i < j → l !! i = Some a → l !! j = Some b → P a b.
Proof.
  intros Hs. revert i j. induction Hs as [|x l Hs IH Hall]; intros i j Hij Hi Hj.
  - by rewrite lookup_nil in Hi.
  - destruct j as [|j]; [lia|]. destruct i as [|i]; simpl in *.
    + inversion Hi; subst. rewrite Forall_forall in Hall. apply Hall.
      by eapply list_elem_of_lookup_2.
    + apply (IH i j); [lia | done | done].
Qed.

(** ** The pruning loop *)

Section erase_lowest_facts.
Context {V : Type} (score : V → R).
Implicit Types (m : gmap string V) (l : list (string * R)).

Lemma erase_all_lookup m l k :
  erase_all m l !! k = if decide (k ∈ l.*1) then None else m !! k.
Proof.
  unfold erase_all. revert m. induction l as [|[k' x] l IH]; intros m; simpl.
  - destruct (decide (k ∈ [])) as [H|H]; [by apply elem_of_nil in H | done].
  - rewrite IH. destruct (decide (k = k')) as [->|Hne].
    + rewrite lookup_delete_eq. rewrite (decide_True _ _ (list_elem_of_here _ _)).
      by case_decide.
    + rewrite lookup_delete_ne by done.
      destruct (decide (k ∈ l.*1)) as [Hin|Hnin].
      * rewrite decide_True; [done | by right].
      * rewrite decide_False; [done|]. intros Hin.
        apply elem_of_cons in Hin as [?|?]; done.
Qed.

Lemma erase_all_size m l :
  NoDup l.*1 → (∀ k, k ∈ l.*1 → is_Some (m !! k)) →
  size (erase_all m l) = size m - length l.
Proof.
  unfold erase_all. revert m. induction l as [|[k x] l IH]; intros m Hnd Hin; simpl.
  - lia.
  - apply NoDup_cons in Hnd as [Hk Hnd].
    rewrite IH; [|done|].
    + rewrite map_size_delete_Some; [lia|]. apply Hin. by left.
    + intros k' Hk'. rewrite lookup_delete_ne; [apply Hin; by right|].
      intros ->. done.
Qed.

Lemma scored_Permutation m :
  scored score m ≡ₚ (λ kv : string * V, (kv.1, score kv.2)) <$> map_to_list m.
Proof. apply std_sort_Permutation. Qed.

Lemma scored_keys m : (scored score m).*1 ≡ₚ (map_to_list m).*1.
Proof.
  rewrite scored_Permutation, <-list_fmap_compose.
  by apply Permutation_refl'.
Qed.

Lemma scored_length m : length (scored score m) = size m.
Proof.
  by rewrite scored_Permutation, length_fmap, length_map_to_list.
Qed.

Lemma scored_elem_of m k x :
  (k, x) ∈ scored score m ↔ ∃ v, m !! k = Some v ∧ x = score v.
Proof.
  rewrite scored_Permutation, list_elem_of_fmap. split.
  - intros [[k' v] [Heq Hin]]. simplify_eq/=.
    apply elem_of_map_to_list in Hin. eauto.
  - intros (v & Hv & ->). exists (k, v). split; [done|].
    by apply elem_of_map_to_list.
Qed.

Lemma scored_NoDup_keys m : NoDup (scored score m).*1.
Proof. rewrite scored_keys. apply NoDup_fst_map_to_list. Qed.

Lemma scored_sorted m :
  StronglySorted (λ a b : string * R, (a.2 <= b.2)%R) (scored score m).
Proof. apply (std_sort_ascending (λ a : string * R, a.2)). Qed.

(** The loop erases [to_remove] entries, or all of them when there are fewer. *)
Lemma erase_lowest_size n m :
  size (erase_lowest score n m) = size m - n.
Proof.
  unfold erase_lowest. rewrite erase_all_size.
  - rewrite length_take, scored_length. lia.
  - rewrite fmap_take. eapply sublist_NoDup; [|apply sublist_take].
    apply scored_NoDup_keys.
  - intros k Hk. apply list_elem_of_fmap in Hk as [[k' x] [-> Hin]].
    apply elem_of_take in Hin as (i & Hin & _).
    apply list_elem_of_lookup_2 in Hin.
    apply scored_elem_of in Hin as (v & Hv & _). eauto.
Qed.

(** What is left is part of the map. *)
Lemma erase_lowest_lookup_Some n m k v :
  erase_lowest score n m !! k = Some v → m !! k = Some v.
Proof.
  unfold erase_lowest. rewrite erase_all_lookup. by case_decide.
Qed.

(** Every erased entry scores at most as much as every entry that is kept. *)
Lemma erase_lowest_lowest n m k v k' v' :
  m !! k = Some v →
  erase_lowest score n m !! k = None →
  erase_lowest score n m !! k' = Some v' →
  (score v <= score v')%R.
Proof.
  unfold erase_lowest. rewrite !erase_all_lookup. intros Hv Hk Hk'.
  destruct (decide (k ∈ (take n (scored score m)).*1)) as [Hin|]; [|congruence].
  destruct (decide (k' ∈ (take n (scored score m)).*1)) as [|Hnin]; [done|].
  apply list_elem_of_fmap in Hin as [[k0 x] [-> Hin]]. simpl in *.
  assert (Hx : x = score v).
  { apply elem_of_take in Hin as (i & Hin & _).
    apply list_elem_of_lookup_2, scored_elem_of in Hin as (v0 & Hv0 & ->).
    congruence. }
  subst x.
  assert (Hin' : (k', score v') ∈ drop n (scored score m)).
  { assert (H : (k', score v') ∈ scored score m)
      by (apply scored_elem_of; eauto).
    rewrite <-(take_drop n (scored score m)) in H.
    apply elem_of_app in H as [H|H]; [|done].
    exfalso. apply Hnin. apply list_elem_of_fmap. by exists (k', score v'). }
  pose proof (scored_sorted m) as Hs.
  rewrite <-(take_drop n (scored score m)) in Hs.
  exact (StronglySorted_app_1_elem_of _ _ _ _ _ Hs Hin Hin').
Qed.
End erase_lowest_facts.

(** ** The pruning quota *)

Lemma prune_quota_Z (size capacity : nat) :
  9 * capacity ≤ 10 * size →
  Z.of_nat (prune_quota size capacity)
  = ((10 * Z.of_nat size - 9 * Z.of_nat capacity) / 10)%Z.
Proof.
  intros H. unfold prune_quota.
  rewrite Z.quot_div_nonneg by lia.
  rewrite Z2Nat.id; [done|]. apply Z.div_pos; lia.
Qed.

(** The quota is the real difference [size - capacity * 0.9] with its
    fraction cut off. *)
Lemma prune_quota_truncates (size capacity : nat) :
  9 * capacity ≤ 10 * size →
  (INR (prune_quota size capacity) <= INR size - INR capacity * 0.9
   < INR (prune_quota size capacity) + 1)%R.
Proof.
  intros H. pose proof (prune_quota_Z size capacity H) as Hq.
  pose proof (Z.div_mod (10 * Z.of_nat size - 9 * Z.of_nat capacity) 10) as Hdm.
  pose proof (Z.mod_pos_bound (10 * Z.of_nat size - 9 * Z.of_nat capacity) 10) as Hb.
  rewrite <-Hq in Hdm.
  set (q := prune_quota size capacity) in *.
  assert (H1 : (10 * Z.of_nat q ≤ 10 * Z.of_nat size - 9 * Z.of_nat capacity)%Z) by lia.
  assert (H2 : (10 * Z.of_nat size - 9 * Z.of_nat capacity < 10 * Z.of_nat q + 10)%Z) by lia.
  apply IZR_le in H1. apply IZR_lt in H2.
  rewrite minus_IZR, !mult_IZR, <-!INR_IZR_INZ in H1.
  rewrite minus_IZR, plus_IZR, !mult_IZR, <-!INR_IZR_INZ in H2.
  lra.
Qed.

Lemma prune_quota_small_capacity (capacity : nat) :
  capacity < 10 → prune_quota capacity capacity = 0.
Proof.
  intros H. apply Nat2Z.inj. rewrite prune_quota_Z by lia.
  apply Z.div_small. lia.
Qed.

Lemma prune_quota_frees_a_slot (size capacity : nat) :
  10 ≤ capacity → capacity ≤ size →
  size - prune_quota size capacity < capacity.
Proof.
  intros Hc Hs.
  pose proof (prune_quota_Z size capacity ltac:(lia)) as Hq.
  pose proof (Z.div_mod (10 * Z.of_nat size - 9 * Z.of_nat capacity) 10) as Hdm.
  pose proof (Z.mod_pos_bound (10 * Z.of_nat size - 9 * Z.of_nat capacity) 10) as Hb.
  rewrite <-Hq in Hdm. lia.
Qed.

(** In binary64 arithmetic the differences at the sizes used below are
    exactly those of the integer formula: 0.5 and 1.5 lose their fraction
    in the conversion to [size_t]. *)
Example quota_double_examples :
  quota_double 5 5 = 0.5%float ∧ prune_quota 5 5 = 0 ∧
  quota_double 6 5 = 1.5%float ∧ prune_quota 6 5 = 1 ∧
  quota_double 10 10 = 1%float ∧ prune_quota 10 10 = 1 ∧
  quota_double 1000 1000 = 100%float ∧ prune_quota 1000 1000 = 100.
Proof. repeat split; reflexivity. Qed.

(** For every capacity up to 1000, and for the capacities 5000 and 10000,
    the integer formula agrees with the binary64 computation on a
    collection that holds [capacity] or [capacity + 1] entries. *)
Lemma quota_agrees_up_to_1000 :
  forallb (λ c, quota_agrees c c && quota_agrees (S c) c)
          (seq 0 1001 ++ [50 * 100; 100 * 100]) = true.
Proof. vm_compute. reflexivity. Qed.

(** ** MemoryStore: every key is the id of its entry *)

Lemma new_keyed_by_id (capacity : nat) :
  MemoryStore.keyed_by_id (MemoryStore.new capacity).
Proof. intros k m. unfold MemoryStore.new. simpl. by rewrite lookup_empty. Qed.

Lemma prune_keyed_by_id (s : MemoryStore.Impl) (now : time_point) :
  MemoryStore.keyed_by_id s → MemoryStore.keyed_by_id (MemoryStore.prune s now).
Proof.
  intros Hk k m. unfold MemoryStore.prune. case_decide; [apply Hk|]. simpl.
  intros Hl%erase_lowest_lookup_Some. by apply Hk.
Qed.

Lemma store_keyed_by_id (s : MemoryStore.Impl) (r : Memory.t) (now : time_point) :
  MemoryStore.keyed_by_id s →
  MemoryStore.keyed_by_id (MemoryStore.store s r now).2.
Proof.
  intros Hk k m. unfold MemoryStore.store. simpl.
  rewrite lookup_insert. case_decide as Heq.
  - by intros [= <-].
  - case_decide; [by apply prune_keyed_by_id | apply Hk].
Qed.

Lemma retrieve_keyed_by_id (s : MemoryStore.Impl) (id : string) (now : time_point) :
  MemoryStore.keyed_by_id s →
  MemoryStore.keyed_by_id (MemoryStore.retrieve s id now).2.
Proof.
  intros Hk k m. unfold MemoryStore.retrieve.
  destruct (MemoryStore.memories s !! id) as [m0|] eqn:Hm0; simpl; [|apply Hk].
  rewrite lookup_insert. case_decide as Heq; [|apply Hk].
  intros [= <-]. subst k. simpl. by apply Hk.
Qed.

Lemma store_all_keyed_by_id (s : MemoryStore.Impl) (records : list Memory.t)
    (now : time_point) :
  MemoryStore.keyed_by_id s →
  MemoryStore.keyed_by_id (Examples.store_all s records now).
Proof.
  unfold Examples.store_all. revert s.
  induction records as [|r records IH]; intros s Hk; simpl; [done|].
  by apply IH, store_keyed_by_id.
Qed.

(** ** The capacity of the collections *)

Lemma prune_size (s : MemoryStore.Impl) (now : time_point) :
  MemoryStore.capacity s ≤ MemoryStore.size s →
  MemoryStore.size (MemoryStore.prune s now)
  = MemoryStore.size s
    - prune_quota (MemoryStore.size s) (MemoryStore.capacity s).
Proof.
  unfold MemoryStore.size, MemoryStore.prune. intros H.
  rewrite decide_False by lia. simpl. apply erase_lowest_size.
Qed.

Lemma prune_capacity (s : MemoryStore.Impl) (now : time_point) :
  MemoryStore.capacity (MemoryStore.prune s now) = MemoryStore.capacity s.
Proof. unfold MemoryStore.prune. by case_decide. Qed.

Lemma store_capacity (s : MemoryStore.Impl) (r : Memory.t) (now : time_point) :
  MemoryStore.capacity (MemoryStore.store s r now).2 = MemoryStore.capacity s.
Proof.
  unfold MemoryStore.store. simpl. case_decide; [apply prune_capacity | done].
Qed.

(** From capacity 10 on, pruning frees at least one slot, and [store] keeps
    the store within its capacity. *)
Lemma store_within_capacity (s : MemoryStore.Impl) (r : Memory.t) (now : time_point) :
  10 ≤ MemoryStore.capacity s →
  MemoryStore.size (MemoryStore.store s r now).2 ≤ MemoryStore.capacity s.
Proof.
  intros Hc. unfold MemoryStore.store, MemoryStore.size. simpl.
  pose proof (map_size_insert (Memory.id r) (Memory.set_stamps r now now)) as Hi.
  case_decide as Hfull.
  - rewrite Hi.
    pose proof (prune_size s now Hfull) as Hp.
    pose proof (prune_quota_frees_a_slot _ _ Hc Hfull).
    unfold MemoryStore.size in *.
    destruct (_ !! _); simpl; lia.
  - rewrite Hi. destruct (_ !! _); simpl; lia.
Qed.

Lemma prune_nodes_size (s : SemanticMemory.Impl) (now : time_point) :
  size (SemanticMemory.nodes (SemanticMemory.prune_nodes s now))
  = size (SemanticMemory.nodes s)
    - prune_quota (size (SemanticMemory.nodes s)) (SemanticMemory.capacity s).
Proof. apply erase_lowest_size. Qed.

Lemma prune_episodes_size (s : EpisodicMemory.Impl) (now : time_point) :
  size (EpisodicMemory.episodes (EpisodicMemory.prune_episodes s now))
  = size (EpisodicMemory.episodes s)
    - prune_quota (size (EpisodicMemory.episodes s)) (EpisodicMemory.capacity s).
Proof. apply erase_lowest_size. Qed.

(** From capacity 10 on [create_node] and [create_episode] stay within the
    capacity. *)
Lemma create_node_within_capacity (s : SemanticMemory.Impl) (concept : string)
    (attributes : gmap string string) (now : time_point) :
  10 ≤ SemanticMemory.capacity s →
  size (SemanticMemory.nodes (SemanticMemory.create_node s concept attributes now).2)
  ≤ SemanticMemory.capacity s.
Proof.
  intros Hc. unfold SemanticMemory.create_node.
  pose proof (prune_nodes_size s now) as Hp.
  case_decide as Hfull; simpl; rewrite map_size_insert.
  - pose proof (prune_quota_frees_a_slot _ _ Hc Hfull).
    destruct (_ !! _); simpl in *; lia.
  - destruct (_ !! _); simpl; lia.
Qed.

Lemma create_episode_within_capacity (s : EpisodicMemory.Impl)
    (context : gmap string string) (now : time_point) :
  10 ≤ EpisodicMemory.capacity s →
  size (EpisodicMemory.episodes (EpisodicMemory.create_episode s context now).2)
  ≤ EpisodicMemory.capacity s.
Proof.
  intros Hc. unfold EpisodicMemory.create_episode.
  pose proof (prune_episodes_size s now) as Hp.
  case_decide as Hfull; simpl; rewrite map_size_insert.
  - pose proof (prune_quota_frees_a_slot _ _ Hc Hfull).
    destruct (_ !! _); simpl in *; lia.
  - destruct (_ !! _); simpl; lia.
Qed.

Lemma imap_fst_seq {A B} (f : A → B) (l : list A) :
  (imap (λ i x, (i, f x)) l).*1 = seq 0 (length l).
Proof.
  rewrite fmap_imap, <-(list_fmap_id (seq 0 (length l))), <-imap_seq_0.
  by apply imap_ext.
Qed.

(** Dropping the entries at [length ks] distinct positions. *)
Lemma length_filter_positions {A} (l : list A) (ks : list nat) :
  NoDup ks → (∀ k, k ∈ ks → k < length l) →
  length (filter (λ im : nat * A, im.1 ∉ (list_to_set ks : gset nat))
                 (imap pair l))
  = length l - length ks.
Proof.
  intros Hnd Hlt.
  pose proof (filter_app_complement
                (λ im : nat * A, im.1 ∉ (list_to_set ks : gset nat))
                (imap pair l)) as Hperm.
  apply Permutation_length in Hperm.
  rewrite length_app, length_imap in Hperm.
  assert (Hks : length (filter (λ im : nat * A,
                                  ¬ (im.1 ∉ (list_to_set ks : gset nat)))
                               (imap pair l)) = length ks).
  { rewrite <-(length_fmap fst). apply Permutation_length, NoDup_Permutation.
    - eapply sublist_NoDup; [|apply fmap_sublist, sublist_filter].
      rewrite (imap_fst_seq (λ x, x) l : (imap pair l).*1 = _). apply NoDup_seq.
    - done.
    - intros k. rewrite list_elem_of_fmap. split.
      + intros ([k' x] & -> & [Hin _]%list_elem_of_filter). simpl in *.
        apply dec_stable in Hin. by apply elem_of_list_to_set in Hin.
      + intros Hin. destruct (lookup_lt_is_Some_2 l k (Hlt k Hin)) as [x Hx].
        exists (k, x). split; [done|]. apply list_elem_of_filter. split.
        * simpl. intros Hn. apply Hn. by apply elem_of_list_to_set.
        * apply (elem_of_lookup_imap_2 pair l x k Hx). }
  lia.
Qed.

Lemma prune_memories_length (s : EpisodicMemory.Impl)
    (episode : EpisodicMemory.Episode) :
  length (EpisodicMemory.memories (EpisodicMemory.prune_memories s episode))
  = length (EpisodicMemory.memories episode)
    - prune_quota (length (EpisodicMemory.memories episode))
                  (EpisodicMemory.max_memories_per_episode s).
Proof.
  unfold EpisodicMemory.prune_memories. simpl. rewrite length_fmap.
  set (ms := EpisodicMemory.memories episode).
  set (q := prune_quota (length ms) (EpisodicMemory.max_memories_per_episode s)).
  set (sorted := std_sort _ _).
  assert (Hperm : sorted.*1 ≡ₚ seq 0 (length ms)).
  { unfold sorted. rewrite std_sort_Permutation. by rewrite imap_fst_seq. }
  rewrite length_filter_positions.
  - rewrite length_fmap, length_take.
    apply Permutation_length in Hperm.
    rewrite length_fmap, length_seq in Hperm. lia.
  - rewrite fmap_take. eapply sublist_NoDup; [|apply sublist_take].
    rewrite Hperm. apply NoDup_seq.
  - intros k Hk. rewrite fmap_take in Hk.
    eapply elem_of_sublist in Hk; [|apply sublist_take].
    rewrite Hperm in Hk. apply elem_of_seq in Hk. lia.
Qed.

(** From 10 Records per episode on, [add_memory] keeps the memory list of
    the episode within [max_memories_per_episode]. *)
Lemma add_memory_within_capacity (s : EpisodicMemory.Impl) (episode_id : string)
    (memory : Memory.t) (episode : EpisodicMemory.Episode) :
  10 ≤ EpisodicMemory.max_memories_per_episode s →
  EpisodicMemory.episodes (EpisodicMemory.add_memory s episode_id memory).2
    !! episode_id = Some episode →
  length (EpisodicMemory.memories episode)
  ≤ EpisodicMemory.max_memories_per_episode s.
Proof.
  intros Hc. unfold EpisodicMemory.add_memory.
  destruct (EpisodicMemory.episodes s !! episode_id) as [e|] eqn:He; simpl.
  - rewrite lookup_insert_eq. intros [= <-]. simpl. rewrite length_app. simpl.
    case_decide as Hfull.
    + rewrite prune_memories_length.
      pose proof (prune_quota_frees_a_slot _ _ Hc Hfull). lia.
    + lia.
  - rewrite He. done.
Qed.

(** Below capacity 10 the quota of a full store is 0: [prune] removes
    nothing, and a [store] call with a new id leaves one Record too many. *)
Lemma store_overflows_below_10 (s : MemoryStore.Impl) (r : Memory.t)
    (now : time_point) :
  MemoryStore.capacity s < 10 →
  MemoryStore.size s = MemoryStore.capacity s →
  MemoryStore.memories s !! Memory.id r = None →
  MemoryStore.size (MemoryStore.store s r now).2 = S (MemoryStore.capacity s).
Proof.
  unfold MemoryStore.size, MemoryStore.store, MemoryStore.prune.
  intros Hc Hfull Hnew. simpl.
  rewrite decide_True by lia. rewrite decide_False by lia. simpl.
  rewrite Hfull, prune_quota_small_capacity by done.
  unfold erase_lowest, erase_all. simpl.
  rewrite map_size_insert_None by done. lia.
Qed.

(** C1 (failing input): with capacity 5 every collection exceeds its
    capacity at the sixth insertion.  [MemoryStore(5)] holds five Records
    after five [store] calls and six after the sixth; the node map of
    [SemanticMemory(5)], the episode map of [EpisodicMemory(5, 5)] and the
    memory list of one of its episodes do the same under [create_node],
    [create_episode] and [add_memory]. *)
Theorem collections_exceed_capacity_5 :
  (MemoryStore.capacity Examples.full_store = 5 ∧
   MemoryStore.size Examples.full_store = 5 ∧
   MemoryStore.size
     (MemoryStore.store Examples.full_store Examples.sixth_record 2%Z).2 = 6) ∧
  (SemanticMemory.capacity Examples.full_graph = 5 ∧
   size (SemanticMemory.nodes Examples.full_graph) = 5 ∧
   size (SemanticMemory.nodes
           (SemanticMemory.create_node Examples.full_graph "animal" ∅ 1%Z).2)
   = 6) ∧
  (EpisodicMemory.capacity Examples.full_episodes = 5 ∧
   size (EpisodicMemory.episodes Examples.full_episodes) = 5 ∧
   size (EpisodicMemory.episodes
           (EpisodicMemory.create_episode Examples.full_episodes ∅ 1%Z).2)
   = 6) ∧
  (EpisodicMemory.max_memories_per_episode Examples.full_episode = 5 ∧
   length <$> Examples.memories_of Examples.full_episode "ep_1" = Some 5 ∧
   length <$> Examples.memories_of
                (EpisodicMemory.add_memory Examples.full_episode "ep_1"
                                           Examples.sixth_record).2 "ep_1"
   = Some 6).
Proof. repeat split; reflexivity. Qed.

(** ** Pruning removes the lowest scores *)

Lemma prune_keeps_entries (s : MemoryStore.Impl) (now : time_point) k m :
  MemoryStore.memories (MemoryStore.prune s now) !! k = Some m →
  MemoryStore.memories s !! k = Some m.
Proof.
  unfold MemoryStore.prune. case_decide; [done|]. simpl.
  apply erase_lowest_lookup_Some.
Qed.

Lemma prune_removes_lowest (s : MemoryStore.Impl) (now : time_point) k m k' m' :
  MemoryStore.memories s !! k = Some m →
  MemoryStore.memories (MemoryStore.prune s now) !! k = None →
  MemoryStore.memories (MemoryStore.prune s now) !! k' = Some m' →
  (MemoryStore.calculate_retention_score m now
   <= MemoryStore.calculate_retention_score m' now)%R.
Proof.
  unfold MemoryStore.prune. case_decide; [congruence|]. simpl.
  apply (erase_lowest_lowest
           (λ memory, MemoryStore.calculate_retention_score memory now)).
Qed.

Lemma prune_nodes_removes_lowest (s : SemanticMemory.Impl) (now : time_point)
    k n k' n' :
  SemanticMemory.nodes s !! k = Some n →
  SemanticMemory.nodes (SemanticMemory.prune_nodes s now) !! k = None →
  SemanticMemory.nodes (SemanticMemory.prune_nodes s now) !! k' = Some n' →
  (SemanticMemory.calculate_retention_score n now
   <= SemanticMemory.calculate_retention_score n' now)%R.
Proof.
  apply (erase_lowest_lowest
           (λ node, SemanticMemory.calculate_retention_score node now)).
Qed.

(** C2 (failing input): [MemoryStore(5)] with five Records has reached its
    capacity and [count - floor(capacity * 0.9)] is 1, but [prune] removes
    no entry; [prune_nodes] on [SemanticMemory(5)] with five nodes does the
    same. *)
Theorem prune_at_capacity_5_removes_nothing :
  (MemoryStore.capacity Examples.full_store = 5 ∧
   MemoryStore.size Examples.full_store = 5 ∧
   MemoryStore.size Examples.full_store
   - MemoryStore.capacity Examples.full_store * 9 / 10 = 1 ∧
   MemoryStore.prune Examples.full_store 2%Z = Examples.full_store) ∧
  (SemanticMemory.capacity Examples.full_graph = 5 ∧
   size (SemanticMemory.nodes Examples.full_graph) = 5 ∧
   SemanticMemory.prune_nodes Examples.full_graph 1%Z = Examples.full_graph).
Proof. repeat split; reflexivity. Qed.

(** ** MemoryStore: the time range of a query *)

Lemma content_predicate (memory : Memory.t) (query : Query.t) :
  negb (Query.content query =? "")%string &&
  negb (contains (Memory.content memory) (Query.content query)) = false
  ↔ Query.content query = "" ∨
    contains (Memory.content memory) (Query.content query) = true.
Proof.
  destruct (String.eqb_spec (Query.content query) "") as [->|Hne]; simpl.
  - split; auto.
  - rewrite negb_false_iff. split; [auto|]. by intros [?|?].
Qed.

Lemma tag_predicate (memory : Memory.t) (query : Query.t) :
  negb (bool_decide (Query.tags query = [])) &&
  negb (existsb (λ tag, bool_decide (tag ∈ Memory.tags memory))
                (Query.tags query)) = false
  ↔ Query.tags query = [] ∨
    ∃ tag, tag ∈ Query.tags query ∧ tag ∈ Memory.tags memory.
Proof.
  case_bool_decide as Hnil; simpl.
  - split; auto.
  - rewrite negb_false_iff, existsb_exists. split.
    + intros (tag & Hin & Htag). right. exists tag.
      apply list_elem_of_In in Hin. by apply bool_decide_eq_true in Htag.
    + intros [?|(tag & Hin & Htag)]; [done|]. exists tag.
      split; [by apply list_elem_of_In | by apply bool_decide_eq_true].
Qed.

(** C3 (as the code has it): [matches_query] accepts a Record exactly when
    the content and tag predicates hold and its creation timestamp lies in
    the closed interval from [start_time] to [end_time]; a bound that is
    not set does not constrain. *)
Theorem matches_query_time_range_closed (memory : Memory.t) (query : Query.t) :
  MemoryStore.matches_query memory query = true ↔
    (Query.content query = "" ∨
     contains (Memory.content memory) (Query.content query) = true) ∧
    (Query.tags query = [] ∨
     ∃ tag, tag ∈ Query.tags query ∧ tag ∈ Memory.tags memory) ∧
    (∀ start, Query.start_time query = Some start →
              (start ≤ Memory.timestamp memory)%Z) ∧
    (∀ end_, Query.end_time query = Some end_ →
             (Memory.timestamp memory ≤ end_)%Z).
Proof.
  rewrite <-content_predicate, <-tag_predicate.
  unfold MemoryStore.matches_query.
  destruct (negb _ && negb (contains _ _)).
  { split; [done|]. by intros (? & _). }
  destruct (negb _ && negb (existsb _ _)).
  { split; [done|]. by intros (_ & ? & _). }
  destruct (Query.start_time query) as [st|], (Query.end_time query) as [en|];
    repeat match goal with
           | |- context [(?a >? ?b)%Z] => rewrite (Z.gtb_ltb a b)
           | |- context [(?a <? ?b)%Z] => destruct (Z.ltb_spec a b)
           end;
    (split;
     [ intros ?; try done; repeat split; try done; intros ? [= <-]; lia
     | intros (_ & _ & H1 & H2); try done;
       try (specialize (H1 _ eq_refl)); try (specialize (H2 _ eq_refl)); lia ]).
Qed.

(** C3 (as the spec has it) fails: a Record created exactly at [end_time]
    matches, so the range is not half-open. *)
Lemma matches_query_end_time_inclusive :
  Query.end_time Examples.boundary_query = Some 100%Z ∧
  Memory.timestamp Examples.boundary_record = 100%Z ∧
  MemoryStore.matches_query Examples.boundary_record Examples.boundary_query = true.
Proof. repeat split; reflexivity. Qed.

(** ** SemanticMemory: relationships *)

Example two_nodes_ids :
  dom (SemanticMemory.nodes Examples.two_nodes) = {["sem_1"; "sem_2"]}.
Proof. reflexivity. Qed.

Section add_relationship_facts.
Variables (to_id : string) (strength : R).
Implicit Types rels : list (string * R).

Lemma overwrite_strength_None rels :
  SemanticMemory.overwrite_strength to_id strength rels = None ↔
  ∀ rel, rel ∈ rels → rel.1 ≠ to_id.
Proof.
  induction rels as [|rel rels IH]; simpl.
  - split; [|done]. intros _ rel Hin. by apply elem_of_nil in Hin.
  - case_decide as Heq.
    + split; [done|]. intros H. destruct (H rel); [by left | done].
    + rewrite fmap_None, IH. split.
      * intros H rel' [->|?]%elem_of_cons; auto.
      * intros H rel' ?. apply H. by right.
Qed.

Lemma overwrite_strength_Some rels rels' :
  SemanticMemory.overwrite_strength to_id strength rels = Some rels' →
  length rels' = length rels ∧
  (∃ i, list_find (λ rel, rel.1 = to_id) rels' = Some (i, (to_id, strength)) ∧
        is_Some (list_find (λ rel, rel.1 = to_id) rels) ∧
        rels' = <[i := (to_id, strength)]> rels) ∧
  filter (λ rel, rel.1 ≠ to_id) rels' = filter (λ rel, rel.1 ≠ to_id) rels.
Proof.
  revert rels'. induction rels as [|rel rels IH]; intros rels'; simpl; [done|].
  case_decide as Heq.
  - intros [= <-]. split; [done|]. split.
    + exists 0. simpl. rewrite decide_True by done. rewrite Heq. eauto.
    + rewrite !filter_cons. simpl. by rewrite !decide_False by tauto.
  - destruct (SemanticMemory.overwrite_strength to_id strength rels)
      as [rest|] eqn:Hrest; [|done].
    intros [= <-]. destruct (IH rest eq_refl) as (Hlen & (i & Hf & Hold & Hins) & Hfilter).
    split; [simpl; lia|]. split.
    + exists (S i). simpl. rewrite decide_False by done.
      rewrite Hf. simpl. split; [done|]. split; [|by rewrite Hins].
      destruct Hold as [x ->]. simpl. eauto.
    + rewrite !filter_cons. by rewrite Hfilter.
Qed.

(** [overwrite_strength] writes at the position that [std::find_if] finds,
    the first edge to [to_id], and nowhere else. *)
Lemma overwrite_strength_first rels :
  SemanticMemory.overwrite_strength to_id strength rels
  = match list_find (λ rel, rel.1 = to_id) rels with
    | Some (i, _) => Some (<[i := (to_id, strength)]> rels)
    | None => None
    end.
Proof.
  induction rels as [|rel rels IH]; [done|].
  cbn [SemanticMemory.overwrite_strength list_find]. case_decide as Heq.
  - cbn. by rewrite Heq.
  - rewrite IH.
    destruct (list_find (λ rel, rel.1 = to_id) rels) as [[i x]|]; done.
Qed.
End add_relationship_facts.

(** C4 (as the code has it): [add_relationship] takes every strength as it
    is.  When both ids are known the call returns [true] and changes only
    the edges of the node [from_id]: where the node has an edge to [to_id],
    the first such edge is overwritten in its place with [strength] and the
    list is otherwise as it was; where it has none, the edge
    [(to_id, strength)] is appended at the end.  So the first edge to
    [to_id] then carries exactly [strength], the edges to other nodes are
    as before, and there is one edge more only if there was none to
    [to_id].  When an id is unknown the call returns [false] and the store
    is unchanged. *)
Theorem add_relationship_takes_any_strength (s : SemanticMemory.Impl)
    (from_id to_id : string) (strength : R) :
  (∀ from, SemanticMemory.nodes s !! from_id = Some from →
           is_Some (SemanticMemory.nodes s !! to_id) →
     ∃ rels i,
       SemanticMemory.add_relationship s from_id to_id strength
       = (true, SemanticMemory.with_nodes s
                  (<[from_id := SemanticMemory.set_relationships from rels]>
                     (SemanticMemory.nodes s))) ∧
       rels = match list_find (λ rel, rel.1 = to_id)
                              (SemanticMemory.relationships from) with
              | Some (first, _) =>
                  <[first := (to_id, strength)]> (SemanticMemory.relationships from)
              | None => SemanticMemory.relationships from ++ [(to_id, strength)]
              end ∧
       list_find (λ rel, rel.1 = to_id) rels = Some (i, (to_id, strength)) ∧
       filter (λ rel, rel.1 ≠ to_id) rels
       = filter (λ rel, rel.1 ≠ to_id) (SemanticMemory.relationships from) ∧
       length rels
       = match list_find (λ rel, rel.1 = to_id)
                         (SemanticMemory.relationships from) with
         | Some _ => length (SemanticMemory.relationships from)
         | None => S (length (SemanticMemory.relationships from))
         end) ∧
  (SemanticMemory.nodes s !! from_id = None ∨
   SemanticMemory.nodes s !! to_id = None →
   SemanticMemory.add_relationship s from_id to_id strength = (false, s)).
Proof.
  unfold SemanticMemory.add_relationship. split.
  - intros from Hfrom [to Hto]. rewrite Hfrom, Hto.
    destruct (SemanticMemory.overwrite_strength to_id strength
                (SemanticMemory.relationships from)) as [rels|] eqn:Hov.
    + destruct (overwrite_strength_Some _ _ _ _ Hov)
        as (Hlen & (i & Hf & [x Hold] & _) & Hfilter).
      exists rels, i. split; [done|]. split.
      { rewrite overwrite_strength_first in Hov.
        destruct (list_find (λ rel, rel.1 = to_id)
                    (SemanticMemory.relationships from)) as [[first y]|];
          congruence. }
      rewrite Hold. done.
    + pose proof (proj1 (overwrite_strength_None _ _ _) Hov) as Hnone.
      exists (SemanticMemory.relationships from ++ [(to_id, strength)]),
             (length (SemanticMemory.relationships from)).
      assert (Hfind : list_find (λ rel, rel.1 = to_id)
                        (SemanticMemory.relationships from) = None).
      { apply list_find_None, Forall_forall. intros rel Hin. by apply Hnone. }
      split; [done|]. split; [by rewrite Hfind|]. split; [|split].
      * rewrite list_find_app_r by done. simpl. rewrite decide_True by done.
        done.
      * rewrite filter_app, filter_cons. simpl.
        rewrite decide_False by tauto. by rewrite filter_nil, app_nil_r.
      * rewrite Hfind, length_app. simpl. lia.
  - intros [H|H].
    + by rewrite H.
    + rewrite H. by destruct (_ !! from_id).
Qed.

(** C4 (as the spec has it) fails: [add_relationship] with the strength
    [-1] returns [true]; it appends the edge on a node without edges and
    overwrites the strength 0.7 of an existing edge. *)
Lemma add_relationship_accepts_negative_strength :
  (SemanticMemory.add_relationship Examples.two_nodes "sem_1" "sem_2" (-1)%R).1
  = true ∧
  Examples.relationships_of
    (SemanticMemory.add_relationship Examples.two_nodes "sem_1" "sem_2" (-1)%R).2
    "sem_1" = Some [("sem_2", (-1)%R)] ∧
  Examples.relationships_of Examples.linked_nodes "sem_1"
  = Some [("sem_2", 0.7%R)] ∧
  Examples.relationships_of
    (SemanticMemory.add_relationship Examples.linked_nodes "sem_1" "sem_2" (-1)%R).2
    "sem_1" = Some [("sem_2", (-1)%R)].
Proof. repeat split; reflexivity. Qed.

(** ** MemoryStore: search *)

Lemma limit_results_sublist {A} (limit : nat) (l : list A) :
  limit_results limit l `sublist_of` l.
Proof. unfold limit_results. case_decide; [apply sublist_take | done]. Qed.

Lemma limit_results_lookup {A} (limit : nat) (l : list A) i a :
  limit_results limit l !! i = Some a → l !! i = Some a.
Proof.
  unfold limit_results. case_decide; [|done].
  intros Hi. by apply lookup_take_Some in Hi as [? _].
Qed.

Lemma limit_results_length {A} (limit : nat) (l : list A) :
  0 < limit → length (limit_results limit l) ≤ limit.
Proof.
  unfold limit_results. case_decide; [rewrite length_take; lia | lia].
Qed.

Lemma update_access_metrics_lookup (now : time_point)
    (m : gmap string Memory.t) (l : list Memory.t) (k : string) :
  NoDup (Memory.id <$> l) →
  MemoryStore.update_access_metrics now m l !! k
  = if decide (k ∈ Memory.id <$> l) then Memory.touch now <$> m !! k else m !! k.
Proof.
  unfold MemoryStore.update_access_metrics. revert m.
  induction l as [|a l IH]; intros m Hnd; simpl.
  - destruct (decide (k ∈ [])) as [H|H]; [by apply elem_of_nil in H | done].
  - apply NoDup_cons in Hnd as [Ha Hnd]. rewrite IH by done.
    destruct (decide (k = Memory.id a)) as [->|Hne].
    + rewrite (decide_False _ _ Ha), (decide_True _ _ (list_elem_of_here _ _)).
      apply lookup_alter_eq.
    + rewrite lookup_alter_ne by done.
      destruct (decide (k ∈ Memory.id <$> l)) as [Hin|Hnin].
      * rewrite decide_True; [done | by right].
      * rewrite decide_False; [done|]. intros Hin.
        apply elem_of_cons in Hin as [?|?]; done.
Qed.

Section search_facts.
Variables (s : MemoryStore.Impl) (query : Query.t) (limit : nat) (now : time_point).

Lemma search_results_stored (r : Memory.t) :
  r ∈ (MemoryStore.search s query limit now).1 →
  ∃ k, MemoryStore.memories s !! k = Some r ∧
       MemoryStore.matches_query r query = true.
Proof.
  unfold MemoryStore.search. simpl. intros Hin.
  eapply elem_of_sublist in Hin; [|apply limit_results_sublist].
  rewrite std_sort_Permutation in Hin.
  apply list_elem_of_filter in Hin as [Hm Hin].
  apply list_elem_of_fmap in Hin as [[k r'] [-> Hin]].
  apply elem_of_map_to_list in Hin. eauto.
Qed.

Lemma search_results_NoDup_ids :
  MemoryStore.keyed_by_id s →
  NoDup (Memory.id <$> (MemoryStore.search s query limit now).1).
Proof.
  intros Hk. unfold MemoryStore.search. simpl.
  eapply sublist_NoDup; [|apply fmap_sublist, limit_results_sublist].
  rewrite std_sort_Permutation.
  eapply sublist_NoDup; [|apply fmap_sublist, sublist_filter].
  rewrite <-list_fmap_compose.
  replace (Memory.id ∘ snd <$> map_to_list (MemoryStore.memories s))
    with ((map_to_list (MemoryStore.memories s)).*1).
  { apply NoDup_fst_map_to_list. }
  apply list_fmap_ext. intros i [k m] Hin%list_elem_of_lookup_2.
  apply elem_of_map_to_list in Hin. simpl. symmetry. by apply Hk.
Qed.

End search_facts.

(** ** MemoryStore: the relevance formula

    In exact arithmetic the formula of [calculate_relevance] is strictly
    increasing in the access count.  The order in which [search] returns
    its results is that of the binary64 values of the formula, which can be
    equal where the real values differ (the access counts [2^53] and
    [2^53 + 1] are the same [double]); no statement about that order is
    made here. *)

Lemma log1p_count_increasing (x y : N) :
  (x < y)%N → (log1p (IZR (Z.of_N x)) < log1p (IZR (Z.of_N y)))%R.
Proof.
  intros Hxy. unfold log1p.
  assert (0 <= IZR (Z.of_N x))%R by (apply IZR_le; lia).
  assert (IZR (Z.of_N x) < IZR (Z.of_N y))%R by (apply IZR_lt; lia).
  apply ln_increasing; lra.
Qed.

Lemma calculate_relevance_access_count (now : time_point) (a b : Memory.t) :
  Memory.timestamp a = Memory.timestamp b →
  Memory.importance a = Memory.importance b →
  (Memory.access_count b < Memory.access_count a)%N →
  (MemoryStore.calculate_relevance now b
   < MemoryStore.calculate_relevance now a)%R.
Proof.
  intros Ht Hi Hc. unfold MemoryStore.calculate_relevance.
  rewrite Ht, Hi. pose proof (log1p_count_increasing _ _ Hc). lra.
Qed.

(** ** EpisodicMemory: aggregate importance *)

Lemma total_importance_sum (ms : list Memory.t) (total : R) :
  foldl (λ total memory,
           (total + EpisodicMemory.calculate_memory_importance memory)%R)
        total ms
  = (total + foldr Rplus 0 (EpisodicMemory.calculate_memory_importance <$> ms))%R.
Proof.
  revert total. induction ms as [|m ms IH]; intros total; simpl.
  - ring.
  - rewrite IH. apply Rplus_assoc.
Qed.

Lemma update_episode_importance_mean (episode : EpisodicMemory.Episode) :
  EpisodicMemory.importance (EpisodicMemory.update_episode_importance episode)
  = arithmetic_mean
      (EpisodicMemory.calculate_memory_importance
         <$> EpisodicMemory.memories episode).
Proof.
  unfold EpisodicMemory.update_episode_importance. simpl.
  rewrite total_importance_sum.
  destruct (decide (EpisodicMemory.memories episode = [])) as [->|Hne].
  - simpl. lra.
  - rewrite Rplus_0_l, <-(length_fmap EpisodicMemory.calculate_memory_importance).
    destruct (EpisodicMemory.memories episode); done.
Qed.

Lemma add_memory_true (s : EpisodicMemory.Impl) (episode_id : string)
    (memory : Memory.t) :
  (EpisodicMemory.add_memory s episode_id memory).1 = true ↔
  is_Some (EpisodicMemory.episodes s !! episode_id).
Proof.
  unfold EpisodicMemory.add_memory.
  destruct (EpisodicMemory.episodes s !! episode_id); simpl.
  - split; eauto.
  - split; [done|]. by intros [? ?].
Qed.

(** C6: after a successful [add_memory] the episode ends with the new Record
    and its aggregate importance is the arithmetic mean of
    [importance * (1 + ln (1 + access_count))] over the Records it now
    holds; for an episode without Records the recomputation gives 0, which
    is also the importance of a new episode. *)
Theorem add_memory_importance_is_mean (s : EpisodicMemory.Impl)
    (episode_id : string) (memory : Memory.t) :
  (EpisodicMemory.add_memory s episode_id memory).1 = true →
  (∃ episode,
     EpisodicMemory.episodes (EpisodicMemory.add_memory s episode_id memory).2
       !! episode_id = Some episode ∧
     last (EpisodicMemory.memories episode) = Some memory ∧
     EpisodicMemory.importance episode
     = arithmetic_mean
         ((λ m, (Memory.importance m *
                 (1 + ln (1 + IZR (Z.of_N (Memory.access_count m)))))%R)
            <$> EpisodicMemory.memories episode)) ∧
  (∀ episode,
     EpisodicMemory.memories episode = [] →
     EpisodicMemory.importance
       (EpisodicMemory.update_episode_importance episode) = 0%R) ∧
  (∀ id now,
     EpisodicMemory.memories (EpisodicMemory.new_episode id now) = [] ∧
     EpisodicMemory.importance (EpisodicMemory.new_episode id now) = 0%R).
Proof.
  intros Hok. split; [|split; [|done]].
  - apply add_memory_true in Hok as [episode Hep].
    unfold EpisodicMemory.add_memory. rewrite Hep. simpl.
    rewrite lookup_insert_eq. eexists. split; [reflexivity|].
    split.
    + simpl. apply last_snoc.
    + exact (update_episode_importance_mean _).
  - intros episode Hnil. rewrite update_episode_importance_mean, Hnil. done.
Qed.

(** C6 at the episode ["ep_1"] of the store [lab]. *)
Lemma add_memory_importance_is_mean_witness :
  (EpisodicMemory.add_memory Examples.lab "ep_1" Examples.sixth_record).1 = true ∧
  ∃ episode,
    EpisodicMemory.episodes
      (EpisodicMemory.add_memory Examples.lab "ep_1" Examples.sixth_record).2
      !! "ep_1" = Some episode ∧
    last (EpisodicMemory.memories episode) = Some Examples.sixth_record ∧
    EpisodicMemory.importance episode
    = arithmetic_mean
        ((λ m, (Memory.importance m *
                (1 + ln (1 + IZR (Z.of_N (Memory.access_count m)))))%R)
           <$> EpisodicMemory.memories episode).
Proof.
  split; [reflexivity|].
  exact (proj1 (add_memory_importance_is_mean Examples.lab "ep_1"
                  Examples.sixth_record eq_refl)).
Defined.

(** ** MemoryStore: store and retrieve *)

Lemma store_lookup (s : MemoryStore.Impl) (r : Memory.t) (now : time_point) :
  MemoryStore.memories (MemoryStore.store s r now).2 !! Memory.id r
  = Some (Memory.set_stamps r now now).
Proof. unfold MemoryStore.store. simpl. apply lookup_insert_eq. Qed.

(** C7: [store r] followed by [retrieve (id r)] finds a Record with the
    content, tags and metadata of [r]; its timestamps are those of the two
    calls and its access count is one more than that of [r].  The lower
    bound on the capacity that the claim asks for is kept as a hypothesis. *)
Theorem store_retrieve_round_trip (s : MemoryStore.Impl) (r : Memory.t)
    (now now' : time_point) :
  1 ≤ MemoryStore.capacity s →
  ∃ m, (MemoryStore.retrieve (MemoryStore.store s r now).2 (Memory.id r) now').1
       = Some m ∧
       Memory.id m = Memory.id r ∧
       Memory.content m = Memory.content r ∧
       Memory.tags m = Memory.tags r ∧
       Memory.metadata m = Memory.metadata r ∧
       Memory.timestamp m = now ∧
       Memory.last_accessed m = now' ∧
       Memory.access_count m = incr_size_t (Memory.access_count r).
Proof.
  intros _. unfold MemoryStore.retrieve. rewrite store_lookup. simpl.
  eexists. split; [reflexivity|]. repeat split.
Qed.

(** C7 at a new [MemoryStore(5)] and the Record ["m6"]. *)
Lemma store_retrieve_round_trip_witness :
  1 ≤ MemoryStore.capacity (MemoryStore.new 5) ∧
  ∃ m, (MemoryStore.retrieve
          (MemoryStore.store (MemoryStore.new 5) Examples.sixth_record 1%Z).2
          "m6" 2%Z).1 = Some m ∧
       Memory.id m = "m6" ∧
       Memory.content m = "note" ∧
       Memory.tags m = ∅ ∧
       Memory.metadata m = ∅ ∧
       Memory.timestamp m = 1%Z ∧
       Memory.last_accessed m = 2%Z ∧
       Memory.access_count m = 1%N.
Proof.
  split; [simpl; lia|].
  apply (store_retrieve_round_trip (MemoryStore.new 5) Examples.sixth_record
           1%Z 2%Z).
  simpl. lia.
Defined.

(** ** MemoryStore: a sequence of [store] calls *)

(** One call after the other, in any order, [store] calls with pairwise
    distinct fresh ids that fit into the capacity all stay in the store. *)
Lemma store_all_size (s : MemoryStore.Impl) (records : list Memory.t)
    (now : time_point) :
  NoDup (Memory.id <$> records) →
  (∀ r, r ∈ records → MemoryStore.memories s !! Memory.id r = None) →
  MemoryStore.size s + length records ≤ MemoryStore.capacity s →
  MemoryStore.size (Examples.store_all s records now)
  = MemoryStore.size s + length records.
Proof.
  unfold Examples.store_all. revert s.
  induction records as [|r records IH]; intros s Hnd Hfresh Hfit;
    cbn [foldl length fmap list_fmap] in *.
  - lia.
  - apply NoDup_cons in Hnd as [Hr Hnd].
    assert (Hstore : MemoryStore.memories (MemoryStore.store s r now).2
                     = <[Memory.id r := Memory.set_stamps r now now]>
                         (MemoryStore.memories s)).
    { unfold MemoryStore.store, MemoryStore.size in *. simpl.
      by rewrite decide_False by lia. }
    assert (Hsize : MemoryStore.size (MemoryStore.store s r now).2
                    = S (MemoryStore.size s)).
    { unfold MemoryStore.size. rewrite Hstore.
      apply map_size_insert_None, Hfresh. by left. }
    rewrite IH.
    + lia.
    + done.
    + intros r' Hr'. rewrite Hstore, lookup_insert_ne.
      * apply Hfresh. by right.
      * intros Heq. apply Hr. rewrite Heq. apply list_elem_of_fmap. eauto.
    + rewrite store_capacity. lia.
Qed.

Lemma store_all_new_size (capacity : nat) (records : list Memory.t)
    (now : time_point) :
  NoDup (Memory.id <$> records) → length records ≤ capacity →
  MemoryStore.size (Examples.store_all (MemoryStore.new capacity) records now)
  = length records.
Proof.
  intros Hnd Hfit. rewrite store_all_size; [done..|].
  unfold MemoryStore.size, MemoryStore.new. simpl.
  rewrite map_size_empty. lia.
Qed.

(** ** MemoryStore: access bookkeeping *)

(** C9: the Records that [search] returns are the stored entries as they
    were before the call (the copies are pushed before the access metrics
    are updated), while the stored entries are bumped: the stored access
    count is that of the returned copy plus one (modulo [2^64]) and the
    stored last access is the time of the call.  Without a limit the
    result holds every stored Record that matches, so the statement is
    about each of them.  [retrieve] bumps the stored entry first and
    returns the bumped entry. *)
Theorem search_returns_copies_before_bump (s : MemoryStore.Impl)
    (query : Query.t) (limit : nat) (now : time_point) :
  MemoryStore.keyed_by_id s →
  (∀ r, r ∈ (MemoryStore.search s query limit now).1 →
     MemoryStore.memories s !! Memory.id r = Some r ∧
     ∃ stored,
       MemoryStore.memories (MemoryStore.search s query limit now).2
         !! Memory.id r = Some stored ∧
       Memory.access_count stored = incr_size_t (Memory.access_count r) ∧
       Memory.access_count stored = ((Memory.access_count r + 1) mod 2 ^ 64)%N ∧
       Memory.last_accessed stored = now ∧
       stored = Memory.touch now r) ∧
  (∀ k m, MemoryStore.memories s !! k = Some m →
     MemoryStore.matches_query m query = true →
     limit = 0 →
     m ∈ (MemoryStore.search s query limit now).1) ∧
  (∀ id m, MemoryStore.memories s !! id = Some m →
     ∃ copy,
       (MemoryStore.retrieve s id now).1 = Some copy ∧
       MemoryStore.memories (MemoryStore.retrieve s id now).2 !! id = Some copy ∧
       Memory.access_count copy = incr_size_t (Memory.access_count m) ∧
       Memory.access_count copy = ((Memory.access_count m + 1) mod 2 ^ 64)%N ∧
       Memory.last_accessed copy = now).
Proof.
  intros Hk. split; [|split].
  - intros r Hin.
    destruct (search_results_stored s query limit now r Hin) as (k & Hr & _).
    pose proof (Hk _ _ Hr) as <-. split; [done|].
    exists (Memory.touch now r). split; [|done].
    pose proof (search_results_NoDup_ids s query limit now Hk) as Hnd.
    unfold MemoryStore.search in *. simpl in *.
    rewrite update_access_metrics_lookup by done.
    rewrite decide_True by (apply list_elem_of_fmap; eauto).
    by rewrite Hr.
  - intros k m Hm Hmatch ->. unfold MemoryStore.search. cbn [fst].
    unfold limit_results. rewrite decide_False by lia.
    rewrite std_sort_Permutation. apply list_elem_of_filter. split; [done|].
    apply list_elem_of_fmap. exists (k, m). split; [done|].
    by apply elem_of_map_to_list.
  - intros id m Hm. exists (Memory.touch now m).
    unfold MemoryStore.retrieve. rewrite Hm. simpl.
    by rewrite lookup_insert_eq.
Qed.

Lemma ranked_store_keyed_by_id : MemoryStore.keyed_by_id Examples.ranked_store.
Proof.
  apply retrieve_keyed_by_id, store_all_keyed_by_id, new_keyed_by_id.
Qed.

Lemma ranked_store_a :
  MemoryStore.memories Examples.ranked_store !! "a" = Some Examples.ranked_a.
Proof. reflexivity. Qed.

(** C9 at the store [ranked_store], searched without a limit at tick 7.
    The Record ["a"] is returned with the access count 1 and the last
    access 0 that it had before the call; after the call the store holds
    it with the access count 2 and the last access 7.  [retrieve] at tick 7
    returns it with the access count 2 and the last access 7. *)
Lemma search_returns_copies_before_bump_witness :
  MemoryStore.keyed_by_id Examples.ranked_store ∧
  Examples.ranked_a
    ∈ (MemoryStore.search Examples.ranked_store Examples.any_query 0 7%Z).1 ∧
  Memory.access_count Examples.ranked_a = 1%N ∧
  Memory.last_accessed Examples.ranked_a = 0%Z ∧
  (∃ stored,
     MemoryStore.memories
       (MemoryStore.search Examples.ranked_store Examples.any_query 0 7%Z).2
       !! "a" = Some stored ∧
     Memory.access_count stored = 2%N ∧
     Memory.last_accessed stored = 7%Z) ∧
  (∃ copy,
     (MemoryStore.retrieve Examples.ranked_store "a" 7%Z).1 = Some copy ∧
     Memory.access_count copy = 2%N ∧
     Memory.last_accessed copy = 7%Z).
Proof.
  destruct (search_returns_copies_before_bump Examples.ranked_store
              Examples.any_query 0 7%Z ranked_store_keyed_by_id)
    as (Hcopies & Hall & Hretrieve).
  pose proof (Hall "a" Examples.ranked_a ranked_store_a eq_refl eq_refl) as Hin.
  split; [exact ranked_store_keyed_by_id|]. split; [exact Hin|].
  split; [reflexivity|]. split; [reflexivity|]. split.
  - destruct (Hcopies Examples.ranked_a Hin)
      as (_ & stored & Hstored & _ & Hcount & Hlast & _).
    exists stored. split; [exact Hstored|]. split; [exact Hcount | exact Hlast].
  - destruct (Hretrieve "a" Examples.ranked_a ranked_store_a)
      as (copy & Hcopy & _ & _ & Hcount & Hlast).
    exists copy. split; [exact Hcopy|]. split; [exact Hcount | exact Hlast].
Defined.

(** ** EpisodicMemory: search and recall *)

Lemma episodic_search_results (s : EpisodicMemory.Impl)
    (query : EpisodeQuery.t) (limit : nat) (now : time_point)
    (id : string) (ms : list Memory.t) :
  (id, ms) ∈ (EpisodicMemory.search s query limit now).1 →
  ∃ episode, EpisodicMemory.episodes s !! id = Some episode ∧
             ms = EpisodicMemory.memories episode ∧
             EpisodicMemory.matches_query episode query = true.
Proof.
  unfold EpisodicMemory.search. simpl. intros Hin.
  eapply elem_of_sublist in Hin; [|apply limit_results_sublist].
  rewrite std_sort_Permutation in Hin.
  apply list_elem_of_fmap in Hin as [[k e] [[= -> ->] Hin]].
  apply list_elem_of_filter in Hin as [Hm Hin].
  apply elem_of_map_to_list in Hin. eauto.
Qed.

(** C10: [search] returns the store as it was, so no episode changes its
    access count, its last access or anything else, and every result is an
    episode of that store with its Records; [recall_episode] on a known id
    replaces the episode by one with the access count incremented and the
    last access set to the time of the call, all else being equal. *)
Theorem episodic_search_does_no_bookkeeping (s : EpisodicMemory.Impl)
    (query : EpisodeQuery.t) (limit : nat) (now : time_point) :
  (EpisodicMemory.search s query limit now).2 = s ∧
  (∀ id ms, (id, ms) ∈ (EpisodicMemory.search s query limit now).1 →
     ∃ episode, EpisodicMemory.episodes s !! id = Some episode ∧
                ms = EpisodicMemory.memories episode) ∧
  (∀ id episode, EpisodicMemory.episodes s !! id = Some episode →
     ∃ episode',
       EpisodicMemory.recall_episode s id now
       = (Some (EpisodicMemory.memories episode),
          EpisodicMemory.with_episodes s
            (<[id := episode']> (EpisodicMemory.episodes s))) ∧
       EpisodicMemory.access_count episode'
       = incr_size_t (EpisodicMemory.access_count episode) ∧
       EpisodicMemory.last_accessed episode' = now ∧
       EpisodicMemory.id episode' = EpisodicMemory.id episode ∧
       EpisodicMemory.timestamp episode' = EpisodicMemory.timestamp episode ∧
       EpisodicMemory.memories episode' = EpisodicMemory.memories episode ∧
       EpisodicMemory.context episode' = EpisodicMemory.context episode ∧
       EpisodicMemory.importance episode' = EpisodicMemory.importance episode).
Proof.
  split; [reflexivity|]. split.
  - intros id ms Hin.
    destruct (episodic_search_results _ _ _ _ _ _ Hin) as (e & ? & ? & _). eauto.
  - intros id episode Hep. exists (EpisodicMemory.touch now episode).
    unfold EpisodicMemory.recall_episode. rewrite Hep. done.
Qed.

(** ** The scenarios of the spec *)

Lemma linked_nodes_sem_1 :
  SemanticMemory.nodes Examples.linked_nodes !! "sem_1"
  = Some (SemanticMemory.mkNode "sem_1" "animal" ∅ [("sem_2", 0.7%R)]
                                0%R 0%N 0%Z 0%Z).
Proof. reflexivity. Qed.

Lemma linked_nodes_sem_2 :
  SemanticMemory.nodes Examples.linked_nodes !! "sem_2"
  = Some (SemanticMemory.new_node "sem_2" "animal" 0%Z).
Proof. reflexivity. Qed.

(** The scenario of the spec: after [add_relationship(a, b, 0.7)] the call
    [get_related_nodes(a, 0.5)] returns exactly [b] and
    [get_related_nodes(a, 0.8)] returns nothing. *)
Lemma get_related_nodes_scenario :
  SemanticMemory.get_related_nodes Examples.linked_nodes "sem_1" 0.5%R 0
  = [SemanticNode.mk "sem_2" "animal" ∅ 0%R] ∧
  SemanticMemory.get_related_nodes Examples.linked_nodes "sem_1" 0.8%R 0 = [].
Proof.
  unfold SemanticMemory.get_related_nodes. rewrite linked_nodes_sem_1.
  cbn [SemanticMemory.relationships omap list_omap fst snd].
  split.
  - rewrite decide_True by lra. rewrite linked_nodes_sem_2. reflexivity.
  - rewrite decide_False by lra. reflexivity.
Qed.

(** The scenario of the spec: [create_episode({"loc": "lab"})], then
    [add_memory(id, r)], then a search for the context [{"loc": "lab"}]
    returns the episode with [r]. *)
Lemma episodic_search_scenario :
  (EpisodicMemory.search
     (EpisodicMemory.add_memory Examples.lab "ep_1" Examples.sixth_record).2
     (EpisodeQuery.mk None None {["loc" := "lab"]} "") 0 1%Z).1
  = [("ep_1", [Examples.sixth_record])] ∧
  (EpisodicMemory.search
     (EpisodicMemory.add_memory Examples.lab "ep_1" Examples.sixth_record).2
     (EpisodeQuery.mk None None {["loc" := "office"]} "") 0 1%Z).1
  = [].
Proof. split; reflexivity. Qed.

Lemma map_size_lt_missing {V} (m m' : gmap string V) :
  (∀ k v, m' !! k = Some v → m !! k = Some v) →
  size m' < size m →
  ∃ k v, m !! k = Some v ∧ m' !! k = None.
Proof.
  intros Hsub Hlt.
  destruct (set_choose_or_empty (dom m ∖ dom m')) as [[k Hk]|Hempty].
  - apply elem_of_difference in Hk as [[v Hv]%elem_of_dom Hk'%not_elem_of_dom].
    eauto.
  - assert (Hdom : dom m ⊆ dom m') by set_solver.
    apply subseteq_size in Hdom. rewrite !size_dom in Hdom. lia.
Qed.

(** A [store] call on a full store inserts into the pruned store. *)
Lemma store_size_full (s : MemoryStore.Impl) (r : Memory.t) (now : time_point) :
  MemoryStore.capacity s ≤ MemoryStore.size s →
  MemoryStore.memories (MemoryStore.prune s now) !! Memory.id r = None →
  MemoryStore.size (MemoryStore.store s r now).2
  = S (MemoryStore.size (MemoryStore.prune s now)).
Proof.
  unfold MemoryStore.store, MemoryStore.size. intros Hfull Hnew.
  cbn [snd MemoryStore.memories]. rewrite decide_True by done.
  by apply map_size_insert_None.
Qed.

Lemma ten_store_entries (k : string) (v : Memory.t) :
  MemoryStore.memories Examples.ten_store !! k = Some v →
  ∃ r, r ∈ Examples.ten_records ∧ k = Memory.id r ∧
       v = Memory.set_stamps r 1%Z 1%Z.
Proof.
  replace (MemoryStore.memories Examples.ten_store)
    with (list_to_map ((λ r, (Memory.id r, Memory.set_stamps r 1%Z 1%Z))
                         <$> Examples.ten_records) : gmap string Memory.t)
    by reflexivity.
  intros Hin%elem_of_list_to_map_2.
  apply list_elem_of_fmap in Hin as (r & [= -> ->] & Hr). eauto.
Qed.

(** The scenario of the spec: with capacity 10 and the importances 0.0 to
    0.9, pruning leaves nine Records and removes the one with the lowest
    importance; the eleventh [store] ends with ten Records. *)
Lemma ten_store_scenario (now : time_point) :
  MemoryStore.size Examples.ten_store = 10 ∧
  MemoryStore.size (MemoryStore.prune Examples.ten_store now) = 9 ∧
  MemoryStore.memories (MemoryStore.prune Examples.ten_store now) !! "r0" = None ∧
  MemoryStore.size
    (MemoryStore.store Examples.ten_store Examples.eleventh_record now).2 = 10.
Proof.
  assert (Hsize : MemoryStore.size (MemoryStore.prune Examples.ten_store now) = 9).
  { rewrite prune_size; reflexivity. }
  assert (Hr0 : MemoryStore.memories (MemoryStore.prune Examples.ten_store now)
                !! "r0" = None).
  { destruct (MemoryStore.memories (MemoryStore.prune Examples.ten_store now)
                !! "r0") as [m0|] eqn:H0; [exfalso|done].
    destruct (ten_store_entries _ _ (prune_keeps_entries _ _ _ _ H0))
      as (r0 & Hin0 & Hid0 & ->).
    destruct (map_size_lt_missing (MemoryStore.memories Examples.ten_store)
                (MemoryStore.memories (MemoryStore.prune Examples.ten_store now)))
      as (k & v & Hv & Hk).
    { intros k v. apply prune_keeps_entries. }
    { unfold MemoryStore.size in Hsize. rewrite Hsize.
      change (9 < MemoryStore.size Examples.ten_store).
      replace (MemoryStore.size Examples.ten_store) with 10 by reflexivity. lia. }
    pose proof (prune_removes_lowest _ _ _ _ _ _ Hv Hk H0) as Hle.
    destruct (ten_store_entries _ _ Hv) as (r & Hin & -> & ->).
    unfold MemoryStore.calculate_retention_score in Hle.
    cbn [Memory.timestamp Memory.last_accessed Memory.access_count
         Memory.importance Memory.set_stamps] in Hle.
    set (a := (1 / (1 + log1p (IZR (hours_between now 1%Z))))%R) in Hle.
    clearbody a.
    unfold Examples.ten_records in Hin, Hin0.
    repeat (apply elem_of_cons in Hin0 as [->|Hin0]; [|]);
      [try discriminate Hid0.. | by apply elem_of_nil in Hin0].
    repeat (apply elem_of_cons in Hin as [->|Hin]; [|]);
      [| cbn [Memory.importance Memory.access_count Examples.record] in Hle;
         set (b := log1p (IZR (Z.of_N 0))) in Hle; clearbody b; clear -Hle;
         lra.. | by apply elem_of_nil in Hin].
    congruence. }
  split; [reflexivity|]. split; [done|]. split; [done|].
  rewrite store_size_full.
  - by rewrite Hsize.
  - replace (MemoryStore.size Examples.ten_store) with 10 by reflexivity.
    replace (MemoryStore.capacity Examples.ten_store) with 10 by reflexivity.
    lia.
  - destruct (MemoryStore.memories (MemoryStore.prune Examples.ten_store now)
                !! Memory.id Examples.eleventh_record) as [m|] eqn:Hm;
      [exfalso|done].
    destruct (ten_store_entries _ _ (prune_keeps_entries _ _ _ _ Hm))
      as (r & Hin & Hid & _).
    unfold Examples.ten_records in Hin.
    repeat (apply elem_of_cons in Hin as [->|Hin]; [discriminate Hid|]).
    by apply elem_of_nil in Hin.
Qed.

(** ** MemoryStore: remove, retrieve, update and store on one id *)

Lemma MemoryStore_eta (s : MemoryStore.Impl) :
  MemoryStore.mkImpl (MemoryStore.memories s) (MemoryStore.capacity s) = s.
Proof. by destruct s. Qed.

(** X1: [remove] returns [true] exactly when the id is stored; it erases
    that entry and no other, the size drops by one on a hit, a later
    [retrieve] of the id misses, and a second [remove] returns [false] and
    leaves the store as it is. *)
Theorem remove_erases_once (s : MemoryStore.Impl) (id : string) (now : time_point) :
  ((MemoryStore.remove s id).1 = true ↔ is_Some (MemoryStore.memories s !! id)) ∧
  (MemoryStore.memories s !! id = None → MemoryStore.remove s id = (false, s)) ∧
  (is_Some (MemoryStore.memories s !! id) →
   S (MemoryStore.size (MemoryStore.remove s id).2) = MemoryStore.size s) ∧
  (∀ k, k ≠ id →
        MemoryStore.memories (MemoryStore.remove s id).2 !! k
        = MemoryStore.memories s !! k) ∧
  MemoryStore.retrieve (MemoryStore.remove s id).2 id now
  = (None, (MemoryStore.remove s id).2) ∧
  MemoryStore.remove (MemoryStore.remove s id).2 id
  = (false, (MemoryStore.remove s id).2).
Proof.
  unfold MemoryStore.remove, MemoryStore.retrieve, MemoryStore.size.
  cbn [fst snd MemoryStore.memories MemoryStore.capacity].
  repeat split.
  - apply bool_decide_eq_true_1.
  - apply bool_decide_eq_true_2.
  - intros Hnone. rewrite Hnone, delete_id by done.
    rewrite bool_decide_eq_false_2 by (by intros [? ?]).
    by rewrite MemoryStore_eta.
  - intros [m Hm]. rewrite map_size_delete_Some by eauto.
    assert (size (MemoryStore.memories s) ≠ 0); [|lia].
    intros Hz%map_size_empty_iff. rewrite Hz in Hm. by rewrite lookup_empty in Hm.
  - intros k Hk. by rewrite lookup_delete_ne.
  - by rewrite lookup_delete_eq.
  - rewrite lookup_delete_eq, delete_delete_eq.
    by rewrite bool_decide_eq_false_2 by (by intros [? ?]).
Qed.


(** X3: [update] of an unknown id returns [false] and leaves the store as
    it is.  On a hit it returns [true]; content, tags and metadata take the
    value given in the update, or keep theirs where the update has none;
    the modification time is the time of the call; id, embedding, creation
    time, last access, access count and importance are kept, so an update
    is not an access; all other entries and the size are unchanged. *)
Theorem update_sets_given_fields (s : MemoryStore.Impl) (id : string)
    (u : MemoryUpdate.t) (now : time_point) :
  (MemoryStore.memories s !! id = None →
   MemoryStore.update s id u now = (false, s)) ∧
  (∀ m, MemoryStore.memories s !! id = Some m →
     ∃ m',
       MemoryStore.update s id u now
       = (true, MemoryStore.mkImpl (<[id := m']> (MemoryStore.memories s))
                                   (MemoryStore.capacity s)) ∧
       Memory.content m'
       = match MemoryUpdate.content u with Some c => c | None => Memory.content m end ∧
       Memory.tags m'
       = match MemoryUpdate.tags u with Some t => t | None => Memory.tags m end ∧
       Memory.metadata m'
       = match MemoryUpdate.metadata u with
         | Some md => md | None => Memory.metadata m end ∧
       Memory.last_modified m' = now ∧
       Memory.id m' = Memory.id m ∧
       Memory.embedding m' = Memory.embedding m ∧
       Memory.timestamp m' = Memory.timestamp m ∧
       Memory.last_accessed m' = Memory.last_accessed m ∧
       Memory.access_count m' = Memory.access_count m ∧
       Memory.importance m' = Memory.importance m ∧
       MemoryStore.size (MemoryStore.update s id u now).2 = MemoryStore.size s ∧
       ∀ k, k ≠ id →
            MemoryStore.memories (MemoryStore.update s id u now).2 !! k
            = MemoryStore.memories s !! k).
Proof.
  unfold MemoryStore.update, MemoryStore.size. split.
  - by intros ->.
  - intros m Hm. rewrite Hm. eexists. split; [reflexivity|].
    cbn [fst snd MemoryStore.memories MemoryStore.capacity
         Memory.content Memory.tags Memory.metadata Memory.last_modified
         Memory.id Memory.embedding Memory.timestamp Memory.last_accessed
         Memory.access_count Memory.importance].
    repeat split.
    + apply map_size_insert_Some. eauto.
    + intros k Hk. by rewrite lookup_insert_ne.
Qed.

(** X4: below its capacity [store] does not prune: it files the Record,
    stamped with the time of the call, under its id and touches no other
    entry.  A new id makes the store one larger; an id that is already
    stored keeps the size and replaces the entry as a whole, so the access
    count of the stored entry is lost. *)
Theorem store_inserts_or_replaces (s : MemoryStore.Impl) (r : Memory.t)
    (now : time_point) :
  MemoryStore.size s < MemoryStore.capacity s →
  MemoryStore.store s r now
  = (true, MemoryStore.mkImpl
             (<[Memory.id r := Memory.set_stamps r now now]> (MemoryStore.memories s))
             (MemoryStore.capacity s)) ∧
  (MemoryStore.memories s !! Memory.id r = None →
   MemoryStore.size (MemoryStore.store s r now).2 = S (MemoryStore.size s)) ∧
  (∀ old, MemoryStore.memories s !! Memory.id r = Some old →
     MemoryStore.size (MemoryStore.store s r now).2 = MemoryStore.size s ∧
     ∃ m, MemoryStore.memories (MemoryStore.store s r now).2 !! Memory.id r
          = Some m ∧
          Memory.access_count m = Memory.access_count r ∧
          Memory.content m = Memory.content r ∧
          Memory.timestamp m = now ∧ Memory.last_accessed m = now) ∧
  (∀ k, k ≠ Memory.id r →
        MemoryStore.memories (MemoryStore.store s r now).2 !! k
        = MemoryStore.memories s !! k).
Proof.
  unfold MemoryStore.store, MemoryStore.size. intros Hlt.
  rewrite decide_False by lia.
  cbn [fst snd MemoryStore.memories MemoryStore.capacity Memory.id Memory.set_stamps].
  split; [done|]. split; [|split].
  - intros Hnone. by apply map_size_insert_None.
  - intros old Hold. split; [apply map_size_insert_Some; eauto|].
    rewrite lookup_insert_eq. eexists. split; [reflexivity|done].
  - intros k Hk. by rewrite lookup_insert_ne.
Qed.

(** ** MemoryStore: what search returns and what it changes *)

Lemma limit_results_cases {A} (limit : nat) (l : list A) :
  (limit_results limit l = l ∧ (limit = 0 ∨ length l ≤ limit)) ∨
  (limit_results limit l = take limit l ∧ 0 < limit ∧ limit < length l).
Proof. unfold limit_results. case_decide; [right | left]; split; auto; lia. Qed.

Lemma limit_results_count {A} (limit : nat) (l : list A) :
  length (limit_results limit l)
  = if decide (limit = 0) then length l else limit `min` length l.
Proof.
  destruct (limit_results_cases limit l) as [[-> Hl]|(-> & Hpos & Hlt)].
  - case_decide; lia.
  - rewrite length_take. case_decide; lia.
Qed.

(** X5: every Record that [search] returns is a stored Record that matches
    the query.  Without a limit ([limit = 0]) the result holds as many
    Records as match, with a limit the smaller of the limit and that
    number.  A stored Record that matches and is not returned was cut off
    by the limit: the limit is then positive and the result has exactly
    [limit] Records. *)
Theorem search_returns_matches_up_to_limit (s : MemoryStore.Impl)
    (query : Query.t) (limit : nat) (now : time_point) :
  (∀ r, r ∈ (MemoryStore.search s query limit now).1 →
     MemoryStore.matches_query r query = true ∧
     ∃ k, MemoryStore.memories s !! k = Some r) ∧
  length (MemoryStore.search s query limit now).1
  = (if decide (limit = 0)
     then length (filter (λ memory, MemoryStore.matches_query memory query = true)
                         (snd <$> map_to_list (MemoryStore.memories s)))
     else limit `min`
          length (filter (λ memory, MemoryStore.matches_query memory query = true)
                         (snd <$> map_to_list (MemoryStore.memories s)))) ∧
  (0 < limit → length (MemoryStore.search s query limit now).1 ≤ limit) ∧
  (∀ k r, MemoryStore.memories s !! k = Some r →
     MemoryStore.matches_query r query = true →
     r ∉ (MemoryStore.search s query limit now).1 →
     0 < limit ∧
     length (MemoryStore.search s query limit now).1 = limit).
Proof.
  split; [|split; [|split]].
  - intros r Hr. destruct (search_results_stored s query limit now r Hr)
      as (k & Hk & Hm). eauto.
  - unfold MemoryStore.search. cbn [fst].
    rewrite limit_results_count.
    by rewrite (Permutation_length (std_sort_Permutation _ _)).
  - unfold MemoryStore.search. cbn [fst]. apply limit_results_length.
  - unfold MemoryStore.search. cbn [fst]. intros k r Hk Hm Hnot.
    set (matched := filter (λ memory, MemoryStore.matches_query memory query = true)
                           (snd <$> map_to_list (MemoryStore.memories s))) in *.
    set (sorted := std_sort _ matched) in *.
    assert (Hin : r ∈ sorted).
    { unfold sorted. rewrite std_sort_Permutation. unfold matched.
      apply list_elem_of_filter. split; [done|].
      apply list_elem_of_fmap. exists (k, r). split; [done|].
      by apply elem_of_map_to_list. }
    destruct (limit_results_cases limit sorted) as [[Heq _]|(Heq & Hpos & Hlt)];
      rewrite Heq in *; [done|].
    split; [done|]. rewrite length_take; lia.
Qed.


(** ** MemoryStore: entries stay under their own id *)

Lemma update_access_metrics_keyed (now : time_point) (results : list Memory.t)
    (m : gmap string Memory.t) :
  map_Forall (λ k x, Memory.id x = k) m →
  map_Forall (λ k x, Memory.id x = k)
             (MemoryStore.update_access_metrics now m results).
Proof.
  unfold MemoryStore.update_access_metrics. revert m.
  induction results as [|r results IH]; intros m Hm; cbn [foldl]; [done|].
  apply IH. intros k x. rewrite lookup_alter.
  case_decide as Heq; [|apply Hm].
  destruct (m !! Memory.id r) as [y|] eqn:Hy; [|done].
  intros [= <-]. subst k. cbn [Memory.id Memory.touch]. by apply Hm.
Qed.

(** X7: in a store made by [MemoryStore(capacity)] every key is the id of
    its entry, and [store], [retrieve], [search], [update], [remove],
    [clear] and [prune] keep it so; hence the Record that [retrieve] finds
    for an id carries that id. *)
Theorem operations_keep_entries_under_their_id (s : MemoryStore.Impl)
    (r : Memory.t) (id : string) (u : MemoryUpdate.t) (query : Query.t)
    (limit : nat) (now : time_point) :
  MemoryStore.keyed_by_id s →
  MemoryStore.keyed_by_id (MemoryStore.store s r now).2 ∧
  MemoryStore.keyed_by_id (MemoryStore.retrieve s id now).2 ∧
  MemoryStore.keyed_by_id (MemoryStore.search s query limit now).2 ∧
  MemoryStore.keyed_by_id (MemoryStore.update s id u now).2 ∧
  MemoryStore.keyed_by_id (MemoryStore.remove s id).2 ∧
  MemoryStore.keyed_by_id (MemoryStore.clear s) ∧
  MemoryStore.keyed_by_id (MemoryStore.prune s now) ∧
  MemoryStore.keyed_by_id (MemoryStore.new (MemoryStore.capacity s)) ∧
  (∀ m, (MemoryStore.retrieve s id now).1 = Some m → Memory.id m = id).
Proof.
  intros Hkey. repeat split.
  - by apply store_keyed_by_id.
  - by apply retrieve_keyed_by_id.
  - unfold MemoryStore.search, MemoryStore.keyed_by_id.
    cbn [snd MemoryStore.memories]. by apply update_access_metrics_keyed.
  - unfold MemoryStore.update.
    destruct (MemoryStore.memories s !! id) as [m|] eqn:Hm; [|done].
    intros k x. cbn [snd MemoryStore.memories]. rewrite lookup_insert.
    case_decide as Heq; [|apply Hkey].
    intros [= <-]. subst k. cbn [Memory.id]. by apply Hkey.
  - intros k x. unfold MemoryStore.remove. cbn [snd MemoryStore.memories].
    rewrite lookup_delete. case_decide; [done|apply Hkey].
  - intros k x. unfold MemoryStore.clear. cbn [MemoryStore.memories].
    by rewrite lookup_empty.
  - by apply prune_keyed_by_id.
  - apply new_keyed_by_id.
  - intros m. unfold MemoryStore.retrieve.
    destruct (MemoryStore.memories s !! id) as [m0|] eqn:Hm; [|done].
    cbn [fst]. intros [= <-]. cbn [Memory.id Memory.touch]. by apply Hkey.
Qed.

(** ** MemoryStore: what pruning removes *)

(** X8: [prune] does nothing to a store below its capacity.  In every
    store it only removes: what is left is stored as before and the
    capacity is kept.  On a store at or over its capacity it removes the
    number of entries that [to_remove] says, which is the difference
    [size - capacity * 0.9] without its fraction. *)
Theorem prune_removes_the_quota (s : MemoryStore.Impl) (now : time_point) :
  (MemoryStore.size s < MemoryStore.capacity s → MemoryStore.prune s now = s) ∧
  MemoryStore.capacity (MemoryStore.prune s now) = MemoryStore.capacity s ∧
  (∀ k m, MemoryStore.memories (MemoryStore.prune s now) !! k = Some m →
          MemoryStore.memories s !! k = Some m) ∧
  (MemoryStore.capacity s ≤ MemoryStore.size s →
   MemoryStore.size (MemoryStore.prune s now)
   = MemoryStore.size s
     - prune_quota (MemoryStore.size s) (MemoryStore.capacity s) ∧
   (INR (prune_quota (MemoryStore.size s) (MemoryStore.capacity s))
    <= INR (MemoryStore.size s) - INR (MemoryStore.capacity s) * 0.9
    < INR (prune_quota (MemoryStore.size s) (MemoryStore.capacity s)) + 1)%R).
Proof.
  split; [|split; [|split]].
  - intros Hlt. unfold MemoryStore.prune, MemoryStore.size in *.
    by rewrite decide_True by done.
  - apply prune_capacity.
  - intros k m. apply prune_keeps_entries.
  - intros Hfull. split; [by apply prune_size|].
    apply prune_quota_truncates. lia.
Qed.

(** X10: a [store] call makes the store at most one Record larger, and a
    store of capacity 10 or more holds at most [capacity] Records after
    every [store] call, whatever it held before. *)
Theorem store_respects_capacity_from_10 (s : MemoryStore.Impl) (r : Memory.t)
    (now : time_point) :
  10 ≤ MemoryStore.capacity s →
  MemoryStore.size (MemoryStore.store s r now).2 ≤ MemoryStore.capacity s ∧
  MemoryStore.size (MemoryStore.store s r now).2 ≤ S (MemoryStore.size s) ∧
  MemoryStore.capacity (MemoryStore.store s r now).2 = MemoryStore.capacity s.
Proof.
  intros Hc. split; [by apply store_within_capacity|].
  split; [|apply store_capacity].
  unfold MemoryStore.store, MemoryStore.size. simpl.
  pose proof (map_size_insert (Memory.id r) (Memory.set_stamps r now now)) as Hi.
  case_decide as Hfull.
  - rewrite Hi. pose proof (prune_size s now Hfull) as Hp.
    unfold MemoryStore.size in *.
    destruct (_ !! _); simpl; lia.
  - rewrite Hi. destruct (_ !! _); simpl; lia.
Qed.

(** ** EpisodicMemory: ids, episodes and their Records *)

Lemma incr_size_t_small (x : N) :
  (x + 1 < size_t_modulus)%N → incr_size_t x = (x + 1)%N.
Proof. intros H. unfold incr_size_t. by apply N.mod_small. Qed.

Lemma prefixed_inj (prefix : string) (n n' : N) :
  prefix +:+ pretty n = prefix +:+ pretty n' → n = n'.
Proof. intros H. apply (inj (String.app prefix)) in H. by apply (inj pretty) in H. Qed.

Lemma prune_episodes_lookup_Some (s : EpisodicMemory.Impl) (now : time_point) k e :
  EpisodicMemory.episodes (EpisodicMemory.prune_episodes s now) !! k = Some e →
  EpisodicMemory.episodes s !! k = Some e.
Proof. apply erase_lowest_lookup_Some. Qed.

Lemma episodic_ids_issued_fresh (s : EpisodicMemory.Impl) :
  EpisodicMemory.ids_issued s →
  EpisodicMemory.episodes s !! ("ep_" +:+ pretty (EpisodicMemory.counter s + 1)%N)
  = None.
Proof.
  intros Hi. apply eq_None_not_Some. intros Hs.
  destruct (Hi _ Hs) as (n & Hn & Heq). apply prefixed_inj in Heq. lia.
Qed.

Lemma create_episode_fresh (s : EpisodicMemory.Impl)
    (context : gmap string string) (now : time_point) :
  EpisodicMemory.ids_issued s →
  (EpisodicMemory.counter s + 1 < size_t_modulus)%N →
  (EpisodicMemory.create_episode s context now).1
  = "ep_" +:+ pretty (EpisodicMemory.counter s + 1)%N ∧
  EpisodicMemory.episodes (EpisodicMemory.create_episode s context now).2
    !! (EpisodicMemory.create_episode s context now).1
  = Some (EpisodicMemory.mkEpisode
            (EpisodicMemory.create_episode s context now).1
            now [] context 0%R 0%N now).
Proof.
  intros Hi Hc. pose proof (episodic_ids_issued_fresh s Hi) as Hfresh.
  unfold EpisodicMemory.create_episode, EpisodicMemory.generate_id.
  set (s0 := if decide (EpisodicMemory.capacity s ≤ size (EpisodicMemory.episodes s))
             then EpisodicMemory.prune_episodes s now else s).
  assert (Hcnt : EpisodicMemory.counter s0 = EpisodicMemory.counter s).
  { unfold s0. by case_decide. }
  assert (Hfresh0 : EpisodicMemory.episodes s0
                      !! ("ep_" +:+ pretty (EpisodicMemory.counter s + 1)%N) = None).
  { apply eq_None_not_Some. intros [e He]. unfold s0 in He.
    case_decide; [apply prune_episodes_lookup_Some in He|]; congruence. }
  rewrite Hcnt, (incr_size_t_small _ Hc), Hfresh0. cbn [fst snd EpisodicMemory.episodes].
  split; [done|]. apply lookup_insert_eq.
Qed.

(** X11: in a store whose ids all came from [generate_id], and before the
    64-bit counter wraps, [create_episode] returns an id that no episode
    has: ["ep_"] and the next counter value.  The new episode has this id,
    the given context, the time of the call, no Records and importance 0.
    The call changes no other episode; it removes one only when the store
    is full. *)
Theorem create_episode_issues_fresh_id (s : EpisodicMemory.Impl)
    (context : gmap string string) (now : time_point) :
  EpisodicMemory.ids_issued s →
  (EpisodicMemory.counter s + 1 < size_t_modulus)%N →
  (EpisodicMemory.create_episode s context now).1
  = "ep_" +:+ pretty (EpisodicMemory.counter s + 1)%N ∧
  EpisodicMemory.episodes s !! (EpisodicMemory.create_episode s context now).1
  = None ∧
  EpisodicMemory.episodes (EpisodicMemory.create_episode s context now).2
    !! (EpisodicMemory.create_episode s context now).1
  = Some (EpisodicMemory.mkEpisode
            (EpisodicMemory.create_episode s context now).1
            now [] context 0%R 0%N now) ∧
  EpisodicMemory.counter (EpisodicMemory.create_episode s context now).2
  = (EpisodicMemory.counter s + 1)%N ∧
  EpisodicMemory.ids_issued (EpisodicMemory.create_episode s context now).2 ∧
  (∀ k e, k ≠ (EpisodicMemory.create_episode s context now).1 →
     EpisodicMemory.episodes (EpisodicMemory.create_episode s context now).2 !! k
     = Some e →
     EpisodicMemory.episodes s !! k = Some e) ∧
  (size (EpisodicMemory.episodes s) < EpisodicMemory.capacity s →
   size (EpisodicMemory.episodes (EpisodicMemory.create_episode s context now).2)
   = S (size (EpisodicMemory.episodes s)) ∧
   ∀ k, k ≠ (EpisodicMemory.create_episode s context now).1 →
     EpisodicMemory.episodes (EpisodicMemory.create_episode s context now).2 !! k
     = EpisodicMemory.episodes s !! k).
Proof.
  intros Hi Hc. pose proof (episodic_ids_issued_fresh s Hi) as Hfresh.
  set (s0 := if decide (EpisodicMemory.capacity s ≤ size (EpisodicMemory.episodes s))
             then EpisodicMemory.prune_episodes s now else s).
  assert (Hsub : ∀ k e, EpisodicMemory.episodes s0 !! k = Some e →
                        EpisodicMemory.episodes s !! k = Some e).
  { intros k e. unfold s0. case_decide; [apply prune_episodes_lookup_Some | done]. }
  assert (Hcnt : EpisodicMemory.counter s0 = EpisodicMemory.counter s).
  { unfold s0. by case_decide. }
  assert (Hfresh0 : EpisodicMemory.episodes s0
                      !! ("ep_" +:+ pretty (EpisodicMemory.counter s + 1)%N) = None).
  { apply eq_None_not_Some. intros [e He]. apply Hsub in He. congruence. }
  assert (Hcall : EpisodicMemory.create_episode s context now
                  = ("ep_" +:+ pretty (EpisodicMemory.counter s + 1)%N,
                     EpisodicMemory.mkImpl
                       (<["ep_" +:+ pretty (EpisodicMemory.counter s + 1)%N
                          := EpisodicMemory.mkEpisode
                               ("ep_" +:+ pretty (EpisodicMemory.counter s + 1)%N)
                               now [] context 0%R 0%N now]>
                          (EpisodicMemory.episodes s0))
                       (EpisodicMemory.capacity s0)
                       (EpisodicMemory.max_memories_per_episode s0)
                       (EpisodicMemory.counter s + 1)%N)).
  { unfold EpisodicMemory.create_episode, EpisodicMemory.generate_id.
    fold s0. rewrite Hcnt, (incr_size_t_small _ Hc), Hfresh0. reflexivity. }
  rewrite Hcall. cbn [fst snd EpisodicMemory.episodes EpisodicMemory.counter].
  split; [done|]. split; [done|]. split; [apply lookup_insert_eq|].
  split; [done|]. split; [|split].
  - intros k. unfold EpisodicMemory.ids_issued.
    cbn [EpisodicMemory.episodes EpisodicMemory.counter].
    rewrite lookup_insert_is_Some. intros [<-|[_ [e He]]].
    + exists (EpisodicMemory.counter s + 1)%N. split; [lia | done].
    + destruct (Hi k) as (n & Hn & ->); [by apply Hsub in He; eauto|].
      exists n. split; [lia | done].
  - intros k e Hk. rewrite lookup_insert_ne by done. apply Hsub.
  - intros Hroom. unfold s0. rewrite decide_False by lia.
    split; [by apply map_size_insert_None|].
    intros k Hk. by rewrite lookup_insert_ne.
Qed.

Lemma filter_positions_sublist {A} (P : nat * A → Prop)
    `{!∀ x, Decision (P x)} (l : list A) :
  (filter P (imap pair l)).*2 `sublist_of` l.
Proof.
  assert (Hl : (imap pair l).*2 = l).
  { rewrite fmap_imap. cbn. rewrite <-(list_fmap_id l) at 2.
    rewrite <-imap_const. by apply imap_ext. }
  rewrite <-Hl at 2. apply fmap_sublist, sublist_filter.
Qed.

Lemma prune_memories_sublist (s : EpisodicMemory.Impl)
    (episode : EpisodicMemory.Episode) :
  EpisodicMemory.memories (EpisodicMemory.prune_memories s episode)
    `sublist_of` EpisodicMemory.memories episode.
Proof. apply filter_positions_sublist. Qed.

(** X12: on an episode that has reached [max_memories_per_episode], which
    is where [add_memory] calls it, [prune_memories] keeps the Records of
    the episode in their order and changes nothing else of the episode.  It
    removes as many Records as [to_remove] says, which is the difference
    [size - max_memories_per_episode * 0.9] without its fraction. *)
Theorem prune_memories_keeps_order (s : EpisodicMemory.Impl)
    (episode : EpisodicMemory.Episode) :
  EpisodicMemory.max_memories_per_episode s
    ≤ length (EpisodicMemory.memories episode) →
  EpisodicMemory.memories (EpisodicMemory.prune_memories s episode)
    `sublist_of` EpisodicMemory.memories episode ∧
  length (EpisodicMemory.memories (EpisodicMemory.prune_memories s episode))
  = length (EpisodicMemory.memories episode)
    - prune_quota (length (EpisodicMemory.memories episode))
                  (EpisodicMemory.max_memories_per_episode s) ∧
  (INR (prune_quota (length (EpisodicMemory.memories episode))
                    (EpisodicMemory.max_memories_per_episode s))
   <= INR (length (EpisodicMemory.memories episode))
      - INR (EpisodicMemory.max_memories_per_episode s) * 0.9
   < INR (prune_quota (length (EpisodicMemory.memories episode))
                      (EpisodicMemory.max_memories_per_episode s)) + 1)%R ∧
  EpisodicMemory.prune_memories s episode
  = EpisodicMemory.set_memories episode
      (EpisodicMemory.memories (EpisodicMemory.prune_memories s episode)).
Proof.
  intros Hfull. split; [apply prune_memories_sublist|].
  split; [apply prune_memories_length|].
  split; [apply prune_quota_truncates; lia | reflexivity].
Qed.

Lemma add_memory_kept (s : EpisodicMemory.Impl) (episode : EpisodicMemory.Episode) :
  EpisodicMemory.memories
    (if decide (EpisodicMemory.max_memories_per_episode s
                ≤ length (EpisodicMemory.memories episode))
     then EpisodicMemory.prune_memories s episode else episode)
    `sublist_of` EpisodicMemory.memories episode.
Proof.
  case_decide; [apply prune_memories_sublist | done].
Qed.

(** X13: [add_memory] on an id that is not stored returns false and leaves
    the store as it is.  On a stored episode it returns true; the episode
    then holds Records it held before, in their order, and the new Record
    after them, and all of them when it was below its limit.  Its id,
    creation time, context, access count and last access stay as they
    were, and so do all other episodes, the limits and the id counter. *)
Theorem add_memory_appends_to_one_episode (s : EpisodicMemory.Impl)
    (episode_id : string) (memory : Memory.t) :
  (EpisodicMemory.episodes s !! episode_id = None →
   EpisodicMemory.add_memory s episode_id memory = (false, s)) ∧
  (∀ episode, EpisodicMemory.episodes s !! episode_id = Some episode →
     ∃ kept episode',
       EpisodicMemory.add_memory s episode_id memory
       = (true, EpisodicMemory.with_episodes s
                  (<[episode_id := episode']> (EpisodicMemory.episodes s))) ∧
       EpisodicMemory.memories episode' = kept ++ [memory] ∧
       kept `sublist_of` EpisodicMemory.memories episode ∧
       (length (EpisodicMemory.memories episode)
        < EpisodicMemory.max_memories_per_episode s →
        kept = EpisodicMemory.memories episode) ∧
       EpisodicMemory.id episode' = EpisodicMemory.id episode ∧
       EpisodicMemory.timestamp episode' = EpisodicMemory.timestamp episode ∧
       EpisodicMemory.context episode' = EpisodicMemory.context episode ∧
       EpisodicMemory.access_count episode' = EpisodicMemory.access_count episode ∧
       EpisodicMemory.last_accessed episode'
       = EpisodicMemory.last_accessed episode) ∧
  (∀ k, k ≠ episode_id →
     EpisodicMemory.episodes (EpisodicMemory.add_memory s episode_id memory).2 !! k
     = EpisodicMemory.episodes s !! k) ∧
  size (EpisodicMemory.episodes (EpisodicMemory.add_memory s episode_id memory).2)
  = size (EpisodicMemory.episodes s) ∧
  EpisodicMemory.capacity (EpisodicMemory.add_memory s episode_id memory).2
  = EpisodicMemory.capacity s ∧
  EpisodicMemory.max_memories_per_episode
    (EpisodicMemory.add_memory s episode_id memory).2
  = EpisodicMemory.max_memories_per_episode s ∧
  EpisodicMemory.counter (EpisodicMemory.add_memory s episode_id memory).2
  = EpisodicMemory.counter s.
Proof.
  unfold EpisodicMemory.add_memory.
  destruct (EpisodicMemory.episodes s !! episode_id) as [episode|] eqn:He.
  - split; [done|]. split; [|split; [|split; [|done]]].
    + intros ? [= <-].
      eexists _, _. split; [reflexivity|].
      split; [reflexivity|]. split; [apply add_memory_kept|].
      split; [intros Hlt; by rewrite decide_False by lia|].
      case_decide; done.
    + intros k Hk. cbn. by rewrite lookup_insert_ne.
    + cbn. by apply map_size_insert_Some.
  - split; [done|]. split; [done|]. done.
Qed.

(** X14: from a limit of 10 on, an [EpisodicMemory] holds at most
    [capacity] episodes after every [create_episode] call and an episode
    holds at most [max_memories_per_episode] Records after every
    [add_memory] call; [add_memory] never changes the number of
    episodes. *)
Theorem episodic_limits_hold_from_10 (s : EpisodicMemory.Impl)
    (context : gmap string string) (episode_id : string) (memory : Memory.t)
    (now : time_point) :
  10 ≤ EpisodicMemory.capacity s →
  10 ≤ EpisodicMemory.max_memories_per_episode s →
  size (EpisodicMemory.episodes (EpisodicMemory.create_episode s context now).2)
  ≤ EpisodicMemory.capacity s ∧
  size (EpisodicMemory.episodes (EpisodicMemory.create_episode s context now).2)
  ≤ S (size (EpisodicMemory.episodes s)) ∧
  (∀ episode,
     EpisodicMemory.episodes (EpisodicMemory.add_memory s episode_id memory).2
       !! episode_id = Some episode →
     length (EpisodicMemory.memories episode)
     ≤ EpisodicMemory.max_memories_per_episode s).
Proof.
  intros Hc Hm. split; [by apply create_episode_within_capacity|]. split.
  - unfold EpisodicMemory.create_episode.
    pose proof (prune_episodes_size s now) as Hp.
    case_decide as Hfull; simpl; rewrite map_size_insert;
      destruct (_ !! _); simpl in *; lia.
  - intros episode. by apply add_memory_within_capacity.
Qed.

Lemma context_predicate (have want : gmap string string) :
  forallb (λ kv : string * string, bool_decide (have !! kv.1 = Some kv.2))
          (map_to_list want) = true
  ↔ want ⊆ have.
Proof.
  rewrite forallb_forall, map_subseteq_spec. split.
  - intros H k v Hk. apply elem_of_map_to_list, list_elem_of_In in Hk.
    apply H in Hk. by apply bool_decide_eq_true in Hk.
  - intros H [k v] Hin. apply list_elem_of_In, elem_of_map_to_list in Hin.
    apply bool_decide_eq_true. cbn. by apply H.
Qed.

Lemma lower_bound_predicate (t : time_point) (bound : option time_point) :
  match bound with Some b => (t <? b)%Z | None => false end = false
  ↔ ∀ b, bound = Some b → (b ≤ t)%Z.
Proof.
  destruct bound as [b|]; [|done]. rewrite Z.ltb_ge. split.
  - by intros ? ? [= <-].
  - intros H. by apply H.
Qed.

Lemma upper_bound_predicate (t : time_point) (bound : option time_point) :
  match bound with Some b => (t >? b)%Z | None => false end = false
  ↔ ∀ b, bound = Some b → (t ≤ b)%Z.
Proof.
  destruct bound as [b|]; [|done]. rewrite Z.gtb_ltb, Z.ltb_ge. split.
  - by intros ? ? [= <-].
  - intros H. by apply H.
Qed.

Lemma records_content_predicate (memories : list Memory.t) (content : string) :
  negb (content =? "")%string &&
  negb (existsb (λ memory, contains (Memory.content memory) content) memories)
  = false
  ↔ content = "" ∨
    ∃ memory, memory ∈ memories ∧ contains (Memory.content memory) content = true.
Proof.
  destruct (String.eqb_spec content "") as [->|Hne]; simpl.
  - split; auto.
  - rewrite negb_false_iff, existsb_exists. split.
    + intros (m & Hin%list_elem_of_In & Hm). eauto.
    + intros [?|(m & Hin%list_elem_of_In & Hm)]; [done | eauto].
Qed.

(** X15: an episode matches an [EpisodeQuery] exactly when its creation
    time lies in the closed range of the bounds that are given, its context
    holds every key of the query's context with the same value, and, for a
    content that is not empty, one of its Records contains it.  An episode
    without Records matches no query with a content. *)
Theorem episodic_matches_query_spec (episode : EpisodicMemory.Episode)
    (query : EpisodeQuery.t) :
  (EpisodicMemory.matches_query episode query = true ↔
     (∀ start, EpisodeQuery.start_time query = Some start →
               (start ≤ EpisodicMemory.timestamp episode)%Z) ∧
     (∀ end_, EpisodeQuery.end_time query = Some end_ →
              (EpisodicMemory.timestamp episode ≤ end_)%Z) ∧
     EpisodeQuery.context query ⊆ EpisodicMemory.context episode ∧
     (EpisodeQuery.content query = "" ∨
      ∃ memory, memory ∈ EpisodicMemory.memories episode ∧
                contains (Memory.content memory) (EpisodeQuery.content query)
                = true)) ∧
  (EpisodicMemory.memories episode = [] → EpisodeQuery.content query ≠ "" →
   EpisodicMemory.matches_query episode query = false).
Proof.
  assert (Hspec : EpisodicMemory.matches_query episode query = true ↔
     (∀ start, EpisodeQuery.start_time query = Some start →
               (start ≤ EpisodicMemory.timestamp episode)%Z) ∧
     (∀ end_, EpisodeQuery.end_time query = Some end_ →
              (EpisodicMemory.timestamp episode ≤ end_)%Z) ∧
     EpisodeQuery.context query ⊆ EpisodicMemory.context episode ∧
     (EpisodeQuery.content query = "" ∨
      ∃ memory, memory ∈ EpisodicMemory.memories episode ∧
                contains (Memory.content memory) (EpisodeQuery.content query)
                = true)).
  { rewrite <-lower_bound_predicate, <-upper_bound_predicate,
      <-context_predicate, <-records_content_predicate.
    unfold EpisodicMemory.matches_query.
    destruct (match EpisodeQuery.start_time query with
              | Some t => _ | None => false end).
    { split; [done|]. by intros (? & _). }
    destruct (match EpisodeQuery.end_time query with
              | Some t => _ | None => false end).
    { split; [done|]. by intros (_ & ? & _). }
    destruct (forallb _ _); simpl.
    2:{ split; [done|]. by intros (_ & _ & ? & _). }
    destruct (negb _ && negb (existsb _ _)).
    { split; [done|]. by intros (_ & _ & _ & ?). }
    done. }
  split; [exact Hspec|].
  intros Hnil Hne. apply not_true_is_false. intros Hm.
  apply Hspec in Hm as (_ & _ & _ & [?|(m & Hin & _)]); [done|].
  rewrite Hnil in Hin. by apply elem_of_nil in Hin.
Qed.

(** X16: [EpisodicMemory::search] returns each matching episode at most
    once, as its id with its Records.  Without a limit ([limit = 0]) it
    returns as many episodes as match, with a limit the smaller of the
    limit and that number.  A stored episode that matches and is not
    returned was cut off by the limit: the limit is then positive and the
    result has exactly [limit] entries. *)
Theorem episodic_search_returns_matches (s : EpisodicMemory.Impl)
    (query : EpisodeQuery.t) (limit : nat) (now : time_point) :
  (∀ id ms, (id, ms) ∈ (EpisodicMemory.search s query limit now).1 →
     ∃ episode, EpisodicMemory.episodes s !! id = Some episode ∧
                ms = EpisodicMemory.memories episode ∧
                EpisodicMemory.matches_query episode query = true) ∧
  NoDup (EpisodicMemory.search s query limit now).1.*1 ∧
  length (EpisodicMemory.search s query limit now).1
  = (if decide (limit = 0)
     then length (filter (λ kv : string * EpisodicMemory.Episode,
                            EpisodicMemory.matches_query kv.2 query = true)
                         (map_to_list (EpisodicMemory.episodes s)))
     else limit `min`
          length (filter (λ kv : string * EpisodicMemory.Episode,
                            EpisodicMemory.matches_query kv.2 query = true)
                         (map_to_list (EpisodicMemory.episodes s)))) ∧
  (0 < limit → length (EpisodicMemory.search s query limit now).1 ≤ limit) ∧
  (∀ id episode,
     EpisodicMemory.episodes s !! id = Some episode →
     EpisodicMemory.matches_query episode query = true →
     id ∉ (EpisodicMemory.search s query limit now).1.*1 →
     0 < limit ∧
     length (EpisodicMemory.search s query limit now).1 = limit).
Proof.
  split; [|split; [|split; [|split]]].
  - intros id ms. apply episodic_search_results.
  - unfold EpisodicMemory.search. cbn [fst].
    eapply sublist_NoDup; [|apply fmap_sublist, limit_results_sublist].
    rewrite std_sort_Permutation, <-list_fmap_compose.
    eapply sublist_NoDup; [|apply fmap_sublist, sublist_filter].
    apply NoDup_fst_map_to_list.
  - unfold EpisodicMemory.search. cbn [fst].
    rewrite limit_results_count.
    by rewrite (Permutation_length (std_sort_Permutation _ _)), length_fmap.
  - unfold EpisodicMemory.search. cbn [fst]. apply limit_results_length.
  - unfold EpisodicMemory.search. cbn [fst]. intros id episode Hid Hm Hnot.
    set (matched := (λ kv : string * EpisodicMemory.Episode,
                       (kv.1, EpisodicMemory.memories kv.2)) <$>
                    filter (λ kv : string * EpisodicMemory.Episode,
                              EpisodicMemory.matches_query kv.2 query = true)
                           (map_to_list (EpisodicMemory.episodes s))) in *.
    set (sorted := std_sort _ matched) in *.
    assert (Hin : (id, EpisodicMemory.memories episode) ∈ sorted).
    { unfold sorted. rewrite std_sort_Permutation. unfold matched.
      apply list_elem_of_fmap. exists (id, episode). split; [done|].
      apply list_elem_of_filter. split; [done|]. by apply elem_of_map_to_list. }
    destruct (limit_results_cases limit sorted) as [[Heq _]|(Heq & Hpos & Hlt)];
      rewrite Heq in *.
    { exfalso. apply Hnot, list_elem_of_fmap.
      exists (id, EpisodicMemory.memories episode). by split. }
    split; [done|]. rewrite length_take; lia.
Qed.

Lemma add_memory_first_record (s : EpisodicMemory.Impl) (episode_id : string)
    (episode : EpisodicMemory.Episode) (memory : Memory.t) :
  EpisodicMemory.episodes s !! episode_id = Some episode →
  EpisodicMemory.memories episode = [] →
  EpisodicMemory.add_memory s episode_id memory
  = (true,
     EpisodicMemory.with_episodes s
       (<[episode_id :=
            EpisodicMemory.mkEpisode
              (EpisodicMemory.id episode) (EpisodicMemory.timestamp episode)
              [memory] (EpisodicMemory.context episode)
              (EpisodicMemory.calculate_memory_importance memory)
              (EpisodicMemory.access_count episode)
              (EpisodicMemory.last_accessed episode)]>
          (EpisodicMemory.episodes s))).
Proof.
  intros He Hnil. unfold EpisodicMemory.add_memory. rewrite He.
  set (kept := if decide (EpisodicMemory.max_memories_per_episode s
                          ≤ length (EpisodicMemory.memories episode))
               then EpisodicMemory.prune_memories s episode else episode).
  assert (Hkept : kept = episode).
  { unfold kept. case_decide; [|done].
    pose proof (prune_memories_length s episode) as Hlen.
    rewrite Hnil in Hlen. apply nil_length_inv in Hlen.
    unfold EpisodicMemory.prune_memories in *. cbn zeta in *.
    cbn [EpisodicMemory.memories EpisodicMemory.set_memories] in Hlen.
    rewrite Hlen. destruct episode. by simplify_eq/=. }
  rewrite Hkept, Hnil. do 3 f_equal.
  unfold EpisodicMemory.update_episode_importance, EpisodicMemory.set_importance,
    EpisodicMemory.set_memories. cbn. f_equal.
  destruct (decide ([memory] = [])); lra.
Qed.

(** X17: before the id counter wraps, and in a store whose ids all came
    from [generate_id], an episode that was created and given one Record is
    recalled with exactly this Record, whatever the limits of the store
    are; its importance is that of the Record, and the recall is its first
    access. *)
Theorem create_add_recall_round_trip (s : EpisodicMemory.Impl)
    (context : gmap string string) (memory : Memory.t) (now now' : time_point) :
  EpisodicMemory.ids_issued s →
  (EpisodicMemory.counter s + 1 < size_t_modulus)%N →
  (EpisodicMemory.add_memory (EpisodicMemory.create_episode s context now).2
     (EpisodicMemory.create_episode s context now).1 memory).1 = true ∧
  (EpisodicMemory.recall_episode
     (EpisodicMemory.add_memory (EpisodicMemory.create_episode s context now).2
        (EpisodicMemory.create_episode s context now).1 memory).2
     (EpisodicMemory.create_episode s context now).1 now').1
  = Some [memory] ∧
  EpisodicMemory.episodes
    (EpisodicMemory.recall_episode
       (EpisodicMemory.add_memory (EpisodicMemory.create_episode s context now).2
          (EpisodicMemory.create_episode s context now).1 memory).2
       (EpisodicMemory.create_episode s context now).1 now').2
    !! (EpisodicMemory.create_episode s context now).1
  = Some (EpisodicMemory.mkEpisode
            (EpisodicMemory.create_episode s context now).1 now [memory] context
            (EpisodicMemory.calculate_memory_importance memory) 1%N now').
Proof.
  intros Hi Hc.
  destruct (create_episode_fresh s context now Hi Hc) as (_ & Hnew).
  set (id := (EpisodicMemory.create_episode s context now).1) in *.
  set (s1 := (EpisodicMemory.create_episode s context now).2) in *.
  rewrite (add_memory_first_record s1 id _ memory Hnew eq_refl).
  cbn [fst snd EpisodicMemory.id EpisodicMemory.timestamp EpisodicMemory.context
       EpisodicMemory.access_count EpisodicMemory.last_accessed].
  split; [done|].
  unfold EpisodicMemory.recall_episode.
  cbn [EpisodicMemory.episodes EpisodicMemory.with_episodes].
  rewrite lookup_insert_eq.
  cbn [fst snd EpisodicMemory.episodes EpisodicMemory.with_episodes
       EpisodicMemory.touch EpisodicMemory.memories EpisodicMemory.id
       EpisodicMemory.timestamp EpisodicMemory.context EpisodicMemory.importance
       EpisodicMemory.access_count EpisodicMemory.last_accessed].
  split; [done|]. by rewrite lookup_insert_eq.
Qed.

(** ** SemanticMemory: nodes and their ids *)

Lemma prune_nodes_lookup_Some (s : SemanticMemory.Impl) (now : time_point) k n :
  SemanticMemory.nodes (SemanticMemory.prune_nodes s now) !! k = Some n →
  SemanticMemory.nodes s !! k = Some n.
Proof. apply erase_lowest_lookup_Some. Qed.

Lemma semantic_ids_issued_fresh (s : SemanticMemory.Impl) :
  SemanticMemory.ids_issued s →
  SemanticMemory.nodes s !! ("sem_" +:+ pretty (SemanticMemory.counter s + 1)%N)
  = None.
Proof.
  intros Hi. apply eq_None_not_Some. intros Hs.
  destruct (Hi _ Hs) as (n & Hn & Heq). apply prefixed_inj in Heq. lia.
Qed.

(** X18: in a store whose ids all came from [generate_id], and before the
    64-bit counter wraps, [create_node] returns an id that no node has:
    ["sem_"] and the next counter value.  [get_node] on this id then
    returns the concept and the attributes of the call with importance 0,
    and counts as the first access of the node, which has no
    relationships.  [create_node] changes no other node; it removes one
    only when the store is full, and from capacity 10 on the store then
    holds at most [capacity] nodes. *)
Theorem create_node_get_node_round_trip (s : SemanticMemory.Impl)
    (concept : string) (attributes : gmap string string) (now now' : time_point) :
  SemanticMemory.ids_issued s →
  (SemanticMemory.counter s + 1 < size_t_modulus)%N →
  (SemanticMemory.create_node s concept attributes now).1
  = "sem_" +:+ pretty (SemanticMemory.counter s + 1)%N ∧
  SemanticMemory.nodes s !! (SemanticMemory.create_node s concept attributes now).1
  = None ∧
  (SemanticMemory.get_node (SemanticMemory.create_node s concept attributes now).2
     (SemanticMemory.create_node s concept attributes now).1 now').1
  = Some (SemanticNode.mk (SemanticMemory.create_node s concept attributes now).1
                          concept attributes 0%R) ∧
  SemanticMemory.nodes
    (SemanticMemory.get_node (SemanticMemory.create_node s concept attributes now).2
       (SemanticMemory.create_node s concept attributes now).1 now').2
    !! (SemanticMemory.create_node s concept attributes now).1
  = Some (SemanticMemory.mkNode
            (SemanticMemory.create_node s concept attributes now).1
            concept attributes [] 0%R 1%N now now') ∧
  SemanticMemory.ids_issued (SemanticMemory.create_node s concept attributes now).2 ∧
  (∀ k n, k ≠ (SemanticMemory.create_node s concept attributes now).1 →
     SemanticMemory.nodes (SemanticMemory.create_node s concept attributes now).2 !! k
     = Some n →
     SemanticMemory.nodes s !! k = Some n) ∧
  (size (SemanticMemory.nodes s) < SemanticMemory.capacity s →
   size (SemanticMemory.nodes (SemanticMemory.create_node s concept attributes now).2)
   = S (size (SemanticMemory.nodes s)) ∧
   ∀ k, k ≠ (SemanticMemory.create_node s concept attributes now).1 →
     SemanticMemory.nodes (SemanticMemory.create_node s concept attributes now).2 !! k
     = SemanticMemory.nodes s !! k) ∧
  (10 ≤ SemanticMemory.capacity s →
   size (SemanticMemory.nodes (SemanticMemory.create_node s concept attributes now).2)
   ≤ SemanticMemory.capacity s).
Proof.
  intros Hi Hc. pose proof (semantic_ids_issued_fresh s Hi) as Hfresh.
  pose proof (create_node_within_capacity s concept attributes now) as Hcap.
  set (s0 := if decide (SemanticMemory.capacity s ≤ size (SemanticMemory.nodes s))
             then SemanticMemory.prune_nodes s now else s).
  assert (Hsub : ∀ k n, SemanticMemory.nodes s0 !! k = Some n →
                        SemanticMemory.nodes s !! k = Some n).
  { intros k n. unfold s0. case_decide; [apply prune_nodes_lookup_Some | done]. }
  assert (Hcnt : SemanticMemory.counter s0 = SemanticMemory.counter s).
  { unfold s0. by case_decide. }
  assert (Hfresh0 : SemanticMemory.nodes s0
                      !! ("sem_" +:+ pretty (SemanticMemory.counter s + 1)%N) = None).
  { apply eq_None_not_Some. intros [n Hn]. apply Hsub in Hn. congruence. }
  assert (Hcall : SemanticMemory.create_node s concept attributes now
                  = ("sem_" +:+ pretty (SemanticMemory.counter s + 1)%N,
                     SemanticMemory.mkImpl
                       (<["sem_" +:+ pretty (SemanticMemory.counter s + 1)%N
                          := SemanticMemory.mkNode
                               ("sem_" +:+ pretty (SemanticMemory.counter s + 1)%N)
                               concept attributes [] 0%R 0%N now now]>
                          (SemanticMemory.nodes s0))
                       (SemanticMemory.capacity s0)
                       (SemanticMemory.counter s + 1)%N)).
  { unfold SemanticMemory.create_node, SemanticMemory.generate_id.
    fold s0. rewrite Hcnt, (incr_size_t_small _ Hc), Hfresh0. reflexivity. }
  rewrite Hcall in *. cbn [fst snd SemanticMemory.nodes SemanticMemory.counter] in *.
  unfold SemanticMemory.get_node. cbn [SemanticMemory.nodes].
  rewrite lookup_insert_eq.
  cbn [fst snd SemanticMemory.nodes SemanticMemory.with_nodes].
  split; [done|]. split; [done|]. split; [done|].
  split; [by rewrite lookup_insert_eq|]. split; [|split; [|split; [|done]]].
  - intros k. unfold SemanticMemory.ids_issued.
    cbn [SemanticMemory.nodes SemanticMemory.counter].
    rewrite lookup_insert_is_Some. intros [<-|[_ [n Hn]]].
    + exists (SemanticMemory.counter s + 1)%N. split; [lia | done].
    + destruct (Hi k) as (n' & Hn' & ->); [by apply Hsub in Hn; eauto|].
      exists n'. split; [lia | done].
  - intros k n Hk. rewrite lookup_insert_ne by done. apply Hsub.
  - intros Hroom. unfold s0. rewrite decide_False by lia.
    split; [by apply map_size_insert_None|].
    intros k Hk. by rewrite lookup_insert_ne.
Qed.


(** X20: [update_node_importance] stores an importance between 0 and 1 as
    it is, one below 0 as 0 and one above 1 as 1.  (A NaN is in none of the
    three cases: no comparison holds of it.)  Nothing else of the node
    changes, no other node changes, and a call on an id that is not stored
    changes nothing. *)
Theorem update_node_importance_clamps (s : SemanticMemory.Impl) (id : string)
    (importance : R) :
  (SemanticMemory.nodes s !! id = None →
   SemanticMemory.update_node_importance s id importance = s) ∧
  (∀ node, SemanticMemory.nodes s !! id = Some node →
     ∃ x, SemanticMemory.nodes (SemanticMemory.update_node_importance s id importance)
            !! id
          = Some (SemanticMemory.mkNode
                    (SemanticMemory.id node) (SemanticMemory.concept node)
                    (SemanticMemory.attributes node)
                    (SemanticMemory.relationships node) x
                    (SemanticMemory.access_count node)
                    (SemanticMemory.created node)
                    (SemanticMemory.last_accessed node)) ∧
          ((0 <= importance <= 1)%R → x = importance) ∧
          ((importance < 0)%R → x = 0%R) ∧
          ((1 < importance)%R → x = 1%R)) ∧
  (∀ k, k ≠ id →
     SemanticMemory.nodes (SemanticMemory.update_node_importance s id importance) !! k
     = SemanticMemory.nodes s !! k) ∧
  size (SemanticMemory.nodes (SemanticMemory.update_node_importance s id importance))
  = size (SemanticMemory.nodes s).
Proof.
  unfold SemanticMemory.update_node_importance. cbn [SemanticMemory.nodes
    SemanticMemory.with_nodes].
  split; [|split; [|split]].
  - intros Hn. destruct s as [ns c n]. unfold SemanticMemory.with_nodes.
    cbn in *. f_equal. apply map_eq. intros k. destruct (decide (k = id)) as [->|Hk].
    + by rewrite lookup_alter_eq, Hn.
    + by rewrite lookup_alter_ne.
  - intros node Hn. exists (SemanticMemory.clamp01 importance).
    rewrite lookup_alter_eq, Hn. split; [done|].
    unfold SemanticMemory.clamp01. repeat split; intros; repeat case_decide; lra.
  - intros k Hk. by rewrite lookup_alter_ne.
  - rewrite <-!size_dom. f_equal. apply set_eq. intros k.
    rewrite !elem_of_dom. destruct (decide (k = id)) as [->|Hk].
    + rewrite lookup_alter_eq. by rewrite fmap_is_Some.
    + by rewrite lookup_alter_ne.
Qed.

(** ** SemanticMemory: relationships *)

Lemma NoDup_fst_functional {A B} (l : list (A * B)) (k : A) (x y : B) :
  NoDup l.*1 → (k, x) ∈ l → (k, y) ∈ l → x = y.
Proof.
  induction l as [|[k' z] l IH]; cbn [fmap list_fmap fst].
  - intros _ Hx. by apply elem_of_nil in Hx.
  - intros [Hk Hnd]%NoDup_cons [Hx|Hx]%elem_of_cons [Hy|Hy]%elem_of_cons.
    + congruence.
    + injection Hx as -> ->. exfalso. apply Hk, list_elem_of_fmap.
      by exists (k', y).
    + injection Hy as -> ->. exfalso. apply Hk, list_elem_of_fmap.
      by exists (k', x).
    + by apply IH.
Qed.

Lemma overwrite_strength_fst (to_id : string) (strength : R)
    (rels rels' : list (string * R)) :
  SemanticMemory.overwrite_strength to_id strength rels = Some rels' →
  rels'.*1 = rels.*1.
Proof.
  revert rels'. induction rels as [|rel rels IH]; intros rels'; simpl; [done|].
  case_decide.
  - by intros [= <-].
  - destruct (SemanticMemory.overwrite_strength to_id strength rels) as [r|];
      [|done].
    intros [= <-]. cbn. f_equal. by apply IH.
Qed.

Lemma edges_after_NoDup (to_id : string) (strength : R) (rels : list (string * R)) :
  NoDup rels.*1 → NoDup (SemanticMemory.edges_after to_id strength rels).*1.
Proof.
  intros Hnd. unfold SemanticMemory.edges_after.
  destruct (SemanticMemory.overwrite_strength to_id strength rels) as [rels'|] eqn:Ho.
  - by rewrite (overwrite_strength_fst _ _ _ _ Ho).
  - rewrite fmap_app. apply NoDup_app. split; [done|]. split; [|apply NoDup_singleton].
    intros k Hk ->%list_elem_of_singleton.
    apply list_elem_of_fmap in Hk as (rel & Heq & Hin).
    by apply (proj1 (overwrite_strength_None _ _ _) Ho rel).
Qed.

Lemma edges_after_new (to_id : string) (strength : R) (rels : list (string * R)) :
  (to_id, strength) ∈ SemanticMemory.edges_after to_id strength rels.
Proof.
  unfold SemanticMemory.edges_after.
  destruct (SemanticMemory.overwrite_strength to_id strength rels) as [rels'|] eqn:Ho.
  - destruct (overwrite_strength_Some _ _ _ _ Ho) as (_ & (i & Hf & _) & _).
    apply list_find_Some in Hf as (Hi & _). by eapply list_elem_of_lookup_2.
  - apply elem_of_app. right. by apply list_elem_of_singleton.
Qed.

Lemma edges_after_others (to_id : string) (strength : R)
    (rels : list (string * R)) (t : string) (x : R) :
  t ≠ to_id → (t, x) ∈ SemanticMemory.edges_after to_id strength rels ↔ (t, x) ∈ rels.
Proof.
  intros Ht.
  assert (Hfilter : ∀ l : list (string * R),
            (t, x) ∈ l ↔ (t, x) ∈ filter (λ rel : string * R, rel.1 ≠ to_id) l).
  { intros l. rewrite list_elem_of_filter. cbn. tauto. }
  unfold SemanticMemory.edges_after.
  destruct (SemanticMemory.overwrite_strength to_id strength rels) as [rels'|] eqn:Ho.
  - destruct (overwrite_strength_Some _ _ _ _ Ho) as (_ & _ & Hf).
    by rewrite (Hfilter rels'), Hf, <-Hfilter.
  - rewrite elem_of_app, list_elem_of_singleton. split; [|auto].
    intros [?|[= ? _]]; done.
Qed.

Lemma add_relationship_success (s : SemanticMemory.Impl) (from_id to_id : string)
    (strength : R) (from target : SemanticMemory.Node) :
  SemanticMemory.nodes s !! from_id = Some from →
  SemanticMemory.nodes s !! to_id = Some target →
  SemanticMemory.add_relationship s from_id to_id strength
  = (true, SemanticMemory.with_nodes s
             (<[from_id := SemanticMemory.set_relationships from
                             (SemanticMemory.edges_after to_id strength
                                (SemanticMemory.relationships from))]>
                (SemanticMemory.nodes s))).
Proof.
  intros Hf Ht. unfold SemanticMemory.add_relationship. by rewrite Hf, Ht.
Qed.

Lemma add_relationship_failure (s : SemanticMemory.Impl) (from_id to_id : string)
    (strength : R) :
  SemanticMemory.nodes s !! from_id = None ∨ SemanticMemory.nodes s !! to_id = None →
  SemanticMemory.add_relationship s from_id to_id strength = (false, s).
Proof.
  unfold SemanticMemory.add_relationship. intros [H|H]; rewrite H; [done|].
  by destruct (SemanticMemory.nodes s !! from_id).
Qed.

(** X21: [add_relationship] succeeds exactly when both nodes are stored, and
    a call that fails changes nothing.  A call that succeeds changes only
    the relationships of the source node: the target node (unless it is the
    source itself) and all other nodes stay as they were, so the edge is
    directed.  In a store where no node has two edges to one target this
    stays so, and afterwards the source has exactly one edge to the target,
    with the given strength, and its edges to other targets as before. *)
Theorem add_relationship_changes_one_edge (s : SemanticMemory.Impl)
    (from_id to_id : string) (strength : R) :
  SemanticMemory.single_edges s →
  ((SemanticMemory.add_relationship s from_id to_id strength).1 = true ↔
   is_Some (SemanticMemory.nodes s !! from_id) ∧
   is_Some (SemanticMemory.nodes s !! to_id)) ∧
  ((SemanticMemory.add_relationship s from_id to_id strength).1 = false →
   (SemanticMemory.add_relationship s from_id to_id strength).2 = s) ∧
  SemanticMemory.single_edges
    (SemanticMemory.add_relationship s from_id to_id strength).2 ∧
  (∀ k, k ≠ from_id →
     SemanticMemory.nodes
       (SemanticMemory.add_relationship s from_id to_id strength).2 !! k
     = SemanticMemory.nodes s !! k) ∧
  (∀ from, SemanticMemory.nodes s !! from_id = Some from →
     (SemanticMemory.add_relationship s from_id to_id strength).1 = true →
     ∃ rels,
       SemanticMemory.nodes
         (SemanticMemory.add_relationship s from_id to_id strength).2 !! from_id
       = Some (SemanticMemory.set_relationships from rels) ∧
       (∀ x, (to_id, x) ∈ rels ↔ x = strength) ∧
       (∀ t x, t ≠ to_id →
          (t, x) ∈ rels ↔ (t, x) ∈ SemanticMemory.relationships from)) ∧
  size (SemanticMemory.nodes
          (SemanticMemory.add_relationship s from_id to_id strength).2)
  = size (SemanticMemory.nodes s).
Proof.
  intros Hse.
  destruct (SemanticMemory.nodes s !! from_id) as [from|] eqn:Hf.
  2:{ rewrite add_relationship_failure by auto. cbn [fst snd].
      split; [split; [done | by intros [[? ?] _]]|].
      split; [done|]. split; [done|]. split; [done|]. split; [done|]. done. }
  destruct (SemanticMemory.nodes s !! to_id) as [target|] eqn:Ht.
  2:{ rewrite add_relationship_failure by auto. cbn [fst snd].
      split; [split; [done | by intros [_ [? ?]]]|].
      split; [done|]. split; [done|]. split; [done|]. split; [done|]. done. }
  rewrite (add_relationship_success s from_id to_id strength from target Hf Ht).
  cbn [fst snd SemanticMemory.nodes SemanticMemory.with_nodes].
  pose proof (map_Forall_lookup_1 _ _ _ _ Hse Hf) as Hnd. cbn beta in Hnd.
  split; [split; eauto|]. split; [done|]. split; [|split; [|split]].
  - unfold SemanticMemory.single_edges. cbn [SemanticMemory.nodes].
    apply map_Forall_insert_2; [|done]. by apply edges_after_NoDup.
  - intros k Hk. by rewrite lookup_insert_ne.
  - intros ? [= <-] _. eexists. split; [apply lookup_insert_eq|]. split.
    + intros x. split; [|intros ->; apply edges_after_new].
      intros Hx. eapply NoDup_fst_functional;
        [by apply edges_after_NoDup | exact Hx | apply edges_after_new].
    + intros t x. apply edges_after_others.
  - by apply map_size_insert_Some.
Qed.

Lemma omap_length_le {A B} (f : A → option B) (l : list A) :
  length (omap f l) ≤ length l.
Proof.
  induction l as [|x l IH]; [done|]. cbn. destruct (f x); cbn; lia.
Qed.

Lemma related_lookup (s : SemanticMemory.Impl) (min_strength : R)
    (rels : list (string * R)) (r : SemanticNode.t) :
  r ∈ omap (λ rel : string * R,
              if decide (rel.2 >= min_strength)%R
              then SemanticMemory.convert_to_semantic_node
                     <$> SemanticMemory.nodes s !! rel.1
              else None) rels
  ↔ ∃ rel target, rel ∈ rels ∧ (rel.2 >= min_strength)%R ∧
                  SemanticMemory.nodes s !! rel.1 = Some target ∧
                  r = SemanticMemory.convert_to_semantic_node target.
Proof.
  rewrite list_elem_of_omap. split.
  - intros (rel & Hin & Hr). case_decide as Hge; [|done].
    apply fmap_Some in Hr as (target & Ht & ->). eauto 6.
  - intros (rel & target & Hin & Hge & Ht & ->). exists rel. split; [done|].
    rewrite decide_True by done. by rewrite Ht.
Qed.

Lemma related_sorted (rels : list (string * R)) (l : list SemanticNode.t) :
  StronglySorted
    (λ a b : SemanticNode.t,
       (SemanticMemory.find_strength rels (SemanticNode.id b)
        <= SemanticMemory.find_strength rels (SemanticNode.id a))%R)
    (std_sort (λ a b : SemanticNode.t,
                 (SemanticMemory.find_strength rels (SemanticNode.id a)
                  > SemanticMemory.find_strength rels (SemanticNode.id b))%R) l).
Proof.
  apply (std_sort_descending
           (λ a : SemanticNode.t,
              SemanticMemory.find_strength rels (SemanticNode.id a))).
Qed.

Lemma related_nodes_are_targets (s : SemanticMemory.Impl) (id : string)
    (min_strength : R) (limit : nat) (r : SemanticNode.t) :
  r ∈ SemanticMemory.get_related_nodes s id min_strength limit →
  ∃ node rel target,
    SemanticMemory.nodes s !! id = Some node ∧
    rel ∈ SemanticMemory.relationships node ∧
    (rel.2 >= min_strength)%R ∧
    SemanticMemory.nodes s !! rel.1 = Some target ∧
    r = SemanticMemory.convert_to_semantic_node target.
Proof.
  unfold SemanticMemory.get_related_nodes.
  destruct (SemanticMemory.nodes s !! id) as [node|] eqn:Hn;
    [|by intros Hr%elem_of_nil].
  intros Hr. eapply elem_of_sublist in Hr; [|apply limit_results_sublist].
  rewrite std_sort_Permutation in Hr.
  apply related_lookup in Hr as (rel & target & ?). exists node, rel, target.
  tauto.
Qed.

(** X22: [get_related_nodes] returns nothing for an id that is not stored.
    For a stored node every result is the target of one of its edges with
    a strength of at least [min_strength], and a target that is still
    stored; an edge to a node that is gone is skipped.  The results stand
    in order of non-increasing strength of the first edge to their id and
    are at most [limit] for a positive limit.  The target of an edge that
    is strong enough is among the results unless the limit cut them. *)
Theorem get_related_nodes_follows_edges (s : SemanticMemory.Impl) (id : string)
    (min_strength : R) (limit : nat) :
  (SemanticMemory.nodes s !! id = None →
   SemanticMemory.get_related_nodes s id min_strength limit = []) ∧
  (∀ r, r ∈ SemanticMemory.get_related_nodes s id min_strength limit →
     ∃ node rel target,
       SemanticMemory.nodes s !! id = Some node ∧
       rel ∈ SemanticMemory.relationships node ∧
       (rel.2 >= min_strength)%R ∧
       SemanticMemory.nodes s !! rel.1 = Some target ∧
       r = SemanticMemory.convert_to_semantic_node target) ∧
  (∀ node rel target,
     SemanticMemory.nodes s !! id = Some node →
     rel ∈ SemanticMemory.relationships node →
     (rel.2 >= min_strength)%R →
     SemanticMemory.nodes s !! rel.1 = Some target →
     SemanticMemory.convert_to_semantic_node target
       ∈ SemanticMemory.get_related_nodes s id min_strength limit ∨
     (0 < limit ∧
      length (SemanticMemory.get_related_nodes s id min_strength limit) = limit)) ∧
  (∀ node i j a b,
     SemanticMemory.nodes s !! id = Some node → i < j →
     SemanticMemory.get_related_nodes s id min_strength limit !! i = Some a →
     SemanticMemory.get_related_nodes s id min_strength limit !! j = Some b →
     (SemanticMemory.find_strength (SemanticMemory.relationships node)
                                   (SemanticNode.id b)
      <= SemanticMemory.find_strength (SemanticMemory.relationships node)
                                      (SemanticNode.id a))%R) ∧
  (0 < limit →
   length (SemanticMemory.get_related_nodes s id min_strength limit) ≤ limit) ∧
  (∀ node, SemanticMemory.nodes s !! id = Some node →
     length (SemanticMemory.get_related_nodes s id min_strength limit)
     ≤ length (SemanticMemory.relationships node)).
Proof.
  unfold SemanticMemory.get_related_nodes.
  destruct (SemanticMemory.nodes s !! id) as [node|] eqn:Hn.
  2:{ split; [done|]. split; [by intros r Hr%elem_of_nil|].
      split; [done|]. split; [done|]. split; [simpl; lia | done]. }
  split; [done|]. split; [|split; [|split; [|split]]].
  - intros r Hr. eapply elem_of_sublist in Hr; [|apply limit_results_sublist].
    rewrite std_sort_Permutation in Hr.
    apply related_lookup in Hr as (rel & target & ?). exists node, rel, target.
    tauto.
  - intros ? rel target [= <-] Hin Hge Ht.
    match goal with |- context [limit_results limit ?l] => set (sorted := l) end.
    assert (Hs : SemanticMemory.convert_to_semantic_node target ∈ sorted).
    { unfold sorted. rewrite std_sort_Permutation. apply related_lookup. eauto 6. }
    destruct (limit_results_cases limit sorted) as [[-> _]|(-> & Hpos & Hlt)];
      [by left|].
    right. split; [done|]. rewrite length_take. lia.
  - intros ? i j a b [= <-] Hij Hi%limit_results_lookup Hj%limit_results_lookup.
    exact (StronglySorted_lookup _ _ _ _ _ _ (related_sorted _ _) Hij Hi Hj).
  - apply limit_results_length.
  - intros ? [= <-].
    etransitivity; [apply sublist_length, limit_results_sublist|].
    rewrite std_sort_Permutation. apply omap_length_le.
Qed.

(** ** SemanticMemory: search *)

Lemma foldl_alter_lookup {V A} (f : V → V) (key : A → string)
    (m : gmap string V) (l : list A) (k : string) :
  NoDup (key <$> l) →
  foldl (λ acc result, alter f (key result) acc) m l !! k
  = if decide (k ∈ key <$> l) then f <$> m !! k else m !! k.
Proof.
  revert m. induction l as [|a l IH]; intros m Hnd; simpl.
  - destruct (decide (k ∈ [])) as [H|H]; [by apply elem_of_nil in H | done].
  - apply NoDup_cons in Hnd as [Ha Hnd]. rewrite IH by done.
    destruct (decide (k = key a)) as [->|Hne].
    + rewrite (decide_False _ _ Ha), (decide_True _ _ (list_elem_of_here _ _)).
      apply lookup_alter_eq.
    + rewrite lookup_alter_ne by done.
      destruct (decide (k ∈ key <$> l)) as [Hin|Hnin].
      * rewrite decide_True; [done | by right].
      * rewrite decide_False; [done|]. intros Hin.
        apply elem_of_cons in Hin as [?|?]; done.
Qed.

Lemma semantic_matches_query_spec (node : SemanticMemory.Node)
    (query : SemanticQuery.t) :
  SemanticMemory.matches_query node query = true ↔
    (SemanticQuery.concept query = "" ∨
     SemanticMemory.concept node = SemanticQuery.concept query) ∧
    SemanticQuery.attributes query ⊆ SemanticMemory.attributes node.
Proof.
  rewrite <-context_predicate. unfold SemanticMemory.matches_query.
  destruct (String.eqb_spec (SemanticQuery.concept query) "") as [Hq|Hq];
    cbn [negb andb].
  - destruct (forallb _ _); cbn [negb]; split; try done; [auto | by intros [_ ?]].
  - destruct (String.eqb_spec (SemanticMemory.concept node)
                              (SemanticQuery.concept query)) as [Hc|Hc];
      cbn [negb].
    + destruct (forallb _ _); cbn [negb]; split; try done; [auto | by intros [_ ?]].
    + split; [done|]. by intros [[?|?] _].
Qed.

Lemma semantic_search_results (s : SemanticMemory.Impl) (query : SemanticQuery.t)
    (limit : nat) (now : time_point) (r : SemanticNode.t) :
  SemanticMemory.keyed_by_id s →
  r ∈ (SemanticMemory.search s query limit now).1 →
  ∃ node, SemanticMemory.nodes s !! SemanticNode.id r = Some node ∧
          r = SemanticMemory.convert_to_semantic_node node ∧
          SemanticMemory.matches_query node query = true.
Proof.
  intros Hkey. unfold SemanticMemory.search. cbn [fst]. intros Hin.
  eapply elem_of_sublist in Hin; [|apply limit_results_sublist].
  rewrite std_sort_Permutation in Hin.
  apply list_elem_of_fmap in Hin as (node & -> & Hin).
  apply list_elem_of_filter in Hin as [Hm Hin].
  apply list_elem_of_fmap in Hin as ([k n] & -> & Hin).
  apply elem_of_map_to_list in Hin. exists n. cbn [snd] in *.
  split; [|done]. cbn. by rewrite (Hkey _ _ Hin).
Qed.

Lemma semantic_search_NoDup (s : SemanticMemory.Impl) (query : SemanticQuery.t)
    (limit : nat) (now : time_point) :
  SemanticMemory.keyed_by_id s →
  NoDup (SemanticNode.id <$> (SemanticMemory.search s query limit now).1).
Proof.
  intros Hkey. unfold SemanticMemory.search. cbn [fst].
  eapply sublist_NoDup; [|apply fmap_sublist, limit_results_sublist].
  rewrite std_sort_Permutation, <-list_fmap_compose.
  eapply sublist_NoDup; [|apply fmap_sublist, sublist_filter].
  rewrite <-list_fmap_compose.
  replace ((SemanticNode.id ∘ SemanticMemory.convert_to_semantic_node) ∘ snd
             <$> map_to_list (SemanticMemory.nodes s))
    with ((map_to_list (SemanticMemory.nodes s)).*1).
  { apply NoDup_fst_map_to_list. }
  apply list_fmap_ext. intros i [k n] Hin%list_elem_of_lookup_2.
  apply elem_of_map_to_list in Hin. cbn. symmetry. by apply Hkey.
Qed.

(** X23: in a store whose keys are the ids of their nodes,
    [SemanticMemory::search] returns each node at most once, and only nodes
    that have the concept of the query, when it gives one, and all its
    attributes.  Without a limit ([limit = 0]) it returns as many nodes as
    match, with a limit the smaller of the limit and that number; a stored
    node that matches and is not returned was cut off by the limit.  The
    call increments the access count of the nodes it returns and sets
    their last access; it changes nothing else. *)
Theorem semantic_search_returns_matches (s : SemanticMemory.Impl)
    (query : SemanticQuery.t) (limit : nat) (now : time_point) :
  SemanticMemory.keyed_by_id s →
  (∀ r, r ∈ (SemanticMemory.search s query limit now).1 →
     ∃ node, SemanticMemory.nodes s !! SemanticNode.id r = Some node ∧
             r = SemanticMemory.convert_to_semantic_node node ∧
             (SemanticQuery.concept query = "" ∨
              SemanticMemory.concept node = SemanticQuery.concept query) ∧
             SemanticQuery.attributes query ⊆ SemanticMemory.attributes node) ∧
  NoDup (SemanticNode.id <$> (SemanticMemory.search s query limit now).1) ∧
  length (SemanticMemory.search s query limit now).1
  = (if decide (limit = 0)
     then length (filter (λ node, SemanticMemory.matches_query node query = true)
                         (snd <$> map_to_list (SemanticMemory.nodes s)))
     else limit `min`
          length (filter (λ node, SemanticMemory.matches_query node query = true)
                         (snd <$> map_to_list (SemanticMemory.nodes s)))) ∧
  (0 < limit → length (SemanticMemory.search s query limit now).1 ≤ limit) ∧
  (∀ k node,
     SemanticMemory.nodes s !! k = Some node →
     (SemanticQuery.concept query = "" ∨
      SemanticMemory.concept node = SemanticQuery.concept query) →
     SemanticQuery.attributes query ⊆ SemanticMemory.attributes node →
     k ∉ SemanticNode.id <$> (SemanticMemory.search s query limit now).1 →
     0 < limit ∧
     length (SemanticMemory.search s query limit now).1 = limit) ∧
  (∀ k, SemanticMemory.nodes (SemanticMemory.search s query limit now).2 !! k
        = if decide (k ∈ SemanticNode.id
                           <$> (SemanticMemory.search s query limit now).1)
          then SemanticMemory.touch now <$> SemanticMemory.nodes s !! k
          else SemanticMemory.nodes s !! k) ∧
  SemanticMemory.capacity (SemanticMemory.search s query limit now).2
  = SemanticMemory.capacity s ∧
  SemanticMemory.counter (SemanticMemory.search s query limit now).2
  = SemanticMemory.counter s.
Proof.
  intros Hkey.
  split; [|split; [|split; [|split; [|split; [|split; [|split; reflexivity]]]]]].
  - intros r Hr.
    destruct (semantic_search_results s query limit now r Hkey Hr)
      as (node & Hn & -> & Hm).
    apply semantic_matches_query_spec in Hm as [? ?]. eauto.
  - by apply semantic_search_NoDup.
  - unfold SemanticMemory.search. cbn [fst].
    rewrite limit_results_count.
    by rewrite (Permutation_length (std_sort_Permutation _ _)), length_fmap.
  - unfold SemanticMemory.search. cbn [fst]. apply limit_results_length.
  - unfold SemanticMemory.search. cbn [fst]. intros k node Hk Hc Ha Hnot.
    assert (Hm : SemanticMemory.matches_query node query = true)
      by (by apply semantic_matches_query_spec).
    set (matched := SemanticMemory.convert_to_semantic_node <$>
                    filter (λ node, SemanticMemory.matches_query node query = true)
                           (snd <$> map_to_list (SemanticMemory.nodes s))) in *.
    set (sorted := std_sort _ matched) in *.
    assert (Hin : SemanticMemory.convert_to_semantic_node node ∈ sorted).
    { unfold sorted. rewrite std_sort_Permutation. unfold matched.
      apply list_elem_of_fmap. exists node. split; [done|].
      apply list_elem_of_filter. split; [done|].
      apply list_elem_of_fmap. exists (k, node). split; [done|].
      by apply elem_of_map_to_list. }
    assert (Hid : SemanticNode.id (SemanticMemory.convert_to_semantic_node node) = k)
      by (cbn; by apply Hkey).
    destruct (limit_results_cases limit sorted) as [[Heq _]|(Heq & Hpos & Hlt)];
      rewrite Heq in *.
    { exfalso. apply Hnot, list_elem_of_fmap. eexists. split; [|exact Hin]. done. }
    split; [done|]. rewrite length_take; lia.
  - intros k. pose proof (semantic_search_NoDup s query limit now Hkey) as Hnd.
    unfold SemanticMemory.search in *. cbn [fst snd] in *.
    cbn [SemanticMemory.nodes SemanticMemory.with_nodes].
    by apply foldl_alter_lookup.
Qed.

(** ** SemanticMemory: what the operations keep *)

Lemma new_well_formed (capacity : nat) :
  SemanticMemory.well_formed (SemanticMemory.new capacity).
Proof.
  split; [|split].
  - apply map_Forall_empty.
  - apply map_Forall_empty.
  - intros k [n Hn]. cbn in Hn. by rewrite lookup_empty in Hn.
Qed.

(** An operation that issues no id and gives each node it keeps the id and
    the edge targets it had. *)
Lemma well_formed_update (s : SemanticMemory.Impl)
    (ns : gmap string SemanticMemory.Node) (capacity : nat) :
  (∀ k n', ns !! k = Some n' →
     ∃ n, SemanticMemory.nodes s !! k = Some n ∧
          SemanticMemory.id n' = SemanticMemory.id n ∧
          (NoDup (SemanticMemory.relationships n).*1 →
           NoDup (SemanticMemory.relationships n').*1)) →
  SemanticMemory.well_formed s →
  SemanticMemory.well_formed
    (SemanticMemory.mkImpl ns capacity (SemanticMemory.counter s)).
Proof.
  intros Hns (Hkey & Hse & Hi). split; [|split].
  - intros k n' Hk. destruct (Hns k n' Hk) as (n & Hn & Hid & _).
    rewrite Hid. by apply Hkey.
  - intros k n' Hk. destruct (Hns k n' Hk) as (n & Hn & _ & Hnd).
    apply Hnd. by apply (Hse k n).
  - intros k [n' Hk]. destruct (Hns k n' Hk) as (n & Hn & _). apply Hi. eauto.
Qed.

Lemma prune_nodes_well_formed (s : SemanticMemory.Impl) (now : time_point) :
  SemanticMemory.well_formed s →
  SemanticMemory.well_formed (SemanticMemory.prune_nodes s now).
Proof.
  apply well_formed_update. intros k n Hk.
  apply erase_lowest_lookup_Some in Hk. eauto.
Qed.

Lemma create_node_well_formed (s : SemanticMemory.Impl) (concept : string)
    (attributes : gmap string string) (now : time_point) :
  (SemanticMemory.counter s + 1 < size_t_modulus)%N →
  SemanticMemory.well_formed s →
  SemanticMemory.well_formed (SemanticMemory.create_node s concept attributes now).2.
Proof.
  intros Hc Hwf. unfold SemanticMemory.create_node, SemanticMemory.generate_id.
  set (s0 := if decide (SemanticMemory.capacity s ≤ size (SemanticMemory.nodes s))
             then SemanticMemory.prune_nodes s now else s).
  assert (Hwf0 : SemanticMemory.well_formed s0).
  { unfold s0. case_decide; [by apply prune_nodes_well_formed | done]. }
  assert (Hcnt : SemanticMemory.counter s0 = SemanticMemory.counter s).
  { unfold s0. by case_decide. }
  destruct Hwf0 as (Hkey & Hse & Hi).
  rewrite Hcnt, (incr_size_t_small _ Hc), <-Hcnt.
  rewrite (semantic_ids_issued_fresh s0 Hi). cbn [snd default].
  split; [|split].
  - apply map_Forall_insert_2; [done | exact Hkey].
  - apply map_Forall_insert_2; [apply NoDup_nil_2 | exact Hse].
  - intros k. unfold SemanticMemory.ids_issued in *.
    cbn [SemanticMemory.nodes SemanticMemory.counter].
    rewrite lookup_insert_is_Some. intros [<-|[_ Hk]].
    + exists (SemanticMemory.counter s0 + 1)%N. split; [lia | done].
    + destruct (Hi k Hk) as (n & Hn & ->). exists n. split; [lia | done].
Qed.

Lemma add_relationship_well_formed (s : SemanticMemory.Impl)
    (from_id to_id : string) (strength : R) :
  SemanticMemory.well_formed s →
  SemanticMemory.well_formed
    (SemanticMemory.add_relationship s from_id to_id strength).2.
Proof.
  intros Hwf. unfold SemanticMemory.add_relationship.
  destruct (SemanticMemory.nodes s !! from_id) as [from|] eqn:Hf; [|done].
  destruct (SemanticMemory.nodes s !! to_id) as [target|] eqn:Ht; [|done].
  cbn [snd]. apply well_formed_update; [|done]. intros k n'.
  destruct (decide (k = from_id)) as [->|Hk].
  - rewrite lookup_insert_eq. intros [= <-]. exists from.
    split; [done|]. split; [done|]. apply edges_after_NoDup.
  - rewrite lookup_insert_ne by done. eauto.
Qed.

Lemma get_node_well_formed (s : SemanticMemory.Impl) (id : string)
    (now : time_point) :
  SemanticMemory.well_formed s →
  SemanticMemory.well_formed (SemanticMemory.get_node s id now).2.
Proof.
  intros Hwf. unfold SemanticMemory.get_node.
  destruct (SemanticMemory.nodes s !! id) as [node|] eqn:Hn; [|done].
  cbn [snd]. apply well_formed_update; [|done]. intros k n'.
  destruct (decide (k = id)) as [->|Hk].
  - rewrite lookup_insert_eq. intros [= <-]. eauto.
  - rewrite lookup_insert_ne by done. eauto.
Qed.

Lemma update_node_importance_well_formed (s : SemanticMemory.Impl) (id : string)
    (importance : R) :
  SemanticMemory.well_formed s →
  SemanticMemory.well_formed (SemanticMemory.update_node_importance s id importance).
Proof.
  apply well_formed_update. intros k n'.
  destruct (decide (k = id)) as [->|Hk].
  - rewrite lookup_alter_eq.
    destruct (SemanticMemory.nodes s !! id) as [n|] eqn:Hn; [|done].
    intros [= <-]. eauto.
  - rewrite lookup_alter_ne by done. eauto.
Qed.

Lemma semantic_search_well_formed (s : SemanticMemory.Impl)
    (query : SemanticQuery.t) (limit : nat) (now : time_point) :
  SemanticMemory.well_formed s →
  SemanticMemory.well_formed (SemanticMemory.search s query limit now).2.
Proof.
  intros Hwf. unfold SemanticMemory.search. cbn [snd].
  apply well_formed_update; [|done].
  generalize (limit_results limit
    (std_sort (λ a b : SemanticNode.t,
                 (SemanticMemory.relevance_at s query now (SemanticNode.id a)
                  > SemanticMemory.relevance_at s query now (SemanticNode.id b))%R)
       (SemanticMemory.convert_to_semantic_node <$>
        filter (λ node, SemanticMemory.matches_query node query = true)
               (snd <$> map_to_list (SemanticMemory.nodes s))))).
  intros results. induction results as [|r results IH] using rev_ind.
  - cbn. eauto.
  - rewrite foldl_app. cbn [foldl]. intros k n'.
    destruct (decide (k = SemanticNode.id r)) as [->|Hk].
    + rewrite lookup_alter_eq.
      destruct (foldl _ _ _ !! SemanticNode.id r) as [n0|] eqn:Hn0; [|done].
      intros [= <-]. destruct (IH _ n0 Hn0) as (n & Hn & Hid & Hnd). eauto.
    + rewrite lookup_alter_ne by done. apply IH.
Qed.

(** X24: the stores that the public operations of [SemanticMemory] build
    have each node under its own id, at most one edge from a node to each
    target, and only ids that [generate_id] has returned.  A new store has
    these properties; [add_relationship], [get_node], [search],
    [update_node_importance] and pruning keep them, and [create_node] keeps
    them until the 64-bit id counter wraps. *)
Theorem semantic_operations_keep_well_formed (s : SemanticMemory.Impl)
    (concept : string) (attributes : gmap string string)
    (from_id to_id id : string) (strength importance : R)
    (query : SemanticQuery.t) (limit : nat) (now : time_point) :
  SemanticMemory.well_formed s →
  SemanticMemory.well_formed (SemanticMemory.new (SemanticMemory.capacity s)) ∧
  SemanticMemory.well_formed
    (SemanticMemory.add_relationship s from_id to_id strength).2 ∧
  SemanticMemory.well_formed (SemanticMemory.get_node s id now).2 ∧
  SemanticMemory.well_formed (SemanticMemory.search s query limit now).2 ∧
  SemanticMemory.well_formed
    (SemanticMemory.update_node_importance s id importance) ∧
  SemanticMemory.well_formed (SemanticMemory.prune_nodes s now) ∧
  ((SemanticMemory.counter s + 1 < size_t_modulus)%N →
   SemanticMemory.well_formed
     (SemanticMemory.create_node s concept attributes now).2).
Proof.
  intros Hwf.
  split; [apply new_well_formed|].
  split; [by apply add_relationship_well_formed|].
  split; [by apply get_node_well_formed|].
  split; [by apply semantic_search_well_formed|].
  split; [by apply update_node_importance_well_formed|].
  split; [by apply prune_nodes_well_formed|].
  intros Hc. by apply create_node_well_formed.
Qed.

(** X25: in such a store, after [add_relationship(a, b, strength)] on two
    stored nodes, [get_related_nodes(a, min_strength)] without a limit
    returns [b] exactly when [strength >= min_strength], whatever edge
    from [a] to [b] there was before; with a limit it returns [b] only
    then. *)
Theorem add_relationship_then_get_related_nodes (s : SemanticMemory.Impl)
    (from_id to_id : string) (strength min_strength : R) (limit : nat)
    (from target : SemanticMemory.Node) :
  SemanticMemory.well_formed s →
  SemanticMemory.nodes s !! from_id = Some from →
  SemanticMemory.nodes s !! to_id = Some target →
  (SemanticMemory.add_relationship s from_id to_id strength).1 = true ∧
  (SemanticMemory.convert_to_semantic_node target
     ∈ SemanticMemory.get_related_nodes
         (SemanticMemory.add_relationship s from_id to_id strength).2
         from_id min_strength 0
   ↔ (strength >= min_strength)%R) ∧
  (SemanticMemory.convert_to_semantic_node target
     ∈ SemanticMemory.get_related_nodes
         (SemanticMemory.add_relationship s from_id to_id strength).2
         from_id min_strength limit
   → (strength >= min_strength)%R).
Proof.
  intros Hwf Hf Ht.
  pose proof (add_relationship_well_formed s from_id to_id strength Hwf)
    as (Hkey' & Hse' & _).
  destruct Hwf as (Hkey & Hse & _).
  rewrite (add_relationship_success s from_id to_id strength from target Hf Ht)
    in *.
  cbn [fst snd] in *. split; [done|].
  set (rels := SemanticMemory.edges_after to_id strength
                 (SemanticMemory.relationships from)) in *.
  set (s' := SemanticMemory.with_nodes s _) in *.
  assert (Hfrom' : SemanticMemory.nodes s' !! from_id
                   = Some (SemanticMemory.set_relationships from rels)).
  { unfold s'. cbn. apply lookup_insert_eq. }
  assert (Hto' : ∃ target', SemanticMemory.nodes s' !! to_id = Some target' ∧
                   SemanticMemory.convert_to_semantic_node target'
                   = SemanticMemory.convert_to_semantic_node target).
  { destruct (decide (to_id = from_id)) as [->|Hne].
    - eexists. split; [exact Hfrom'|]. by simplify_eq.
    - exists target. split; [|done]. unfold s'. cbn.
      by rewrite lookup_insert_ne. }
  assert (Hback : ∀ l, SemanticMemory.convert_to_semantic_node target
                       ∈ SemanticMemory.get_related_nodes s' from_id min_strength l
                       → (strength >= min_strength)%R).
  { intros l Hin.
    destruct (related_nodes_are_targets s' from_id min_strength l _ Hin)
      as (node & rel & t & Hnode & Hrel & Hge & Hlook & Hconv).
    rewrite Hfrom' in Hnode. injection Hnode as <-.
    cbn [SemanticMemory.relationships SemanticMemory.set_relationships] in Hrel.
    assert (Hid : rel.1 = to_id).
    { rewrite <-(Hkey' _ _ Hlook), <-(Hkey _ _ Ht).
      by apply (f_equal SemanticNode.id) in Hconv. }
    destruct rel as [t' x]. cbn in Hid, Hge. subst t'.
    pose proof (map_Forall_lookup_1 _ _ _ _ Hse' Hfrom') as Hnd. cbn in Hnd.
    by rewrite (NoDup_fst_functional _ _ _ _ Hnd Hrel (edges_after_new _ _ _))
      in Hge. }
  split; [split; [apply Hback|] | apply Hback].
  intros Hge. destruct Hto' as (target' & Hlook & <-).
  unfold SemanticMemory.get_related_nodes. rewrite Hfrom'.
  cbn [SemanticMemory.relationships SemanticMemory.set_relationships].
  unfold limit_results. rewrite decide_False by lia.
  rewrite std_sort_Permutation. apply related_lookup.
  exists (to_id, strength), target'. split; [apply edges_after_new|]. done.
Qed.

(** ** Which episodes and nodes a full store gives up *)

(** X26: [create_episode] and [create_node] remove entries only from a
    store that has reached its capacity: where an entry is gone after the
    call, the store was full before it, and a store below its capacity
    keeps every entry.  The entries that are there after the call,
    other than the new one, are entries of the store before the call,
    unchanged.  A full store is left with its size less [to_remove]
    entries, and the new one where its id was not stored. *)
Theorem create_evicts_only_when_full (es : EpisodicMemory.Impl)
    (ss : SemanticMemory.Impl) (context attributes : gmap string string)
    (concept : string) (now : time_point) :
  (∀ k e,
     EpisodicMemory.episodes es !! k = Some e →
     EpisodicMemory.episodes (EpisodicMemory.create_episode es context now).2 !! k
     = None →
     EpisodicMemory.capacity es ≤ size (EpisodicMemory.episodes es)) ∧
  (∀ k' e',
     EpisodicMemory.episodes (EpisodicMemory.create_episode es context now).2 !! k'
     = Some e' →
     k' ≠ (EpisodicMemory.create_episode es context now).1 →
     EpisodicMemory.episodes es !! k' = Some e') ∧
  (size (EpisodicMemory.episodes es) < EpisodicMemory.capacity es →
   ∀ k e, EpisodicMemory.episodes es !! k = Some e →
     k ≠ (EpisodicMemory.create_episode es context now).1 →
     EpisodicMemory.episodes (EpisodicMemory.create_episode es context now).2 !! k
     = Some e) ∧
  (EpisodicMemory.capacity es ≤ size (EpisodicMemory.episodes es) →
   size (EpisodicMemory.episodes es)
   - prune_quota (size (EpisodicMemory.episodes es)) (EpisodicMemory.capacity es)
   ≤ size (EpisodicMemory.episodes
             (EpisodicMemory.create_episode es context now).2)
   ≤ S (size (EpisodicMemory.episodes es)
        - prune_quota (size (EpisodicMemory.episodes es))
                      (EpisodicMemory.capacity es))) ∧
  (∀ k n,
     SemanticMemory.nodes ss !! k = Some n →
     SemanticMemory.nodes (SemanticMemory.create_node ss concept attributes now).2 !! k
     = None →
     SemanticMemory.capacity ss ≤ size (SemanticMemory.nodes ss)) ∧
  (∀ k' n',
     SemanticMemory.nodes (SemanticMemory.create_node ss concept attributes now).2 !! k'
     = Some n' →
     k' ≠ (SemanticMemory.create_node ss concept attributes now).1 →
     SemanticMemory.nodes ss !! k' = Some n') ∧
  (size (SemanticMemory.nodes ss) < SemanticMemory.capacity ss →
   ∀ k n, SemanticMemory.nodes ss !! k = Some n →
     k ≠ (SemanticMemory.create_node ss concept attributes now).1 →
     SemanticMemory.nodes (SemanticMemory.create_node ss concept attributes now).2 !! k
     = Some n) ∧
  (SemanticMemory.capacity ss ≤ size (SemanticMemory.nodes ss) →
   size (SemanticMemory.nodes ss)
   - prune_quota (size (SemanticMemory.nodes ss)) (SemanticMemory.capacity ss)
   ≤ size (SemanticMemory.nodes
             (SemanticMemory.create_node ss concept attributes now).2)
   ≤ S (size (SemanticMemory.nodes ss)
        - prune_quota (size (SemanticMemory.nodes ss))
                      (SemanticMemory.capacity ss))).
Proof.
  split; [|split; [|split; [|split; [|split; [|split; [|split]]]]]].
  - unfold EpisodicMemory.create_episode, EpisodicMemory.generate_id.
    cbn [fst snd EpisodicMemory.episodes]. intros k e He Hk.
    apply lookup_insert_None in Hk as [Hk _].
    case_decide as Hfull; [done | congruence].
  - unfold EpisodicMemory.create_episode, EpisodicMemory.generate_id.
    cbn [fst snd EpisodicMemory.episodes]. intros k' e' Hk' Hne.
    rewrite lookup_insert_ne in Hk' by done.
    case_decide as Hfull; [by apply prune_episodes_lookup_Some in Hk' | done].
  - unfold EpisodicMemory.create_episode, EpisodicMemory.generate_id.
    cbn [fst snd EpisodicMemory.episodes]. intros Hroom k e He Hne.
    rewrite lookup_insert_ne by done.
    by rewrite decide_False by lia.
  - unfold EpisodicMemory.create_episode, EpisodicMemory.generate_id.
    cbn [fst snd EpisodicMemory.episodes]. intros Hfull.
    rewrite decide_True by done. rewrite map_size_insert.
    rewrite (prune_episodes_size es now).
    destruct (_ !! _); simpl; lia.
  - unfold SemanticMemory.create_node, SemanticMemory.generate_id.
    cbn [fst snd SemanticMemory.nodes]. intros k n Hn Hk.
    apply lookup_insert_None in Hk as [Hk _].
    case_decide as Hfull; [done | congruence].
  - unfold SemanticMemory.create_node, SemanticMemory.generate_id.
    cbn [fst snd SemanticMemory.nodes]. intros k' n' Hk' Hne.
    rewrite lookup_insert_ne in Hk' by done.
    case_decide as Hfull; [by apply prune_nodes_lookup_Some in Hk' | done].
  - unfold SemanticMemory.create_node, SemanticMemory.generate_id.
    cbn [fst snd SemanticMemory.nodes]. intros Hroom k n Hn Hne.
    rewrite lookup_insert_ne by done.
    by rewrite decide_False by lia.
  - unfold SemanticMemory.create_node, SemanticMemory.generate_id.
    cbn [fst snd SemanticMemory.nodes]. intros Hfull.
    rewrite decide_True by done. rewrite map_size_insert.
    rewrite (prune_nodes_size ss now).
    destruct (_ !! _); simpl; lia.
Qed.

(** * The toolkit state *)

(** ** Transactions *)

Lemma validate_transaction_spec (transaction : Transaction.t) :
  State.validate_transaction transaction = true ↔
  Transaction.signature transaction ≠ "" ∧
  Transaction.status transaction ≠ "" ∧
  (0 < Transaction.slot transaction)%N.
Proof.
  unfold State.validate_transaction.
  rewrite !andb_true_iff, !negb_true_iff, !String.eqb_neq, N.ltb_lt. tauto.
Qed.

(** X27: [validate_transaction] accepts a transaction exactly when its
    signature and its status are not empty and its slot is positive.
    [track_transaction] drops a transaction that is not accepted and leaves
    the state as it is.  With fewer than [MAX_TRANSACTIONS] stored it files
    an accepted transaction under its signature, in place of one with the
    same signature: [get_transaction] then returns it, and returns for every
    other signature what it returned before; connections, cache and status
    are untouched.  [update_transaction_status] sets the status and the
    time of a stored transaction, whatever the status is, and changes
    nothing for a signature that is not stored. *)
Theorem track_transaction_then_get_transaction (s : State.t)
    (transaction : Transaction.t) (status : string) (now : time_point) :
  State.get_transaction_count s < State.MAX_TRANSACTIONS →
  (State.validate_transaction transaction = true ↔
   Transaction.signature transaction ≠ "" ∧
   Transaction.status transaction ≠ "" ∧
   (0 < Transaction.slot transaction)%N) ∧
  (State.validate_transaction transaction = false →
   State.track_transaction s transaction = Some s) ∧
  (State.validate_transaction transaction = true →
   ∃ s', State.track_transaction s transaction = Some s' ∧
     State.get_transaction s' (Transaction.signature transaction)
     = Some transaction ∧
     (∀ signature, signature ≠ Transaction.signature transaction →
        State.get_transaction s' signature = State.get_transaction s signature) ∧
     State.get_transaction_count s' ≤ S (State.get_transaction_count s) ∧
     State.connections_ s' = State.connections_ s ∧
     State.cache_ s' = State.cache_ s ∧
     State.status_ s' = State.status_ s ∧
     State.initialized_ s' = State.initialized_ s ∧
     State.get_transaction
       (State.update_transaction_status s' (Transaction.signature transaction)
          status now)
       (Transaction.signature transaction)
     = Some (Transaction.mk (Transaction.signature transaction) status now
               (Transaction.slot transaction) (Transaction.error transaction)
               (Transaction.data transaction))) ∧
  (∀ signature, State.get_transaction s signature = None →
     State.update_transaction_status s signature status now = s).
Proof.
  intros Hroom. split; [apply validate_transaction_spec|].
  unfold State.track_transaction, State.get_transaction_count in *.
  split; [by intros ->|]. split.
  - intros ->. cbn [negb]. rewrite decide_False by lia.
    eexists. split; [reflexivity|].
    unfold State.get_transaction, State.update_transaction_status.
    cbn [State.transactions_ State.with_transactions State.connections_
         State.cache_ State.status_ State.initialized_].
    split; [apply lookup_insert_eq|].
    split; [intros sig Hne; by rewrite lookup_insert_ne|].
    split.
    { rewrite map_size_insert. destruct (_ !! _); cbn; lia. }
    repeat (split; [done|]).
    by rewrite lookup_alter_eq, lookup_insert_eq.
  - unfold State.get_transaction, State.update_transaction_status.
    intros sig Hnone. destruct s as [st ini lu cs txs ca].
    unfold State.with_transactions. cbn in *. f_equal.
    apply map_eq. intros k. destruct (decide (k = sig)) as [->|Hk].
    + by rewrite lookup_alter_eq, Hnone.
    + by rewrite lookup_alter_ne.
Qed.

Lemma collect_recent_take (limit : nat) (recent txs : list Transaction.t) :
  State.collect_recent limit recent txs
  = recent ++ take (1 `max` (limit - length recent)) txs.
Proof.
  revert recent. induction txs as [|tx txs IH]; intros recent; cbn [State.collect_recent].
  - by rewrite take_nil, app_nil_r.
  - rewrite length_app. cbn [length]. case_decide as Hstop.
    + by rewrite Nat.max_l by lia.
    + rewrite IH, length_app. cbn [length].
      rewrite !Nat.max_r by lia.
      replace (limit - length recent) with (S (limit - (length recent + 1))) by lia.
      by rewrite <-app_assoc.
Qed.

Lemma std_sort_newest_first (l : list Transaction.t) :
  StronglySorted
    (λ a b, (Transaction.timestamp b ≤ Transaction.timestamp a)%Z)
    (std_sort (λ a b, (Transaction.timestamp a > Transaction.timestamp b)%Z) l).
Proof.
  apply (StronglySorted_weaken
           (λ a b, ¬ (Transaction.timestamp b > Transaction.timestamp a)%Z)).
  { intros a b H. lia. }
  apply StronglySorted_merge_sort.
  - intros a b c Hab Hbc Hca. lia.
  - intros a b.
    destruct (decide (Transaction.timestamp a > Transaction.timestamp b)%Z).
    + left. lia.
    + right. lia.
Qed.

(** X28: [get_recent_transactions] takes the first [limit] transactions in
    the order in which the container hands them out, and one transaction
    for a limit of 0 (the loop tests the limit after it has taken one), and
    returns these with the newest first.  It returns
    [min (max limit 1) count] transactions, each of them stored, and all
    stored ones when the limit is not below their number. *)
Theorem get_recent_transactions_takes_then_sorts (s : State.t) (limit : nat) :
  State.get_recent_transactions s limit
    ≡ₚ take (1 `max` limit) (snd <$> map_to_list (State.transactions_ s)) ∧
  length (State.get_recent_transactions s limit)
  = (1 `max` limit) `min` State.get_transaction_count s ∧
  (∀ i j a b, i < j →
     State.get_recent_transactions s limit !! i = Some a →
     State.get_recent_transactions s limit !! j = Some b →
     (Transaction.timestamp b ≤ Transaction.timestamp a)%Z) ∧
  (∀ transaction, transaction ∈ State.get_recent_transactions s limit →
     ∃ signature, State.get_transaction s signature = Some transaction) ∧
  (State.get_transaction_count s ≤ limit →
   ∀ signature transaction,
     State.get_transaction s signature = Some transaction →
     transaction ∈ State.get_recent_transactions s limit).
Proof.
  assert (Hperm : State.get_recent_transactions s limit
            ≡ₚ take (1 `max` limit) (snd <$> map_to_list (State.transactions_ s))).
  { unfold State.get_recent_transactions.
    rewrite std_sort_Permutation, collect_recent_take. cbn [app length].
    by rewrite Nat.sub_0_r. }
  split; [exact Hperm|]. split; [|split; [|split]].
  - rewrite Hperm, length_take, length_fmap, length_map_to_list. done.
  - intros i j a b Hij Hi Hj.
    exact (StronglySorted_lookup _ _ _ _ _ _ (std_sort_newest_first _) Hij Hi Hj).
  - intros tx Hin. rewrite Hperm in Hin.
    eapply elem_of_sublist in Hin; [|apply sublist_take].
    apply list_elem_of_fmap in Hin as ([sig tx'] & -> & Hin).
    apply elem_of_map_to_list in Hin. by exists sig.
  - intros Hall sig tx Hget. rewrite Hperm.
    rewrite take_ge.
    + apply list_elem_of_fmap. exists (sig, tx). split; [done|].
      by apply elem_of_map_to_list.
    + rewrite length_fmap, length_map_to_list.
      unfold State.get_transaction_count in Hall. lia.
Qed.

(** ** Connections *)

Lemma cleanup_stale_connections_lookup (s : State.t) (now : time_point)
    (k : string) (conn : Connection.t) :
  State.connections_ (State.cleanup_stale_connections s now) !! k = Some conn ↔
  State.connections_ s !! k = Some conn ∧
  (now - Connection.last_active conn ≤ State.CONNECTION_TIMEOUT)%Z.
Proof.
  unfold State.cleanup_stale_connections.
  cbn [State.connections_ State.with_connections].
  rewrite map_lookup_filter_Some. cbn [snd].
  rewrite Z.gtb_ltb, Z.ltb_ge. done.
Qed.

(** X29: in a state whose connection ids all came from [add_connection],
    [add_connection] returns an id that no connection has, ["conn_"] and
    the value of [next_id], and files under it an active connection to the
    endpoint, last active at the time of the call; the other connections
    stay as they were, [get_active_connections] lists the new one, and
    [remove_connection] on the id gives the old connections back.
    [cleanup_stale_connections] keeps exactly the connections that were
    last active at most [CONNECTION_TIMEOUT] ago: the new connection is
    there as long as no more than five minutes have passed, and
    [update_connection_activity] starts this time again. *)
Theorem add_connection_issues_fresh_id (s : State.t) (next_id : N)
    (endpoint : string) (now now' : time_point) :
  State.ids_issued s next_id →
  (State.add_connection s next_id endpoint now).1.1
  = "conn_" +:+ pretty next_id ∧
  State.connections_ s !! (State.add_connection s next_id endpoint now).1.1
  = None ∧
  State.connections_ (State.add_connection s next_id endpoint now).1.2
    !! (State.add_connection s next_id endpoint now).1.1
  = Some (Connection.mk (State.add_connection s next_id endpoint now).1.1
                        endpoint now true ∅) ∧
  (∀ k, k ≠ (State.add_connection s next_id endpoint now).1.1 →
     State.connections_ (State.add_connection s next_id endpoint now).1.2 !! k
     = State.connections_ s !! k) ∧
  State.get_connection_count (State.add_connection s next_id endpoint now).1.2
  = S (State.get_connection_count s) ∧
  ((next_id + 1 < size_t_modulus)%N →
   (State.add_connection s next_id endpoint now).2 = (next_id + 1)%N ∧
   State.ids_issued (State.add_connection s next_id endpoint now).1.2
                    (State.add_connection s next_id endpoint now).2) ∧
  Connection.mk (State.add_connection s next_id endpoint now).1.1
                endpoint now true ∅
    ∈ State.get_active_connections
        (State.add_connection s next_id endpoint now).1.2 ∧
  State.connections_
    (State.remove_connection (State.add_connection s next_id endpoint now).1.2
       (State.add_connection s next_id endpoint now).1.1).2
  = State.connections_ s ∧
  (is_Some (State.connections_
              (State.cleanup_stale_connections
                 (State.add_connection s next_id endpoint now).1.2 now')
              !! (State.add_connection s next_id endpoint now).1.1)
   ↔ (now' - now ≤ State.CONNECTION_TIMEOUT)%Z) ∧
  (∀ k conn,
     State.connections_ (State.cleanup_stale_connections s now') !! k = Some conn ↔
     State.connections_ s !! k = Some conn ∧
     (now' - Connection.last_active conn ≤ State.CONNECTION_TIMEOUT)%Z) ∧
  (∀ k conn, State.connections_ s !! k = Some conn →
     State.connections_
       (State.cleanup_stale_connections
          (State.update_connection_activity s k now') now') !! k
     = Some (Connection.mk (Connection.id conn) (Connection.endpoint conn)
                           now' true (Connection.metadata conn))).
Proof.
  intros Hi.
  assert (Hfresh : State.connections_ s !! ("conn_" +:+ pretty next_id) = None).
  { apply eq_None_not_Some. intros Hs.
    destruct (Hi _ Hs) as (n & Hn & Heq). apply prefixed_inj in Heq. lia. }
  unfold State.add_connection.
  cbn [fst snd State.connections_ State.with_connections].
  split; [done|]. split; [done|]. split; [apply lookup_insert_eq|].
  split; [intros k Hk; by rewrite lookup_insert_ne|].
  split; [unfold State.get_connection_count; cbn; by apply map_size_insert_None|].
  split.
  { intros Hc. rewrite (incr_size_t_small _ Hc). split; [done|].
    intros k. cbn [State.connections_ State.with_connections].
    rewrite lookup_insert_is_Some.
    intros [<-|[_ Hk]].
    - exists next_id. split; [lia | done].
    - destruct (Hi k Hk) as (n & Hn & ->). exists n. split; [lia | done]. }
  split.
  { unfold State.get_active_connections.
    cbn [State.connections_ State.with_connections].
    apply list_elem_of_filter. split; [done|].
    apply list_elem_of_fmap. eexists (_, _). split; [reflexivity|].
    apply elem_of_map_to_list, lookup_insert_eq. }
  split.
  { unfold State.remove_connection.
    cbn [State.connections_ State.with_connections].
    rewrite lookup_insert_eq. cbn [snd State.connections_ State.with_connections].
    rewrite delete_insert_eq. by apply delete_id. }
  split.
  { split.
    - intros [conn Hconn]. apply cleanup_stale_connections_lookup in Hconn
        as [Hconn Hle].
      cbn [State.connections_ State.with_connections] in Hconn.
      rewrite lookup_insert_eq in Hconn. injection Hconn as <-. exact Hle.
    - intros Hle. eexists. apply cleanup_stale_connections_lookup.
      cbn [State.connections_ State.with_connections]. rewrite lookup_insert_eq. split; [done|].
      exact Hle. }
  split; [intros k conn; apply cleanup_stale_connections_lookup|].
  intros k conn Hk. apply cleanup_stale_connections_lookup.
  unfold State.update_connection_activity.
  cbn [State.connections_ State.with_connections Connection.last_active].
  rewrite lookup_alter_eq, Hk. split; [done|].
  unfold State.CONNECTION_TIMEOUT. lia.
Qed.

(** ** The cache *)

Lemma cleanup_expired_cache_lookup (s : State.t) (now : time_point)
    (k : string) (entry : CacheEntry.t) :
  State.cache_ (State.cleanup_expired_cache s now) !! k = Some entry ↔
  State.cache_ s !! k = Some entry ∧
  CacheEntry.is_valid entry = true ∧ (now ≤ CacheEntry.expiry entry)%Z.
Proof.
  unfold State.cleanup_expired_cache. cbn [State.cache_ State.with_cache].
  rewrite map_lookup_filter_Some. cbn [snd]. unfold State.expired.
  rewrite orb_false_iff, negb_false_iff, Z.ltb_ge. done.
Qed.

(** X30: [cache_get<T>] returns nothing for a key that is not cached and
    throws for an entry of another type than [T].  For an entry of type
    [T] it returns the value exactly when [cleanup_expired_cache] at the
    same time keeps the entry, that is when the entry is valid and its
    expiry is not before the time of the call; the two tests of the code
    agree, also at the expiry itself.  [cleanup_expired_cache] removes
    nothing else.  With fewer than [MAX_CACHE_SIZE] entries, and a [ttl]
    whose count of nanoseconds and whose expiry fit the 64-bit count of
    the clock (a [ttl] of up to some 292 years), a value set with
    [cache_set] is returned by [cache_get] at its type up to [ttl] seconds
    later and not after that, and not after [cache_remove]; the other keys
    keep their entries. *)
Theorem cache_get_agrees_with_cleanup (s : State.t) (T : ValueType)
    (key : string) (value : Value) (ttl : Z) (now now' : time_point) :
  (State.cache_ s !! key = None → State.cache_get s T key now = State.Returns None) ∧
  (∀ entry, State.cache_ s !! key = Some entry →
     type_of (CacheEntry.value entry) ≠ T →
     State.cache_get s T key now = State.Throws_bad_variant_access) ∧
  (∀ entry, State.cache_ s !! key = Some entry →
     type_of (CacheEntry.value entry) = T →
     (State.cache_get s T key now = State.Returns (Some (CacheEntry.value entry)) ↔
      State.cache_ (State.cleanup_expired_cache s now) !! key = Some entry) ∧
     (State.cache_get s T key now = State.Returns None ↔
      State.cache_ (State.cleanup_expired_cache s now) !! key = None)) ∧
  (∀ k entry,
     State.cache_ (State.cleanup_expired_cache s now) !! k = Some entry ↔
     State.cache_ s !! k = Some entry ∧
     CacheEntry.is_valid entry = true ∧ (now ≤ CacheEntry.expiry entry)%Z) ∧
  (State.get_cache_size s < State.MAX_CACHE_SIZE →
   (- 2 ^ 63 ≤ ttl * 1000000000 < 2 ^ 63)%Z →
   (- 2 ^ 63 ≤ now + ttl * 1000000000 < 2 ^ 63)%Z →
   ∃ s', State.cache_set s key value ttl now = Some s' ∧
     (State.cache_get s' (type_of value) key now' = State.Returns (Some value) ↔
      (now' ≤ now + ttl * 1000000000)%Z) ∧
     (State.cache_get s' (type_of value) key now' = State.Returns None ↔
      (now + ttl * 1000000000 < now')%Z) ∧
     State.cache_get (State.cache_remove s' key) (type_of value) key now'
     = State.Returns None ∧
     (∀ k, k ≠ key → State.cache_ s' !! k = State.cache_ s !! k) ∧
     State.get_cache_size s' ≤ S (State.get_cache_size s)).
Proof.
  split; [|split; [|split; [|split]]].
  - intros Hk. unfold State.cache_get. by rewrite Hk.
  - intros entry Hk HT. unfold State.cache_get. rewrite Hk.
    by rewrite decide_False.
  - intros entry Hk HT. unfold State.cache_get. rewrite Hk, decide_True by done.
    destruct (State.cache_ (State.cleanup_expired_cache s now) !! key)
      as [kept|] eqn:Hkept.
    + apply cleanup_expired_cache_lookup in Hkept as (Hkept & Hvalid & Hle).
      assert (kept = entry) as -> by congruence.
      rewrite Hvalid. cbn [negb orb].
      destruct (Z.gtb_spec now (CacheEntry.expiry entry)); [lia|].
      split; split; done.
    + assert (Hexp : negb (CacheEntry.is_valid entry)
                     || (now >? CacheEntry.expiry entry)%Z = true).
      { destruct (CacheEntry.is_valid entry) eqn:Hvalid; [|done]. cbn [negb orb].
        destruct (Z.gtb_spec now (CacheEntry.expiry entry)); [done|].
        assert (State.cache_ (State.cleanup_expired_cache s now) !! key
                = Some entry) as Hin.
        { apply cleanup_expired_cache_lookup. split; [done|]. split; [done|]. lia. }
        congruence. }
      rewrite Hexp. split; split; done.
  - intros k entry. apply cleanup_expired_cache_lookup.
  - intros Hroom _ _. unfold State.cache_set, State.get_cache_size in *.
    rewrite decide_False by lia. eexists. split; [reflexivity|].
    unfold State.cache_get, State.cache_remove.
    cbn [State.cache_ State.with_cache].
    rewrite lookup_insert_eq, lookup_delete_eq.
    cbn [CacheEntry.value CacheEntry.is_valid CacheEntry.expiry negb orb].
    rewrite decide_True by done.
    split; [|split; [|split; [done|split]]].
    + destruct (Z.gtb_spec now' (now + ttl * 1000000000)); split;
        [done | lia | lia | done].
    + destruct (Z.gtb_spec now' (now + ttl * 1000000000)); split;
        [lia | done | done | lia].
    + intros k Hk. by rewrite lookup_insert_ne.
    + rewrite map_size_insert. destruct (_ !! _); cbn; lia.
Qed.

(** * The theorems at concrete stores *)

(** X4 at an empty store of capacity 5. *)
Lemma store_inserts_or_replaces_witness :
  MemoryStore.size (MemoryStore.new 5) < MemoryStore.capacity (MemoryStore.new 5) ∧
  MemoryStore.store (MemoryStore.new 5) Examples.boundary_record 7%Z
  = (true, MemoryStore.mkImpl
             {[ "m1" := Memory.set_stamps Examples.boundary_record 7%Z 7%Z ]} 5).
Proof.
  assert (H : MemoryStore.size (MemoryStore.new 5)
              < MemoryStore.capacity (MemoryStore.new 5)).
  { unfold MemoryStore.size, MemoryStore.new. simpl. rewrite map_size_empty. lia. }
  split; [exact H|].
  exact (proj1 (store_inserts_or_replaces (MemoryStore.new 5)
                  Examples.boundary_record 7%Z H)).
Defined.


(** X7 at the store [ranked_store]. *)
Lemma operations_keep_entries_under_their_id_witness :
  MemoryStore.keyed_by_id Examples.ranked_store ∧
  MemoryStore.keyed_by_id
    (MemoryStore.store Examples.ranked_store Examples.boundary_record 5%Z).2.
Proof.
  split; [exact ranked_store_keyed_by_id|].
  exact (proj1 (operations_keep_entries_under_their_id Examples.ranked_store
                  Examples.boundary_record "a" (MemoryUpdate.mk None None None)
                  Examples.any_query 1 5%Z ranked_store_keyed_by_id)).
Defined.

(** X10 at an empty store of capacity 10. *)
Lemma store_respects_capacity_from_10_witness :
  10 ≤ MemoryStore.capacity (MemoryStore.new 10) ∧
  MemoryStore.size
    (MemoryStore.store (MemoryStore.new 10) Examples.boundary_record 0%Z).2
  ≤ MemoryStore.capacity (MemoryStore.new 10).
Proof.
  assert (H : 10 ≤ MemoryStore.capacity (MemoryStore.new 10)) by (simpl; lia).
  split; [exact H|].
  exact (proj1 (store_respects_capacity_from_10 (MemoryStore.new 10)
                  Examples.boundary_record 0%Z H)).
Defined.

Lemma new_ids_issued (max_episodes max_memories : nat) :
  EpisodicMemory.ids_issued (EpisodicMemory.new max_episodes max_memories).
Proof. intros k [e He]. cbn in He. by rewrite lookup_empty in He. Qed.

Lemma new_counter_small (max_episodes max_memories : nat) :
  (EpisodicMemory.counter (EpisodicMemory.new max_episodes max_memories) + 1
   < size_t_modulus)%N.
Proof. reflexivity. Qed.

(** X11 at the empty store [EpisodicMemory(100, 50)]: the first id is
    ["ep_1"]. *)
Lemma create_episode_issues_fresh_id_witness :
  EpisodicMemory.ids_issued (EpisodicMemory.new 100 50) ∧
  (EpisodicMemory.counter (EpisodicMemory.new 100 50) + 1 < size_t_modulus)%N ∧
  (EpisodicMemory.create_episode (EpisodicMemory.new 100 50)
     {["loc" := "lab"]} 0%Z).1
  = "ep_" +:+ pretty (EpisodicMemory.counter (EpisodicMemory.new 100 50) + 1)%N.
Proof.
  split; [apply new_ids_issued|]. split; [apply new_counter_small|].
  exact (proj1 (create_episode_issues_fresh_id (EpisodicMemory.new 100 50)
                  {["loc" := "lab"]} 0%Z (new_ids_issued 100 50)
                  (new_counter_small 100 50))).
Defined.

(** X14 at the store [lab] of capacity 100 with at most 50 Records in an
    episode. *)
Lemma episodic_limits_hold_from_10_witness :
  10 ≤ EpisodicMemory.capacity Examples.lab ∧
  10 ≤ EpisodicMemory.max_memories_per_episode Examples.lab ∧
  size (EpisodicMemory.episodes
          (EpisodicMemory.create_episode Examples.lab ∅ 1%Z).2)
  ≤ EpisodicMemory.capacity Examples.lab.
Proof.
  assert (H1 : 10 ≤ EpisodicMemory.capacity Examples.lab)
    by (change (10 ≤ 100); lia).
  assert (H2 : 10 ≤ EpisodicMemory.max_memories_per_episode Examples.lab)
    by (change (10 ≤ 50); lia).
  split; [exact H1|]. split; [exact H2|].
  exact (proj1 (episodic_limits_hold_from_10 Examples.lab ∅ "ep_1"
                  Examples.boundary_record 1%Z H1 H2)).
Defined.

(** X17 at the empty store [EpisodicMemory(100, 50)]. *)
Lemma create_add_recall_round_trip_witness :
  EpisodicMemory.ids_issued (EpisodicMemory.new 100 50) ∧
  (EpisodicMemory.counter (EpisodicMemory.new 100 50) + 1 < size_t_modulus)%N ∧
  (EpisodicMemory.recall_episode
     (EpisodicMemory.add_memory
        (EpisodicMemory.create_episode (EpisodicMemory.new 100 50) ∅ 0%Z).2
        (EpisodicMemory.create_episode (EpisodicMemory.new 100 50) ∅ 0%Z).1
        Examples.boundary_record).2
     (EpisodicMemory.create_episode (EpisodicMemory.new 100 50) ∅ 0%Z).1 1%Z).1
  = Some [Examples.boundary_record].
Proof.
  split; [apply new_ids_issued|]. split; [apply new_counter_small|].
  exact (proj1 (proj2 (create_add_recall_round_trip (EpisodicMemory.new 100 50)
                         ∅ Examples.boundary_record 0%Z 1%Z
                         (new_ids_issued 100 50) (new_counter_small 100 50)))).
Defined.

Lemma two_nodes_well_formed : SemanticMemory.well_formed Examples.two_nodes.
Proof.
  unfold Examples.two_nodes. cbn zeta.
  apply create_node_well_formed; [reflexivity|].
  apply create_node_well_formed; [reflexivity|].
  apply new_well_formed.
Qed.

Lemma two_nodes_sem_1 :
  SemanticMemory.nodes Examples.two_nodes !! "sem_1"
  = Some (SemanticMemory.new_node "sem_1" "animal" 0%Z).
Proof. reflexivity. Qed.

Lemma two_nodes_sem_2 :
  SemanticMemory.nodes Examples.two_nodes !! "sem_2"
  = Some (SemanticMemory.new_node "sem_2" "animal" 0%Z).
Proof. reflexivity. Qed.

(** X18 at the empty store [SemanticMemory(100)]: the first id is
    ["sem_1"]. *)
Lemma create_node_get_node_round_trip_witness :
  SemanticMemory.ids_issued (SemanticMemory.new 100) ∧
  (SemanticMemory.counter (SemanticMemory.new 100) + 1 < size_t_modulus)%N ∧
  (SemanticMemory.create_node (SemanticMemory.new 100) "animal" ∅ 0%Z).1
  = "sem_" +:+ pretty (SemanticMemory.counter (SemanticMemory.new 100) + 1)%N.
Proof.
  assert (Hi : SemanticMemory.ids_issued (SemanticMemory.new 100))
    by apply new_well_formed.
  assert (Hc : (SemanticMemory.counter (SemanticMemory.new 100) + 1
                < size_t_modulus)%N) by reflexivity.
  split; [exact Hi|]. split; [exact Hc|].
  exact (proj1 (create_node_get_node_round_trip (SemanticMemory.new 100)
                  "animal" ∅ 0%Z 1%Z Hi Hc)).
Defined.

(** X21 at the store [two_nodes]. *)
Lemma add_relationship_changes_one_edge_witness :
  SemanticMemory.single_edges Examples.two_nodes ∧
  SemanticMemory.single_edges Examples.linked_nodes.
Proof.
  assert (H : SemanticMemory.single_edges Examples.two_nodes)
    by apply two_nodes_well_formed.
  split; [exact H|].
  exact (proj1 (proj2 (proj2 (add_relationship_changes_one_edge Examples.two_nodes
                                "sem_1" "sem_2" 0.7%R H)))).
Defined.

Lemma two_nodes_animals :
  filter (λ node, SemanticMemory.matches_query node (SemanticQuery.mk "animal" ∅)
                  = true)
         (snd <$> map_to_list (SemanticMemory.nodes Examples.two_nodes))
  = [SemanticMemory.new_node "sem_1" "animal" 0%Z;
     SemanticMemory.new_node "sem_2" "animal" 0%Z].
Proof. reflexivity. Qed.

(** X12 at an episode of ten Records under a limit of ten: one Record is
    removed and nine are kept. *)
Lemma prune_memories_keeps_order_witness :
  EpisodicMemory.max_memories_per_episode (EpisodicMemory.new 10 10)
    ≤ length (EpisodicMemory.memories
                (EpisodicMemory.mkEpisode "ep_1" 0%Z Examples.ten_records ∅
                                          0%R 0%N 0%Z)) ∧
  length (EpisodicMemory.memories
            (EpisodicMemory.prune_memories (EpisodicMemory.new 10 10)
               (EpisodicMemory.mkEpisode "ep_1" 0%Z Examples.ten_records ∅
                                         0%R 0%N 0%Z))) = 9.
Proof.
  assert (H : EpisodicMemory.max_memories_per_episode (EpisodicMemory.new 10 10)
              ≤ length (EpisodicMemory.memories
                          (EpisodicMemory.mkEpisode "ep_1" 0%Z Examples.ten_records
                                                    ∅ 0%R 0%N 0%Z)))
    by (change (10 ≤ 10); lia).
  split; [exact H|].
  destruct (prune_memories_keeps_order _ _ H) as (_ & Hlen & _).
  rewrite Hlen. reflexivity.
Defined.

(** X23 at the store [two_nodes], searched for the concept ["animal"]
    without a limit at tick 5: both nodes are returned, and the node
    ["sem_1"] then has the access count 1 and the last access 5. *)
Lemma semantic_search_returns_matches_witness :
  SemanticMemory.keyed_by_id Examples.two_nodes ∧
  length (SemanticMemory.search Examples.two_nodes
            (SemanticQuery.mk "animal" ∅) 0 5%Z).1 = 2 ∧
  SemanticMemory.nodes
    (SemanticMemory.search Examples.two_nodes (SemanticQuery.mk "animal" ∅) 0 5%Z).2
    !! "sem_1"
  = Some (SemanticMemory.mkNode "sem_1" "animal" ∅ [] 0%R 1%N 0%Z 5%Z).
Proof.
  assert (H : SemanticMemory.keyed_by_id Examples.two_nodes)
    by apply two_nodes_well_formed.
  destruct (semantic_search_returns_matches Examples.two_nodes
              (SemanticQuery.mk "animal" ∅) 0 5%Z H)
    as (_ & _ & Hcount & _ & Hall & Hafter & _).
  split; [exact H|]. split.
  - rewrite Hcount, two_nodes_animals. reflexivity.
  - rewrite Hafter, two_nodes_sem_1.
    destruct (decide ("sem_1" ∈ SemanticNode.id
                        <$> (SemanticMemory.search Examples.two_nodes
                               (SemanticQuery.mk "animal" ∅) 0 5%Z).1))
      as [_|Hnot]; [reflexivity|].
    destruct (Hall "sem_1" _ two_nodes_sem_1 (or_intror eq_refl)
                (map_empty_subseteq _) Hnot) as [Hpos _].
    lia.
Defined.

(** X24 at the store [two_nodes]. *)
Lemma semantic_operations_keep_well_formed_witness :
  SemanticMemory.well_formed Examples.two_nodes ∧
  SemanticMemory.well_formed Examples.linked_nodes.
Proof.
  split; [exact two_nodes_well_formed|].
  exact (proj1 (proj2 (semantic_operations_keep_well_formed Examples.two_nodes
                         "animal" ∅ "sem_1" "sem_2" "sem_1" 0.7%R 0.5%R
                         (SemanticQuery.mk "animal" ∅) 1 5%Z
                         two_nodes_well_formed))).
Defined.

(** X25 at the store [two_nodes]: after [add_relationship(sem_1, sem_2, 0.7)]
    the node [sem_2] is related to [sem_1] from 0.5 on and not from 0.8
    on. *)
Lemma add_relationship_then_get_related_nodes_witness :
  SemanticMemory.well_formed Examples.two_nodes ∧
  SemanticMemory.nodes Examples.two_nodes !! "sem_1"
  = Some (SemanticMemory.new_node "sem_1" "animal" 0%Z) ∧
  SemanticMemory.nodes Examples.two_nodes !! "sem_2"
  = Some (SemanticMemory.new_node "sem_2" "animal" 0%Z) ∧
  (SemanticMemory.convert_to_semantic_node
     (SemanticMemory.new_node "sem_2" "animal" 0%Z)
     ∈ SemanticMemory.get_related_nodes Examples.linked_nodes "sem_1" 0.5%R 0
   ↔ (0.7 >= 0.5)%R).
Proof.
  split; [exact two_nodes_well_formed|].
  split; [exact two_nodes_sem_1|]. split; [exact two_nodes_sem_2|].
  exact (proj1 (proj2 (add_relationship_then_get_related_nodes Examples.two_nodes
                         "sem_1" "sem_2" 0.7%R 0.5%R 0 _ _
                         two_nodes_well_formed two_nodes_sem_1 two_nodes_sem_2))).
Defined.

(** X27 at a new state. *)
Lemma track_transaction_then_get_transaction_witness :
  State.get_transaction_count (State.new 0%Z) < State.MAX_TRANSACTIONS ∧
  (State.validate_transaction Examples.transfer = true ↔
   Transaction.signature Examples.transfer ≠ "" ∧
   Transaction.status Examples.transfer ≠ "" ∧
   (0 < Transaction.slot Examples.transfer)%N).
Proof.
  assert (H : State.get_transaction_count (State.new 0%Z) < State.MAX_TRANSACTIONS).
  { unfold State.get_transaction_count, State.MAX_TRANSACTIONS. cbn.
    rewrite map_size_empty. lia. }
  split; [exact H|].
  exact (proj1 (track_transaction_then_get_transaction (State.new 0%Z)
                  Examples.transfer "finalized" 9%Z H)).
Defined.

Lemma new_state_ids_issued (now : time_point) (next_id : N) :
  State.ids_issued (State.new now) next_id.
Proof. intros k [conn Hk]. cbn in Hk. by rewrite lookup_empty in Hk. Qed.

(** X29 at a new state: the first connection is ["conn_1"]. *)
Lemma add_connection_issues_fresh_id_witness :
  State.ids_issued (State.new 0%Z) 1%N ∧
  (State.add_connection (State.new 0%Z) 1%N "https://api.example" 0%Z).1.1
  = "conn_" +:+ pretty 1%N.
Proof.
  split; [apply new_state_ids_issued|].
  exact (proj1 (add_connection_issues_fresh_id (State.new 0%Z) 1%N
                  "https://api.example" 0%Z 1%Z (new_state_ids_issued 0%Z 1%N))).
Defined.

(** X30 at a fresh state: a value cached at tick 0 for 60 seconds is
    returned 60 seconds later and no longer one tick after that. *)
Lemma cache_get_agrees_with_cleanup_witness :
  ∃ s', State.cache_set (State.new 0%Z) "k" (VInt64 5) 60 0%Z = Some s' ∧
        State.cache_get s' TInt64 "k" 60000000000%Z
        = State.Returns (Some (VInt64 5)) ∧
        State.cache_get s' TInt64 "k" 60000000001%Z = State.Returns None.
Proof.
  assert (Hroom : State.get_cache_size (State.new 0%Z) < State.MAX_CACHE_SIZE)
    by (unfold State.get_cache_size, State.MAX_CACHE_SIZE; cbn;
        rewrite map_size_empty; lia).
  assert (Httl : (- 2 ^ 63 ≤ 60 * 1000000000 < 2 ^ 63)%Z) by lia.
  assert (Hexpiry : (- 2 ^ 63 ≤ 0 + 60 * 1000000000 < 2 ^ 63)%Z) by lia.
  destruct (proj2 (proj2 (proj2 (proj2
              (cache_get_agrees_with_cleanup (State.new 0%Z) TInt64 "k" (VInt64 5)
                 60 0%Z 60000000000%Z)))) Hroom Httl Hexpiry)
    as (s' & Hset & Hget & _).
  destruct (proj2 (proj2 (proj2 (proj2
              (cache_get_agrees_with_cleanup (State.new 0%Z) TInt64 "k" (VInt64 5)
                 60 0%Z 60000000001%Z)))) Hroom Httl Hexpiry)
    as (s'' & Hset' & _ & Hgone & _).
  assert (s'' = s') as -> by congruence.
  exists s'. split; [exact Hset|]. split.
  - apply Hget. lia.
  - apply Hgone. lia.
Defined.
